(** * The streaming secret redactor of internal/redactor/redactor.go

    A shallow embedding of the redactor (needle index, match tracker, range
    merger, buffered flush engine, reset), of VarsToRedact, ValuesToRedact
    and Mux, and of the deprecated names of agent/plugin/error.go, followed
    by the properties proved about them.

    Conventions of the embedding:
    - a Go [byte] is an [ascii] (eight bits); a [[]byte] and a Go [string]
      are both a [list byte];
    - a Go [int] is a [Z]; every integer the redactor computes is a buffer
      index or a difference of two of them, so 64-bit wrap-around is never
      reached and is not written out;
    - a function returns [None] where the Go code would panic (an index or a
      slice expression out of range); slices are checked against the length,
      Go checks them against the capacity;
    - the mutex is not modelled: every method runs under the lock, so the
      methods are the atomic steps of the model. *)

From Stdlib Require Import ZArith Ascii String.
From Stdlib Require OrderedTypeEx.
From stdpp Require Import gmap strings list sorting.

Open Scope Z_scope.

Abbreviation byte := ascii.

(** [[]byte(s)] *)
Definition bytes (s : string) : list byte := list_ascii_of_string s.

(** [len(x)] as a Go int *)
Definition len {A} (l : list A) : Z := Z.of_nat (length l).

(** [l[i]], panicking out of range *)
Definition index {A} (l : list A) (i : Z) : option A :=
  if bool_decide (0 ≤ i) then l !! Z.to_nat i else None.

(** [l[lo:hi]], panicking out of range *)
Definition slice {A} (l : list A) (lo hi : Z) : option (list A) :=
  if bool_decide (0 ≤ lo ∧ lo ≤ hi ∧ hi ≤ len l)
  then Some (take (Z.to_nat (hi - lo)) (drop (Z.to_nat lo) l))
  else None.

(** [l[lo:]] *)
Definition slice_from {A} (l : list A) (lo : Z) : option (list A) :=
  slice l lo (len l).

(** ** The destination writer

    [dst io.Writer] is an external collaborator. A sink is modelled by what
    it has received so far and by a script giving the outcome of each of its
    next calls; once the script is used up every call is accepted. A fault
    may come after part of the bytes were taken, as [io.Writer] allows. *)

Definition error := nat.

Inductive outcome :=
  | Accept
  | Fault (taken : nat) (e : error).

Record Sink := mkSink {
  received : list byte;
  script : list outcome
}.

Definition sink_Write (s : Sink) (p : list byte) : Sink * option error :=
  match script s with
  | [] => (mkSink (received s ++ p) [], None)
  | Accept :: rest => (mkSink (received s ++ p) rest, None)
  | Fault n e :: rest => (mkSink (received s ++ take n p) rest, Some e)
  end.

(** ** Ranges *)

Record subrange := mkRange { from : Z; to : Z }.

Definition sub (r : subrange) (x : Z) : subrange :=
  mkRange (from r - x) (to r - x).

Definition contains (r : subrange) (x : Z) : bool :=
  (from r <=? x) && (x <? to r).

Definition overlap (r s : subrange) : bool :=
  contains r (from s) || contains s (from r).

Definition union (r s : subrange) : subrange :=
  let s1 := if from r <? from s then mkRange (from r) (to s) else s in
  if to s1 <? to r then mkRange (from s1) (to r) else s1.

(** The backward walk of mergeOverlaps. [i] is the number of iterations
    left, so the loop variable of the source is [i - 1]; the result is the
    final [j] and the array. *)
Fixpoint mergeLoop (i j : nat) (rs : list subrange) : option (nat * list subrange) :=
  match i with
  | O => Some (j, rs)
  | S i' =>
      rj ← rs !! j;
      ri ← rs !! i';
      if overlap rj ri
      then mergeLoop i' j (<[j := union rj ri]> rs)
      else mergeLoop i' (j - 1)%nat (<[(j - 1)%nat := ri]> rs)
  end.

Definition mergeOverlaps (rs : list subrange) : option (list subrange) :=
  if bool_decide (len rs ≤ 1) then Some rs
  else
    let j := (length rs - 1)%nat in
    '(j, rs) ← mergeLoop j j rs;
    Some (drop j rs).

(** *** What mergeOverlaps computes

    The same walk on a list: [cur] is [rs[j]], [acc] is [rs[j+1:]], and
    [revs] holds the ranges still to visit, last first. *)
Fixpoint mergeInto (revs : list subrange) (cur : subrange) (acc : list subrange)
    : list subrange :=
  match revs with
  | [] => cur :: acc
  | x :: revs' =>
      if overlap cur x then mergeInto revs' (union cur x) acc
      else mergeInto revs' x (cur :: acc)
  end.

Definition merged (rs : list subrange) : list subrange :=
  match reverse rs with
  | [] => []
  | last :: revs => mergeInto revs last []
  end.

(** [p] lies in one of the ranges. *)
Definition covered (rs : list subrange) (p : Z) : bool :=
  existsb (λ r, contains r p) rs.

(** One of the ranges holds both [p - 1] and [p]. *)
Definition joined (rs : list subrange) (p : Z) : bool :=
  existsb (λ r, bool_decide (from r < p < to r)) rs.

Definition nonEmpty (r : subrange) : Prop := from r < to r.

(** Non-decreasing end coordinates. *)
Fixpoint sortedByTo (rs : list subrange) : Prop :=
  match rs with
  | [] => True
  | r :: rs' => match rs' with [] => True | s :: _ => to r ≤ to s end
                ∧ sortedByTo rs'
  end.

(** Each range ends before the next one starts. *)
Fixpoint chained (rs : list subrange) : Prop :=
  match rs with
  | [] => True
  | r :: rs' => match rs' with [] => True | s :: _ => to r ≤ from s end
                ∧ chained rs'
  end.

(** Non-increasing end coordinates, all of them at most [t]: the order in
    which the backward walk meets the ranges. *)
Fixpoint descTo (t : Z) (revs : list subrange) : Prop :=
  match revs with
  | [] => True
  | x :: revs' => to x ≤ t ∧ descTo (to x) revs'
  end.

(** No two ranges of the list overlap. *)
Definition separated (rs : list subrange) : Prop :=
  ∀ i j ri rj, i ≠ j → rs !! i = Some ri → rs !! j = Some rj →
               overlap ri rj = false.

Definition sameCover (rs rs' : list subrange) : Prop :=
  ∀ p, covered rs p = covered rs' p.

(** The two lists hold together the same neighbouring positions: a range
    of one holds [p - 1] and [p] exactly when a range of the other does. *)
Definition sameJoins (rs rs' : list subrange) : Prop :=
  ∀ p, joined rs p = joined rs' p.

(** No pairwise non-overlapping list covering the same positions is
    shorter than [out]. *)
Definition fewestRanges (out : list subrange) : Prop :=
  ∀ rs', separated rs' → sameCover out rs' → (length out ≤ length rs')%nat.

(** No list covering the positions of [rs] is shorter than [out], unless it
    holds two neighbouring positions in one range where no range of [rs]
    does. *)
Definition fewestKeepingApart (rs out : list subrange) : Prop :=
  ∀ rs', sameCover rs rs' →
         (∀ p, joined rs' p = true → joined rs p = true) →
         (length out ≤ length rs')%nat.

(** ** The redactor *)

Record partialMatch := mkPartial { needle : list byte; matched : Z }.

Record Redactor := mkRedactor {
  subst : list byte;
  needlesByFirstByte : byte → list (list byte);
  dst : Sink;
  buf : list byte;
  partialMatches : list partialMatch;
  nextMatches : list partialMatch;
  completedMatches : list subrange
}.

Definition set_index (r : Redactor) idx : Redactor :=
  mkRedactor (subst r) idx (dst r) (buf r) (partialMatches r) (nextMatches r)
    (completedMatches r).

Definition set_dst (r : Redactor) d : Redactor :=
  mkRedactor (subst r) (needlesByFirstByte r) d (buf r) (partialMatches r)
    (nextMatches r) (completedMatches r).

Definition set_buf (r : Redactor) b : Redactor :=
  mkRedactor (subst r) (needlesByFirstByte r) (dst r) b (partialMatches r)
    (nextMatches r) (completedMatches r).

Definition set_partialMatches (r : Redactor) ps : Redactor :=
  mkRedactor (subst r) (needlesByFirstByte r) (dst r) (buf r) ps
    (nextMatches r) (completedMatches r).

Definition set_nextMatches (r : Redactor) ps : Redactor :=
  mkRedactor (subst r) (needlesByFirstByte r) (dst r) (buf r)
    (partialMatches r) ps (completedMatches r).

Definition set_completedMatches (r : Redactor) cm : Redactor :=
  mkRedactor (subst r) (needlesByFirstByte r) (dst r) (buf r)
    (partialMatches r) (nextMatches r) cm.

(** Reset: empty every bucket, then append each non-empty needle to the
    bucket of its first byte. *)
Definition addNeedle (idx : byte → list (list byte)) (s : list byte)
    : byte → list (list byte) :=
  match s with
  | [] => idx
  | c :: _ => λ x, if bool_decide (x = c) then idx c ++ [s] else idx x
  end.

Definition Reset (r : Redactor) (needles : list (list byte)) : Redactor :=
  set_index r (fold_left addNeedle needles (λ _, [])).

Definition New (d : Sink) (sub : list byte) (needles : list (list byte)) : Redactor :=
  Reset (mkRedactor sub (λ _, []) d [] [] [] []) needles.

(** *** flushUpTo *)

(** What the loop over the completed matches hands back: the sink, and
    either the error it returned or the cursor and the index of the last
    range processed. *)
Definition loopExit : Type := Sink * (error + Z * Z).

Fixpoint flushLoop (sb bf : list byte) (limit : Z) (ms : list subrange)
    (ri : Z) (bufidx done : Z) (d : Sink) : option loopExit :=
  match ms with
  | [] => Some (d, inr (bufidx, done))
  | m :: ms' =>
      if bool_decide (limit ≤ from m) then Some (d, inr (bufidx, done))
      else
        if bool_decide (bufidx < from m) then
          p ← slice bf bufidx (from m);
          match sink_Write d p with
          | (d1, Some e) => Some (d1, inl e)
          | (d1, None) =>
              match sink_Write d1 sb with
              | (d2, Some e) => Some (d2, inl e)
              | (d2, None) => flushLoop sb bf limit ms' (ri + 1) (to m) ri d2
              end
          end
        else if bool_decide (bufidx = from m) then
          match sink_Write d sb with
          | (d2, Some e) => Some (d2, inl e)
          | (d2, None) => flushLoop sb bf limit ms' (ri + 1) (to m) ri d2
          end
        else flushLoop sb bf limit ms' (ri + 1) (to m) ri d
  end.

Definition flushUpTo (r : Redactor) (limit : Z) : option (Redactor * option error) :=
  if bool_decide (limit = 0 ∨ len (buf r) = 0) then Some (r, None)
  else
    x ← flushLoop (subst r) (buf r) limit (completedMatches r) 0 0 (-1) (dst r);
    match x with
    | (d, inl e) => Some (set_dst r d, Some e)
    | (d, inr (bufidx, done)) =>
        y ← (if bool_decide (bufidx < limit) then
               p ← slice (buf r) bufidx limit;
               Some (sink_Write d p, limit)
             else Some ((d, None), bufidx));
        match y with
        | ((d, Some e), _) => Some (set_dst r d, Some e)
        | ((d, None), bufidx) =>
            if bool_decide (len (buf r) ≤ bufidx) then
              Some (set_completedMatches (set_buf (set_dst r d) []) [], None)
            else
              b ← slice_from (buf r) bufidx;
              rest ← slice_from (completedMatches r) (done + 1);
              Some (set_completedMatches (set_buf (set_dst r d) b)
                      ((λ m, sub m bufidx) <$> rest), None)
        end
    end.

(** *** Write *)

(** The loop over the partial matches for the byte [c] at [bufidx]. *)
Fixpoint advanceMatches (c : byte) (bufidx : Z) (ps : list partialMatch)
    (next : list partialMatch) (cm : list subrange)
    : option (list partialMatch * list subrange) :=
  match ps with
  | [] => Some (next, cm)
  | s :: ps' =>
      x ← index (needle s) (matched s);
      if bool_decide (c = x) then
        let m := matched s + 1 in
        if bool_decide (m < len (needle s))
        then advanceMatches c bufidx ps' (next ++ [mkPartial (needle s) m]) cm
        else advanceMatches c bufidx ps' next
               (cm ++ [mkRange (bufidx - len (needle s) + 1) (bufidx + 1)])
      else advanceMatches c bufidx ps' next cm
  end.

(** The loop over the needles that start with the byte at [bufidx]. *)
Fixpoint startMatches (bufidx : Z) (ss : list (list byte))
    (next : list partialMatch) (cm : list subrange)
    : list partialMatch * list subrange :=
  match ss with
  | [] => (next, cm)
  | s :: ss' =>
      if bool_decide (len s = 1)
      then startMatches bufidx ss' next (cm ++ [mkRange bufidx (bufidx + 1)])
      else startMatches bufidx ss' (next ++ [mkPartial s 1]) cm
  end.

(** The loop over the bytes of the chunk; [n] is the index of the head of
    [b] in the chunk. *)
Fixpoint scan (r : Redactor) (prevBufLen n : Z) (b : list byte) : option Redactor :=
  match b with
  | [] => Some r
  | c :: b' =>
      let bufidx := n + prevBufLen in
      x ← advanceMatches c bufidx (partialMatches r) (nextMatches r)
             (completedMatches r);
      let '(next, cm) :=
        startMatches bufidx (needlesByFirstByte r c) x.1 x.2 in
      scan (set_completedMatches
              (set_nextMatches (set_partialMatches r next) []) cm)
        prevBufLen (n + 1) b'
  end.

(** Step 4 of Write: the furthest index that no partial match reaches. *)
Definition flushLimit (r : Redactor) : Z :=
  fold_left (λ limit s,
               let t := len (buf r) - matched s in
               if bool_decide (t < limit) then t else limit)
    (partialMatches r) (len (buf r)).

(** Steps 1 to 3 of Write: append, scan, merge. *)
Definition absorb (r : Redactor) (b : list byte) : option Redactor :=
  let prevBufLen := len (buf r) in
  r1 ← scan (set_buf r (buf r ++ b)) prevBufLen 0 b;
  cm ← mergeOverlaps (completedMatches r1);
  Some (set_completedMatches r1 cm).

Definition Write (r : Redactor) (b : list byte) : option (Redactor * Z * option error) :=
  if bool_decide (len b = 0) then Some (r, 0, None)
  else
    let prevBufLen := len (buf r) in
    r1 ← absorb r b;
    let limit := flushLimit r1 in
    x ← flushUpTo r1 limit;
    match x with
    | (r2, Some e) => Some (r2, limit - prevBufLen, Some e)
    | (r2, None) => Some (r2, len b, None)
    end.

Definition Flush (r : Redactor) : option (Redactor * option error) :=
  let r := set_partialMatches r [] in
  flushUpTo r (len (buf r)).

(** ** Sequences of calls *)

Inductive op :=
  | OpWrite (b : list byte)
  | OpReset (needles : list (list byte))
  | OpFlush.

(** One call, keeping only the state it leaves. *)
Definition call (r : Redactor) (o : op) : option Redactor :=
  match o with
  | OpWrite b => x ← Write r b; Some x.1.1
  | OpReset needles => Some (Reset r needles)
  | OpFlush => x ← Flush r; Some x.1
  end.

Fixpoint run (r : Redactor) (ops : list op) : option Redactor :=
  match ops with
  | [] => Some r
  | o :: ops' => r' ← call r o; run r' ops'
  end.

(** The bytes the calls [ops] write, in order. *)
Definition written (ops : list op) : list byte :=
  concat ((λ o, match o with OpWrite b => b | _ => [] end) <$> ops).

(** A sink that accepts every write. *)
Definition quiet : Sink := mkSink [] [].

Definition REDACTED : list byte := bytes "[REDACTED]".

(** What the sink holds after the calls [ops] on a fresh redactor. *)
Definition output (sb : list byte) (needles : list (list byte)) (ops : list op)
    : option (list byte) :=
  r ← run (New quiet sb needles) ops; Some (received (dst r)).

(** ** The match tracker as functions on lists

    What the two inner loops of Write append for one byte: [kept] and
    [started] to the next set of partial matches, [completed] and [singles]
    to the completed ranges. *)

(** The byte [c] is the one the partial match waits for. *)
Definition takes (c : byte) (s : partialMatch) : bool :=
  bool_decide (index (needle s) (matched s) = Some c).

Definition kept (c : byte) (ps : list partialMatch) : list partialMatch :=
  omap (λ s, if takes c s && bool_decide (matched s + 1 < len (needle s))
             then Some (mkPartial (needle s) (matched s + 1)) else None) ps.

Definition completed (c : byte) (pos : Z) (ps : list partialMatch)
    : list subrange :=
  omap (λ s, if takes c s && negb (bool_decide (matched s + 1 < len (needle s)))
             then Some (mkRange (pos - len (needle s) + 1) (pos + 1))
             else None) ps.

Definition started (ss : list (list byte)) : list partialMatch :=
  omap (λ s, if bool_decide (len s = 1) then None else Some (mkPartial s 1)) ss.

Definition singles (pos : Z) (ss : list (list byte)) : list subrange :=
  omap (λ s, if bool_decide (len s = 1) then Some (mkRange pos (pos + 1))
             else None) ss.

(** The partial matches left and the ranges found by scanning [b], whose
    first byte is at [pos]. *)
Fixpoint scanned (idx : byte → list (list byte)) (pos : Z) (b : list byte)
    (ps : list partialMatch) : list partialMatch * list subrange :=
  match b with
  | [] => (ps, [])
  | c :: b' =>
      let r := scanned idx (pos + 1) b' (kept c ps ++ started (idx c)) in
      (r.1, completed c pos ps ++ singles pos (idx c) ++ r.2)
  end.

(** A partial match as Write builds them. *)
Definition validPartial (s : partialMatch) : Prop :=
  0 < matched s < len (needle s).

(** An index as Reset builds them: a bucket holds needles that start with
    its byte. *)
Definition validIndex (idx : byte → list (list byte)) : Prop :=
  ∀ c s, s ∈ idx c → head s = Some c.

(** ** The stream seen so far

    A trace records, in coordinates of the whole stream, what the calls
    made so far have fed to the tracker: the bytes written, the ranges
    completed, and the partial matches alive. *)
Record Trace := mkTrace {
  stream : list byte;
  found : list subrange;
  pending : list partialMatch
}.

Definition feed (idx : byte → list (list byte)) (t : Trace) (b : list byte)
    : Trace :=
  let r := scanned idx (len (stream t)) b (pending t) in
  mkTrace (stream t ++ b) (found t ++ r.2) r.1.

(** The trace and the index after one call. *)
Definition observe (x : Trace * (byte → list (list byte))) (o : op)
    : Trace * (byte → list (list byte)) :=
  match o with
  | OpWrite b => (feed x.2 x.1 b, x.2)
  | OpReset needles => (x.1, fold_left addNeedle needles (λ _, []))
  | OpFlush => (mkTrace (stream x.1) (found x.1) [], x.2)
  end.

Definition traceOf (needles : list (list byte)) (ops : list op) : Trace :=
  (fold_left observe ops
     (mkTrace [] [] [], fold_left addNeedle needles (λ _, []))).1.

(** ** The redacted stream

    What a position of the stream contributes to the output, given the
    ranges to redact: its byte when no range covers it, the marker when it
    starts a run of covered positions held together by the ranges, nothing
    when it continues such a run. *)
Definition piece (sb w : list byte) (rs : list subrange) (p : Z) : list byte :=
  if covered rs p then (if joined rs p then [] else sb)
  else match index w p with Some c => [c] | None => [] end.

Definition pieces (sb w : list byte) (rs : list subrange) (lo hi : Z)
    : list byte :=
  concat (piece sb w rs <$> seqZ lo (hi - lo)).

Definition redact (sb w : list byte) (rs : list subrange) : list byte :=
  pieces sb w rs 0 (len w).

(** [n] occurs in [l] as a contiguous run. *)
Definition occursIn (n l : list byte) : Prop := ∃ u v, l = u ++ n ++ v.

(** ** The flush loop as a function on lists

    The cursor after the loop of flushUpTo over [ms], entered with the
    cursor [bufidx], and the number of ranges it processed. *)
Fixpoint sweep (limit : Z) (ms : list subrange) (bufidx : Z) : Z * nat :=
  match ms with
  | [] => (bufidx, 0%nat)
  | m :: ms' =>
      if bool_decide (limit ≤ from m) then (bufidx, 0%nat)
      else ((sweep limit ms' (to m)).1, S (sweep limit ms' (to m)).2)
  end.

(** A pending range of a buffer of [n] bytes: not empty, ending inside the
    buffer and after its start. Its start may lie before the buffer. *)
Definition pendingRange (n : Z) (m : subrange) : Prop :=
  from m < to m ∧ 0 < to m ≤ n.

(** [r'] is [r] after a flush that moved the start of the buffer by [c]
    positions, asked to flush up to [limit], in front of a quiet sink. *)
Definition flushedTo (r : Redactor) (limit c : Z) (r' : Redactor) : Prop :=
  0 ≤ c ≤ len (buf r) ∧ limit ≤ c
  ∧ buf r' = drop (Z.to_nat c) (buf r)
  ∧ subst r' = subst r
  ∧ needlesByFirstByte r' = needlesByFirstByte r
  ∧ partialMatches r' = partialMatches r
  ∧ nextMatches r' = nextMatches r
  ∧ script (dst r') = []
  ∧ received (dst r')
    = received (dst r) ++ pieces (subst r) (buf r) (completedMatches r) 0 c
  ∧ chained (completedMatches r')
  ∧ Forall (pendingRange (len (buf r'))) (completedMatches r')
  ∧ (∀ p, 0 ≤ p →
          covered (completedMatches r') p = covered (completedMatches r) (p + c))
  ∧ (∀ p, 0 ≤ p →
          joined (completedMatches r') p = joined (completedMatches r) (p + c))
  ∧ (∀ p, limit ≤ p < c → 0 ≤ p →
          covered (completedMatches r) p = true
          ∧ joined (completedMatches r) p = true).

(** The largest number of bytes a partial match of the list has matched. *)
Definition maxMatched (ps : list partialMatch) : Z :=
  foldr (λ s, Z.max (matched s)) 0 ps.


(** ** The redactor and the stream

    [tracks out0 t r base]: in front of a quiet sink that held [out0] at
    first, the redactor [r] has consumed the trace [t], its buffer starts
    at position [base] of the stream, and the sink holds the pieces of the
    positions before [base]. *)
Record tracks (out0 : list byte) (t : Trace) (r : Redactor) (base : Z) : Prop :=
  mkTracks {
    tr_base : 0 ≤ base ≤ len (stream t);
    tr_buf : buf r = drop (Z.to_nat base) (stream t);
    tr_partial : partialMatches r = pending t;
    tr_next : nextMatches r = [];
    tr_script : script (dst r) = [];
    tr_received :
      received (dst r) = out0 ++ pieces (subst r) (stream t) (found t) 0 base;
    tr_chained : chained (completedMatches r);
    tr_pending : Forall (pendingRange (len (buf r))) (completedMatches r);
    tr_covered :
      ∀ p, 0 ≤ p → covered (completedMatches r) p = covered (found t) (p + base);
    tr_joined :
      ∀ p, 0 ≤ p → joined (completedMatches r) p = joined (found t) (p + base);
    tr_valid : Forall validPartial (pending t);
    tr_index : validIndex (needlesByFirstByte r);
    tr_settled :
      ∀ s p, s ∈ pending t → len (stream t) - matched s ≤ p < base →
             covered (found t) p = true ∧ joined (found t) p = true;
    tr_suffix :
      ∀ s, s ∈ pending t →
           take (Z.to_nat (matched s)) (needle s) `suffix_of` stream t
  }.

(** ** Selecting the variables to redact *)

Definition RedactLengthMin : Z := 6.

(** What [logger.Warningf] is called with. *)
Inductive warning :=
  | BadPattern (pattern : string)
  | BelowMinimum (name : string).

Section Selection.

(** [path.Match] of the Go library: [None] stands for ErrBadPattern. *)
Variable path_Match : string → string → option bool.

(** The loop over the patterns for one variable: the log, and whether the
    loop reached [vars[name] = val]. *)
Fixpoint matchPatterns (name val : string) (patterns : list string)
    (log : list warning) : list warning * bool :=
  match patterns with
  | [] => (log, false)
  | pattern :: rest =>
      match path_Match pattern name with
      | None => matchPatterns name val rest (log ++ [BadPattern pattern])
      | Some false => matchPatterns name val rest log
      | Some true =>
          if bool_decide (Z.of_nat (String.length val) < RedactLengthMin) then
            matchPatterns name val rest
              (if bool_decide (Z.of_nat (String.length val) > 0)
               then log ++ [BelowMinimum name] else log)
          else (log, true)
      end
  end.

(** The environment is walked in the order of [map_fold]; Go leaves the
    order of a map range unspecified. *)
Definition VarsToRedact (logger : list warning) (patterns : list string)
    (environment : gmap string string) : list warning * gmap string string :=
  map_fold (λ name val acc,
              let '(log, keep) := matchPatterns name val patterns acc.1 in
              (log, if keep then <[name := val]> acc.2 else acc.2))
    (logger, ∅) environment.

(** [name] matches at least one pattern. *)
Definition matchesSome (patterns : list string) (name : string) : Prop :=
  ∃ pattern, pattern ∈ patterns ∧ path_Match pattern name = Some true.

End Selection.

(** A matcher for patterns without metacharacters, on which [path.Match]
    is string equality. *)
Definition literal_Match (pattern name : string) : option bool :=
  Some (bool_decide (pattern = name)).

(** ** Occurrences of the needles *)

(** [x] is the range of an occurrence in [w] of a needle of the list that
    is not empty. *)
Definition occurrence (needles : list (list byte)) (w : list byte)
    (x : subrange) : Prop :=
  ∃ n u v, n ∈ needles ∧ n ≠ [] ∧ w = u ++ n ++ v
           ∧ x = mkRange (len u) (len u + len n).

(** ** A needle and the marker

    [b] can be laid over [a] from one of the positions of [a]: from there
    on the two agree as far as both go. *)
Definition clashes (a b : list byte) : Prop :=
  Exists (λ k, drop k a `prefix_of` b ∨ b `prefix_of` drop k a)
    (seq 0 (length a)).

(** The needle and the marker cannot overlap: no string holds an occurrence
    of the one and an occurrence of the other that share a position. That
    is, neither occurs in the other, and no end of one, unless empty, is a
    beginning of the other. *)
Definition apart (n sb : list byte) : Prop :=
  ¬ clashes n sb ∧ ¬ clashes sb n.

#[global] Instance clashes_dec (a b : list byte) : Decision (clashes a b).
Proof. unfold clashes. apply _. Defined.

#[global] Instance apart_dec (n sb : list byte) : Decision (apart n sb).
Proof. unfold apart. apply _. Defined.

(** ** Well-formed states

    What every method keeps of the state, whatever the sink does: the
    spare list of partial matches is empty between calls, the buckets hold
    needles under their first byte, a partial match has matched some but
    not all of its needle, and the pending ranges are a chain of ranges
    that are not empty and end inside the buffer. *)
Definition wellFormed (r : Redactor) : Prop :=
  nextMatches r = []
  ∧ validIndex (needlesByFirstByte r)
  ∧ Forall validPartial (partialMatches r)
  ∧ chained (completedMatches r)
  ∧ Forall (pendingRange (len (buf r))) (completedMatches r).

(** ** The values to redact *)

Section Values.

Variable path_Match : string → string → option bool.



End Values.

(** ** Mux: several redactors

    A [Mux] is a slice of pointers to redactors. The redactors live in a
    store, a pointer is an address of the store, and the same address may
    come more than once in a mux. An address the store does not hold stands
    for a nil pointer: a method called through it panics. Every redactor
    has a sink of its own. *)

Abbreviation store := (gmap nat Redactor).

Definition Mux := list nat.

(** The loop of [Mux.Flush]: the store and the errors collected so far. *)
Fixpoint Mux_Flush_loop (h : store) (mux : Mux) (errs : list error)
    : option (store * list error) :=
  match mux with
  | [] => Some (h, errs)
  | p :: mux' =>
      r ← h !! p;
      x ← Flush r;
      Mux_Flush_loop (<[p := x.1]> h) mux'
        (match x.2 with Some err => errs ++ [err] | None => errs end)
  end.

(** [errors.Join] of errors none of which is nil keeps them all, in order;
    the result [None] is the nil error. *)
Definition Mux_Flush (h : store) (mux : Mux)
    : option (store * option (list error)) :=
  x ← Mux_Flush_loop h mux [];
  Some (x.1, if bool_decide (len x.2 ≠ 0) then Some x.2 else None).

Fixpoint Mux_Reset (h : store) (mux : Mux) (needles : list (list byte))
    : option store :=
  match mux with
  | [] => Some h
  | p :: mux' =>
      r ← h !! p;
      Mux_Reset (<[p := Reset r needles]> h) mux' needles
  end.

(** The error Flush returns for the redactor at [p], taken alone. *)
Definition flushError (h : store) (p : nat) : option error :=
  r ← h !! p; x ← Flush r; x.2.

(** ** States used in the examples *)

(** A sink whose first write faults with error 7 before taking a byte. *)
Definition faulty : Sink := mkSink [] [Fault 0 7%nat].

(** A redactor holding five bytes, in front of the faulty sink and of the
    quiet one, and what these become. *)
Definition heldFaulty : Redactor :=
  mkRedactor REDACTED (λ _, []) faulty (bytes "hello") [] [] [].

Definition heldFaulted : Redactor := set_dst heldFaulty (mkSink [] []).

Definition heldQuiet : Redactor :=
  mkRedactor REDACTED (λ _, []) quiet (bytes "hello") [] [] [].

Definition drained : Redactor :=
  mkRedactor REDACTED (λ _, []) (mkSink (bytes "hello") []) [] [] [] [].

(** The redactor for the needle "sekret" after Write("the sek"). *)
Definition midSekret : Redactor :=
  default (New quiet REDACTED [bytes "sekret"])
    (run (New quiet REDACTED [bytes "sekret"]) [OpWrite (bytes "the sek")]).

(** * The deprecated names of agent/plugin/error.go

    A [DeprecatedNameErrors] is used through a pointer: the pointer is an
    [option], [None] being nil, and the map behind it is an [option] too,
    [None] being the nil map. A method that changes the map returns the
    object the pointer it returns points to. *)

Record DeprecatedNameError := mkDeprecatedNameError {
  old : string;
  new : string
}.

#[global] Instance DeprecatedNameError_eq_dec : EqDecision DeprecatedNameError.
Proof. solve_decision. Defined.

#[global] Instance DeprecatedNameError_countable : Countable DeprecatedNameError.
Proof.
  apply (inj_countable' (λ e, (old e, new e))
           (λ p, mkDeprecatedNameError p.1 p.2)).
  by intros [].
Defined.

Definition NewDeprecatedNameError (oldName newName : string)
    : DeprecatedNameError :=
  mkDeprecatedNameError oldName newName.

Record DeprecatedNameErrors := mkDeprecatedNameErrors {
  errs : option (gset DeprecatedNameError)
}.

(** What reading the map gives: the nil map reads as an empty one. *)
Definition members (e : DeprecatedNameErrors) : gset DeprecatedNameError :=
  default ∅ (errs e).

Definition IsEmpty (e : option DeprecatedNameErrors) : bool :=
  match e with
  | None => true
  | Some e => bool_decide (size (members e) = 0%nat)
  end.

(** The comparison handed to [sort.Slice]; [<] on Go strings compares them
    byte by byte. *)
Definition less (a b : DeprecatedNameError) : bool :=
  if bool_decide (old a = old b) then String.ltb (new a) (new b)
  else String.ltb (old a) (old b).

(** What a sorted slice has of each element and the next: the second is
    not less than the first. *)
Definition atMost (a b : DeprecatedNameError) : Prop := less b a = false.

#[global] Instance atMost_dec (a b : DeprecatedNameError) : Decision (atMost a b).
Proof. unfold atMost. apply _. Defined.

Definition Append (e : option DeprecatedNameErrors)
    (errs : list DeprecatedNameError) : DeprecatedNameErrors :=
  let m := match e with None => ∅ | Some e => members e end in
  mkDeprecatedNameErrors (Some (fold_left (λ m err, {[ err ]} ∪ m) errs m)).

Definition newline : string := String "010" EmptyString.

Section Names.

(** The collaborators of the file: [sort.Slice] of the library, the order
    in which a [range] visits a map, which the language leaves open, the
    verb [%q] of [fmt.Sprintf], and [errors.As] on the errors of the
    program, which hands back the pointer it found. *)
Variable sort_Slice :
  (DeprecatedNameError → DeprecatedNameError → bool) →
  list DeprecatedNameError → list DeprecatedNameError.
Variable range : gset DeprecatedNameError → list DeprecatedNameError.
Variable quote : string → string.
Variable goError : Type.
Variable isNil : goError → bool.
Variable errors_As : goError → option (option DeprecatedNameErrors).

(** [None] is the nil slice. *)
Definition Errors (e : option DeprecatedNameErrors)
    : option (list DeprecatedNameError) :=
  match e with
  | None => None
  | Some e =>
      match errs e with
      | None => Some []
      | Some m => Some (sort_Slice less (range m))
      end
  end.

Definition DeprecatedNameError_Error (e : DeprecatedNameError) : string :=
  " deprecated: " +:+ quote (old e) +:+ newline
  +:+ "replacement: " +:+ quote (new e) +:+ newline.

(** The loop of Error over the sorted errors: [n] is [len(e.errs)], [i] the
    index of the head of the list. *)
Fixpoint writeErrors (n i : Z) (l : list DeprecatedNameError) : string :=
  match l with
  | [] => ""
  | err :: l' =>
      DeprecatedNameError_Error err
      +:+ (if bool_decide (i < n - 1) then newline else "")
      +:+ writeErrors n (i + 1) l'
  end.

Definition DeprecatedNameErrors_Error (e : option DeprecatedNameErrors)
    : string :=
  writeErrors (match e with
               | Some e => Z.of_nat (size (members e))
               | None => 0
               end)
    0 (default [] (Errors e)).

(** [None] where the method panics: [errors.As] found a nil pointer, and
    the method reads the map through it. *)
Definition DeprecatedNameErrors_Is (e : option DeprecatedNameErrors)
    (target : goError) : option bool :=
  match e with
  | None => Some (isNil target)
  | Some e =>
      match errors_As target with
      | None => Some false
      | Some None => None
      | Some (Some t) =>
          if bool_decide (size (members e) ≠ size (members t)) then Some false
          else Some (forallb (λ err, bool_decide (err ∈ members t))
                       (range (members e)))
      end
  end.

End Names.

(** A sort and a range order for the examples. *)
Definition byName (_ : DeprecatedNameError → DeprecatedNameError → bool)
    : list DeprecatedNameError → list DeprecatedNameError :=
  merge_sort atMost.

(** * Properties *)

(** ** Worked scenarios of the specification *)

Example scenario1 :
  output REDACTED [bytes "sekret"] [OpWrite (bytes "the sekret is safe"); OpFlush]
  = Some (bytes "the [REDACTED] is safe").
Proof. vm_compute. reflexivity. Qed.

Example scenario2 :
  output REDACTED [bytes "sekret"]
    [OpWrite (bytes "the sek"); OpWrite (bytes "ret is safe"); OpFlush]
  = Some (bytes "the [REDACTED] is safe").
Proof. vm_compute. reflexivity. Qed.

Example scenario4 :
  output REDACTED [bytes "sekret"] [OpWrite (bytes "partial sek"); OpFlush]
  = Some (bytes "partial sek").
Proof. vm_compute. reflexivity. Qed.

(** C6: with needles "abcdef" and "cdefgh" and marker "[REDACTED]", writing
    "xxabcdefghxx" and flushing delivers exactly "xx[REDACTED]xx": the two
    overlapping matches give one marker over their union. *)
Theorem overlap_collapse_example :
  output REDACTED [bytes "abcdef"; bytes "cdefgh"]
    [OpWrite (bytes "xxabcdefghxx"); OpFlush]
  = Some (bytes "xx[REDACTED]xx").
Proof. vm_compute. reflexivity. Qed.

(** ** Faults of the sink inside flushUpTo *)

(** C8: when flushUpTo returns an error of the sink, the buffer, the pending
    ranges and the partial matches are those it was entered with: truncation,
    compaction and re-basing come after the last sink write. *)
Theorem flushUpTo_error_keeps_state (r r' : Redactor) (limit : Z) (e : error) :
  flushUpTo r limit = Some (r', Some e) →
  buf r' = buf r
  ∧ completedMatches r' = completedMatches r
  ∧ partialMatches r' = partialMatches r
  ∧ nextMatches r' = nextMatches r.
Proof.
  unfold flushUpTo. intros H.
  repeat (case_bool_decide || case_match || simplify_option_eq); done.
Qed.

Lemma flushUpTo_error_keeps_state_witness :
  buf heldFaulted = buf heldFaulty
  ∧ completedMatches heldFaulted = completedMatches heldFaulty
  ∧ partialMatches heldFaulted = partialMatches heldFaulty
  ∧ nextMatches heldFaulted = nextMatches heldFaulty.
Proof.
  apply (flushUpTo_error_keeps_state heldFaulty heldFaulted 5 7%nat).
  reflexivity.
Defined.

(** ** Flushing twice *)

(** C9: when a Flush succeeded, a second Flush right after it returns no
    error and hands back the very state it was given: the sink, a field of
    that state, has received nothing more. *)
Theorem Flush_idempotent (r r1 : Redactor) :
  Flush r = Some (r1, None) →
  Flush r1 = Some (r1, None).
Proof.
  unfold Flush. intros H.
  assert (buf r1 = [] ∧ partialMatches r1 = []) as [Hb Hp].
  { unfold flushUpTo in H. simpl in H.
    repeat (case_bool_decide || case_match || simplify_option_eq);
      simpl; try done; try lia.
    split; [|done]. destruct (buf r); [done|]. unfold len in *. simpl in *. lia. }
  unfold flushUpTo. simpl. rewrite Hb. simpl.
  destruct r1; simpl in *; by subst.
Qed.

Lemma Flush_idempotent_witness : Flush drained = Some (drained, None).
Proof. apply (Flush_idempotent heldQuiet drained). reflexivity. Defined.

(** ** The count Write returns with an error *)

Lemma fold_limit_le (L : Z) (ps : list partialMatch) (l0 : Z) :
  fold_left (λ limit s,
               let t := L - matched s in
               if bool_decide (t < limit) then t else limit) ps l0 ≤ l0.
Proof.
  revert l0. induction ps as [|s ps IH]; intros l0; simpl; [lia|].
  case_bool_decide.
  - etrans; [apply IH|]. lia.
  - apply IH.
Qed.

Lemma flushLimit_le (r : Redactor) : flushLimit r ≤ len (buf r).
Proof. apply fold_limit_le. Qed.

Lemma absorb_buf (r r1 : Redactor) (b : list byte) :
  absorb r b = Some r1 → buf r1 = buf r ++ b.
Proof.
  unfold absorb. intros H. simplify_option_eq. simpl.
  match goal with H : scan ?r0 ?p ?n b = Some _ |- _ =>
    change (buf r ++ b) with (buf r0); revert H;
    generalize r0, p, n end.
  induction b as [|c b IH]; intros r0 p n H; simpl in H; [by simplify_eq|].
  simplify_option_eq. destruct (startMatches _ _ _ _) as [nx cm].
  by apply IH in H.
Qed.

(** The count returned with an error never exceeds the chunk. *)
Lemma Write_count_le (r r' : Redactor) (b : list byte) (n : Z) (e : error) :
  Write r b = Some (r', n, Some e) → n ≤ len b.
Proof.
  unfold Write. intros H. case_bool_decide; [by simplify_eq|].
  destruct (absorb r b) as [r1|] eqn:Ha; simpl in H; [|done].
  destruct (flushUpTo r1 _) as [[r2 [e'|]]|]; simpl in H; simplify_eq.
  pose proof (flushLimit_le r1) as Hl. apply absorb_buf in Ha.
  rewrite Ha in Hl. unfold len in *. rewrite length_app in Hl. lia.
Qed.

(** C3: with needles "abcX" and "bcdY", after Write("abc") the buffer holds
    three bytes; Write("d") then finds the flush limit 1, the sink faults,
    and the count returned is 1 - 3 = -2, below zero. *)
Theorem Write_count_negative :
  ∃ r0 r1,
    Write (New faulty REDACTED [bytes "abcX"; bytes "bcdY"]) (bytes "abc")
      = Some (r0, 3, None)
    ∧ Write r0 (bytes "d") = Some (r1, -2, Some 7%nat).
Proof.
  eexists _, _. split; vm_compute; reflexivity.
Qed.

(** ** Selecting the variables to redact *)

Section SelectionFacts.

Variable path_Match : string → string → option bool.

Lemma matchPatterns_keep (name val : string) (patterns : list string)
    (log : list warning) :
  (matchPatterns path_Match name val patterns log).2 = true
  ↔ matchesSome path_Match patterns name
    ∧ RedactLengthMin ≤ Z.of_nat (String.length val).
Proof.
  unfold matchesSome. revert log.
  induction patterns as [|p ps IH]; intros log; simpl.
  - split; [done|]. intros [(q & Hq & _) _]. by apply elem_of_nil in Hq.
  - destruct (path_Match p name) as [[]|] eqn:Hm.
    + case_bool_decide as Hlen.
      * rewrite IH. split; intros [_ ?]; lia.
      * simpl. split; [|done]. intros _. split; [|lia].
        exists p. split; [apply list_elem_of_here|done].
    + rewrite IH. split; intros [(q & Hq & Hq') ?]; (split; [|done]).
      * exists q. split; [by apply list_elem_of_further|done].
      * exists q. split; [|done].
        apply elem_of_cons in Hq as [->|]; [congruence|done].
    + rewrite IH. split; intros [(q & Hq & Hq') ?]; (split; [|done]).
      * exists q. split; [by apply list_elem_of_further|done].
      * exists q. split; [|done].
        apply elem_of_cons in Hq as [->|]; [congruence|done].
Qed.

Lemma matchPatterns_warns (name val : string) (patterns : list string)
    (log : list warning) (n : string) :
  BelowMinimum n ∈ (matchPatterns path_Match name val patterns log).1
  ↔ BelowMinimum n ∈ log
    ∨ (n = name ∧ matchesSome path_Match patterns name
       ∧ 0 < Z.of_nat (String.length val) < RedactLengthMin).
Proof.
  unfold matchesSome. revert log.
  induction patterns as [|p ps IH]; intros log; simpl.
  - split; [by left|]. intros [?|(_ & (q & Hq & _) & _)]; [done|].
    by apply elem_of_nil in Hq.
  - destruct (path_Match p name) as [[]|] eqn:Hm.
    + case_bool_decide as Hlen.
      * rewrite IH. case_bool_decide as Hpos.
        -- rewrite elem_of_app, list_elem_of_singleton. split.
           ++ intros [[?|?]|(-> & ? & ?)]; [by left| |].
              ** simplify_eq. right. split; [done|]. split; [|lia].
                 exists p. split; [apply list_elem_of_here|done].
              ** right. split; [done|]. split; [|done].
                 destruct H as (q & ? & ?). exists q.
                 split; [by apply list_elem_of_further|done].
           ++ intros [?|(-> & ? & ?)]; [by left; left|]. by left; right.
        -- split.
           ++ intros [?|(-> & ? & ?)]; [by left|lia].
           ++ intros [?|(-> & ? & ?)]; [by left|lia].
      * simpl. split; [by left|]. intros [?|(-> & ? & ?)]; [done|lia].
    + rewrite IH. split; (intros [?|(-> & (q & Hq & Hq') & ?)]; [by left|]);
        right; (split; [done|]); (split; [|done]); exists q.
      * split; [by apply list_elem_of_further|done].
      * split; [|done]. apply elem_of_cons in Hq as [->|]; [congruence|done].
    + rewrite IH, elem_of_app, list_elem_of_singleton.
      split; (intros [?|(-> & (q & Hq & Hq') & ?)]).
      * destruct H; [by left|done].
      * right. split; [done|]. split; [|done]. exists q.
        split; [by apply list_elem_of_further|done].
      * by left; left.
      * right. split; [done|]. split; [|done]. exists q.
        split; [|done]. apply elem_of_cons in Hq as [->|]; [congruence|done].
Qed.

(** C10: the map returned holds exactly the pairs of the environment whose
    name matches a pattern and whose value has at least RedactLengthMin
    bytes; a warning about a too short value is logged exactly for the
    matched variables whose value is not empty and too short. *)
Theorem VarsToRedact_exact (logger : list warning) (patterns : list string)
    (environment : gmap string string) :
  (∀ name val,
     (VarsToRedact path_Match logger patterns environment).2 !! name = Some val
     ↔ environment !! name = Some val
       ∧ matchesSome path_Match patterns name
       ∧ RedactLengthMin ≤ Z.of_nat (String.length val))
  ∧ (∀ name,
       BelowMinimum name ∈ (VarsToRedact path_Match logger patterns environment).1
       ↔ BelowMinimum name ∈ logger
         ∨ ∃ val, environment !! name = Some val
                  ∧ matchesSome path_Match patterns name
                  ∧ 0 < Z.of_nat (String.length val) < RedactLengthMin).
Proof.
  unfold VarsToRedact.
  apply (map_fold_weak_ind (λ acc env,
    (∀ name val, acc.2 !! name = Some val
       ↔ env !! name = Some val ∧ matchesSome path_Match patterns name
         ∧ RedactLengthMin ≤ Z.of_nat (String.length val))
    ∧ (∀ name, BelowMinimum name ∈ acc.1
         ↔ BelowMinimum name ∈ logger
           ∨ ∃ val, env !! name = Some val
                    ∧ matchesSome path_Match patterns name
                    ∧ 0 < Z.of_nat (String.length val) < RedactLengthMin))).
  - simpl. split.
    + intros name val. rewrite !lookup_empty. split; [done|]. by intros [? _].
    + intros name. split; [by left|]. intros [?|(val & Hv & _)]; [done|].
      by rewrite lookup_empty in Hv.
  - intros i x m [log vars] Hi [IHv IHw]. simpl in *.
    pose proof (matchPatterns_keep i x patterns log) as Hk.
    pose proof (λ n, matchPatterns_warns i x patterns log n) as Hw.
    destruct (matchPatterns path_Match i x patterns log) as [log' keep].
    simpl in *. split.
    + intros name val. destruct (decide (name = i)) as [->|Hne].
      * rewrite lookup_insert_eq. destruct keep.
        -- rewrite lookup_insert_eq. destruct Hk as [Hk _].
           split; [intros [= ->]; split; [done|by apply Hk]|by intros [[= ->] _]].
        -- split.
           ++ intros Hv. apply IHv in Hv as [Hv _]. congruence.
           ++ intros ([= ->] & ? & ?). destruct Hk as [_ Hk].
              discriminate Hk. done.
      * rewrite lookup_insert_ne by done. destruct keep.
        -- rewrite lookup_insert_ne by done. apply IHv.
        -- apply IHv.
    + intros name. rewrite Hw, IHw. split.
      * intros [[?|(val & Hv & ?)]|(-> & ? & ?)]; [by left| |].
        -- right. exists val. split; [|done].
           rewrite lookup_insert_ne; [done|]. intros ->. congruence.
        -- right. exists x. by rewrite lookup_insert_eq.
      * intros [?|(val & Hv & ? & ?)]; [by left; left|].
        destruct (decide (name = i)) as [->|Hne].
        -- rewrite lookup_insert_eq in Hv. simplify_eq. by right.
        -- rewrite lookup_insert_ne in Hv by done. left. right. by exists val.
Qed.

End SelectionFacts.

(** A matched variable with an empty value is dropped without a warning:
    the source logs only under [len(val) > 0]. *)
Lemma empty_value_skipped_silently :
  let environment : gmap string string := {[ "API_TOKEN"%string := ""%string ]} in
  environment !! "API_TOKEN"%string = Some ""%string
  ∧ matchesSome literal_Match ["API_TOKEN"%string] "API_TOKEN"%string
  ∧ Z.of_nat (String.length "") < RedactLengthMin
  ∧ VarsToRedact literal_Match [] ["API_TOKEN"%string] environment = ([], ∅).
Proof.
  simpl. split; [done|]. split.
  - exists "API_TOKEN"%string. split; [apply list_elem_of_here|done].
  - split; [done|]. unfold VarsToRedact. by rewrite map_fold_singleton.
Qed.

(** ** The range merger *)

Lemma mergeLoop_step (i j : nat) (rs : list subrange) (rj ri : subrange) :
  rs !! j = Some rj → rs !! i = Some ri →
  mergeLoop (S i) j rs =
    if overlap rj ri then mergeLoop i j (<[j := union rj ri]> rs)
    else mergeLoop i (j - 1)%nat (<[(j - 1)%nat := ri]> rs).
Proof. intros Hj Hi. simpl. rewrite Hj. simpl. rewrite Hi. done. Qed.

Lemma mergeLoop_mergeInto (pre junk : list subrange) (cur : subrange)
    (acc : list subrange) :
  ∃ j rs,
    mergeLoop (length pre) (length pre + length junk)%nat
      (pre ++ junk ++ cur :: acc) = Some (j, rs)
    ∧ drop j rs = mergeInto (reverse pre) cur acc.
Proof.
  revert junk cur acc.
  induction pre as [|x pre IH] using rev_ind; intros junk cur acc.
  - simpl. eexists _, _. split; [done|].
    by rewrite drop_app_length.
  - rewrite length_app, reverse_snoc.
    replace (length pre + length [x])%nat with (S (length pre)) by (simpl; lia).
    assert ((pre ++ [x]) ++ junk ++ cur :: acc
            = (pre ++ x :: junk) ++ cur :: acc) as Hrs.
    { by rewrite <- !app_assoc. }
    assert (length (pre ++ x :: junk) = (S (length pre) + length junk)%nat)
      as Hlen.
    { rewrite length_app. simpl. lia. }
    rewrite Hrs.
    rewrite (mergeLoop_step _ _ _ cur x); cycle 1.
    { by apply list_lookup_middle. }
    { rewrite <- app_assoc. by apply list_lookup_middle. }
    cbn [mergeInto]. destruct (overlap cur x).
    + destruct (IH (x :: junk) (union cur x) acc) as (j & rs & Hl & Hd).
      exists j, rs. split; [|done]. rewrite <- Hl.
      rewrite <- Hlen, <- (Nat.add_0_r (length (pre ++ x :: junk))).
      rewrite insert_app_r. cbn [insert list_insert].
      rewrite Nat.add_0_r, Hlen, <- app_assoc. f_equal. simpl. lia.
    + destruct junk as [|y junk _] using rev_ind.
      * destruct (IH [] x (cur :: acc)) as (j & rs & Hl & Hd).
        exists j, rs. split; [|done]. rewrite <- Hl.
        replace (S (length pre) + length (@nil subrange) - 1)%nat
          with (length pre + 0)%nat by (simpl; lia).
        rewrite <- app_assoc, insert_app_r. done.
      * destruct (IH (x :: junk) x (cur :: acc)) as (j & rs & Hl & Hd).
        exists j, rs. split; [|done]. rewrite <- Hl.
        replace (S (length pre) + length (junk ++ [y]) - 1)%nat
          with (length (pre ++ x :: junk) + 0)%nat
          by (rewrite !length_app; simpl; lia).
        replace ((pre ++ x :: junk ++ [y]) ++ cur :: acc)
          with ((pre ++ x :: junk) ++ y :: cur :: acc)
          by (rewrite <- !app_assoc; simpl; by rewrite <- app_assoc).
        rewrite insert_app_r. cbn [insert list_insert].
        rewrite Nat.add_0_r, <- app_assoc. f_equal.
        rewrite length_app. simpl. lia.
Qed.

(** mergeOverlaps never panics, and returns the list [merged]. *)
Lemma mergeOverlaps_merged (rs : list subrange) :
  mergeOverlaps rs = Some (merged rs).
Proof.
  unfold mergeOverlaps, merged.
  destruct rs as [|last pre _] using rev_ind; [done|].
  rewrite reverse_snoc. case_bool_decide as Hl.
  - unfold len in Hl. rewrite length_app in Hl. simpl in Hl.
    destruct pre; [done|]. simpl in Hl. lia.
  - rewrite length_app. simpl.
    replace (length pre + 1 - 1)%nat with (length pre + length (@nil subrange))%nat
      by (simpl; lia).
    destruct (mergeLoop_mergeInto pre [] last []) as (j & rs & Hm & Hd).
    simpl in Hm. replace (length pre + 0)%nat with (length pre) in * by lia.
    simpl. replace (length pre + 0)%nat with (length pre) in * by lia.
    rewrite Hm. simpl. by rewrite Hd.
Qed.

(** Case analysis on the integer comparisons of a goal. *)
Ltac zcases :=
  repeat match goal with
    | |- context [Z.leb ?a ?b] => destruct (Z.leb_spec a b)
    | |- context [Z.ltb ?a ?b] => destruct (Z.ltb_spec a b)
    | H : context [Z.leb ?a ?b] |- _ => destruct (Z.leb_spec a b)
    | H : context [Z.ltb ?a ?b] |- _ => destruct (Z.ltb_spec a b)
    | |- context [bool_decide ?P] => destruct (bool_decide_reflect P)
    | H : context [bool_decide ?P] |- _ => destruct (bool_decide_reflect P)
    end;
  simpl in *; try done; try lia.

Lemma union_contains (r s : subrange) (p : Z) :
  overlap r s = true →
  contains (union r s) p = contains r p || contains s p.
Proof. unfold overlap, union, contains. intros H. zcases. Qed.

Lemma union_joins (r s : subrange) (p : Z) :
  overlap r s = true →
  bool_decide (from (union r s) < p < to (union r s))
  = bool_decide (from r < p < to r) || bool_decide (from s < p < to s).
Proof. unfold overlap, union, contains. intros H. zcases. Qed.

Lemma covered_app (rs rs' : list subrange) (p : Z) :
  covered (rs ++ rs') p = covered rs p || covered rs' p.
Proof. apply existsb_app. Qed.

Lemma joined_app (rs rs' : list subrange) (p : Z) :
  joined (rs ++ rs') p = joined rs p || joined rs' p.
Proof. apply existsb_app. Qed.

Lemma covered_reverse (rs : list subrange) (p : Z) :
  covered (reverse rs) p = covered rs p.
Proof.
  induction rs as [|r rs IH]; [done|].
  rewrite reverse_cons, covered_app, IH. simpl. by destruct (contains r p), (covered rs p).
Qed.

Lemma joined_reverse (rs : list subrange) (p : Z) :
  joined (reverse rs) p = joined rs p.
Proof.
  induction rs as [|r rs IH]; [done|].
  rewrite reverse_cons, joined_app, IH. simpl.
  by destruct (bool_decide _), (joined rs p).
Qed.

Lemma covered_mergeInto (revs : list subrange) (cur : subrange)
    (acc : list subrange) (p : Z) :
  covered (mergeInto revs cur acc) p
  = contains cur p || covered revs p || covered acc p.
Proof.
  revert cur acc. induction revs as [|x revs IH]; intros cur acc; simpl.
  - by rewrite orb_false_r.
  - destruct (overlap cur x) eqn:Ho; rewrite IH.
    + rewrite union_contains by done.
      by destruct (contains cur p), (contains x p), (covered revs p).
    + simpl. by destruct (contains cur p), (contains x p), (covered revs p).
Qed.

Lemma joined_mergeInto (revs : list subrange) (cur : subrange)
    (acc : list subrange) (p : Z) :
  joined (mergeInto revs cur acc) p
  = bool_decide (from cur < p < to cur) || joined revs p || joined acc p.
Proof.
  revert cur acc. induction revs as [|x revs IH]; intros cur acc; simpl.
  - by rewrite orb_false_r.
  - destruct (overlap cur x) eqn:Ho; rewrite IH.
    + rewrite union_joins by done.
      by destruct (bool_decide (from cur < p < to cur)),
           (bool_decide (from x < p < to x)), (joined revs p).
    + simpl. by destruct (bool_decide (from cur < p < to cur)),
           (bool_decide (from x < p < to x)), (joined revs p).
Qed.

(** Merging changes neither the positions covered nor the places where a
    range holds two neighbouring positions. *)
Lemma covered_merged (rs : list subrange) (p : Z) :
  covered (merged rs) p = covered rs p.
Proof.
  unfold merged. rewrite <- (covered_reverse rs).
  destruct (reverse rs) as [|last revs]; [done|].
  rewrite covered_mergeInto. simpl. by rewrite orb_false_r.
Qed.

Lemma joined_merged (rs : list subrange) (p : Z) :
  joined (merged rs) p = joined rs p.
Proof.
  unfold merged. rewrite <- (joined_reverse rs).
  destruct (reverse rs) as [|last revs]; [done|].
  rewrite joined_mergeInto. simpl. by rewrite orb_false_r.
Qed.

Lemma descTo_mono (t t' : Z) (revs : list subrange) :
  t ≤ t' → descTo t revs → descTo t' revs.
Proof. destruct revs; simpl; [done|]. intros ? [? ?]. split; [lia|done]. Qed.

Lemma sortedByTo_snoc (pre : list subrange) (x : subrange) :
  sortedByTo (pre ++ [x]) →
  sortedByTo pre ∧ ∀ y, last pre = Some y → to y ≤ to x.
Proof.
  induction pre as [|r pre IH]; [done|].
  intros [Hh Ht]. fold sortedByTo in Ht. apply IH in Ht as [Hs Hl].
  split.
  - split; [|done]. destruct pre; [done|]. done.
  - intros y Hy. destruct pre as [|s pre]; simpl in *.
    + by simplify_eq.
    + by apply Hl.
Qed.

Lemma sortedByTo_descTo (rs : list subrange) (t : Z) :
  sortedByTo rs → (∀ y, last rs = Some y → to y ≤ t) →
  descTo t (reverse rs).
Proof.
  revert t. induction rs as [|x pre IH] using rev_ind; intros t Hs Ht; [done|].
  rewrite reverse_snoc. simpl. split.
  - apply Ht. by rewrite last_snoc.
  - apply sortedByTo_snoc in Hs as [Hs Hl]. by apply IH.
Qed.

Lemma mergeInto_chained (revs : list subrange) (cur : subrange)
    (acc : list subrange) :
  nonEmpty cur → Forall nonEmpty revs → Forall nonEmpty acc →
  chained (cur :: acc) → descTo (to cur) revs →
  chained (mergeInto revs cur acc) ∧ Forall nonEmpty (mergeInto revs cur acc).
Proof.
  revert cur acc.
  induction revs as [|x revs IH]; intros cur acc Hc Hr Ha Hch Hd; simpl.
  - split; [done|]. by constructor.
  - apply Forall_cons in Hr as [Hx Hr]. destruct Hd as [Hxt Hd].
    unfold nonEmpty in *. destruct (overlap cur x) eqn:Ho.
    + assert (to (union cur x) = to cur ∧ from (union cur x) < to cur)
        as [Ht Hf].
      { revert Ho. unfold overlap, contains, union. intros Ho. zcases. }
      apply IH; try done.
      * lia.
      * destruct Hch as [Hh Hch]. split; [|done].
        destruct acc; [done|]. lia.
      * rewrite Ht. by apply (descTo_mono (to x)).
    + apply IH; try done.
      * by constructor.
      * split; [|done]. revert Ho. unfold overlap, contains. intros Ho.
        zcases.
Qed.

(** On ranges that are not empty and come ordered by their end, the result
    is a chain of ranges that are not empty. *)
Lemma merged_chained (rs : list subrange) :
  Forall nonEmpty rs → sortedByTo rs →
  chained (merged rs) ∧ Forall nonEmpty (merged rs).
Proof.
  intros Hn Hs. unfold merged.
  destruct rs as [|lst pre _] using rev_ind; [done|].
  rewrite reverse_snoc. apply Forall_app in Hn as [Hpre Hlast].
  rewrite Forall_singleton in Hlast.
  apply sortedByTo_snoc in Hs as [Hs Hl].
  apply mergeInto_chained; try done.
  - by apply Forall_reverse.
  - by apply sortedByTo_descTo.
Qed.

Lemma chained_later (r : subrange) (rs : list subrange) :
  chained (r :: rs) → Forall nonEmpty rs → Forall (λ s, to r ≤ from s) rs.
Proof.
  revert r. induction rs as [|s rs IH]; intros r Hc Hn; [done|].
  destruct Hc as [Hrs Hc]. apply Forall_cons in Hn as [Hs Hn].
  constructor; [done|].
  eapply Forall_impl; [by apply IH|]. unfold nonEmpty in Hs.
  simpl. intros. lia.
Qed.

Lemma chained_lookup (rs : list subrange) (i j : nat) (ri rj : subrange) :
  chained rs → Forall nonEmpty rs → (i < j)%nat →
  rs !! i = Some ri → rs !! j = Some rj → to ri ≤ from rj.
Proof.
  revert i j. induction rs as [|r rs IH]; intros i j Hc Hn Hij Hi Hj; [done|].
  pose proof Hn as Hn'. apply Forall_cons in Hn' as [Hr Hrs].
  destruct i as [|i], j as [|j]; try lia; simpl in *.
  - simplify_eq. pose proof (chained_later _ _ Hc Hrs) as Hl.
    rewrite Forall_lookup in Hl. by apply (Hl j).
  - destruct Hc as [_ Hc]. apply (IH i j); try done. lia.
Qed.

Lemma chained_separated (rs : list subrange) :
  chained rs → Forall nonEmpty rs → separated rs.
Proof.
  intros Hc Hn i j ri rj Hij Hi Hj.
  assert (nonEmpty ri ∧ nonEmpty rj) as [Hni Hnj].
  { rewrite Forall_lookup in Hn. eauto. }
  unfold nonEmpty, overlap, contains in *.
  destruct (decide (i < j)%nat).
  - pose proof (chained_lookup rs i j ri rj Hc Hn ltac:(lia) Hi Hj). zcases.
  - pose proof (chained_lookup rs j i rj ri Hc Hn ltac:(lia) Hj Hi). zcases.
Qed.

Lemma chained_sortedByTo (rs : list subrange) :
  chained rs → Forall nonEmpty rs → sortedByTo rs.
Proof.
  induction rs as [|r rs IH]; [done|].
  intros [Hh Hc] Hn. apply Forall_cons in Hn as [Hr Hn].
  split; [|by apply IH]. destruct rs as [|s rs]; [done|].
  apply Forall_cons in Hn as [Hs _]. unfold nonEmpty in *. lia.
Qed.

(** In a chain a range never holds the start of another one together with
    the position before it. *)
Lemma chained_start_not_joined (rs : list subrange) (r : subrange) :
  chained rs → Forall nonEmpty rs → r ∈ rs → joined rs (from r) = false.
Proof.
  intros Hc Hn Hr. apply not_true_is_false. intros Hj.
  apply existsb_exists in Hj as (s & Hs & Hlt).
  apply list_elem_of_In in Hs.
  apply list_elem_of_lookup in Hr as [i Hi].
  apply list_elem_of_lookup in Hs as [j Hj].
  apply bool_decide_eq_true in Hlt.
  assert (nonEmpty r ∧ nonEmpty s) as [Hnr Hns].
  { rewrite Forall_lookup in Hn. eauto. }
  unfold nonEmpty in *.
  destruct (decide (i = j)) as [->|Hne]; [simplify_eq; lia|].
  destruct (decide (i < j)%nat).
  - pose proof (chained_lookup rs i j r s Hc Hn ltac:(lia) Hi Hj). lia.
  - pose proof (chained_lookup rs j i s r Hc Hn ltac:(lia) Hj Hi). lia.
Qed.

Lemma merged_fewest (rs : list subrange) :
  Forall nonEmpty rs → sortedByTo rs → fewestKeepingApart rs (merged rs).
Proof.
  intros Hn Hs rs' Hcov Hjoin.
  destruct (merged_chained rs Hn Hs) as [Hc Hne].
  rewrite <- (length_fmap from (merged rs)), <- (length_fmap from rs').
  apply submseteq_length, NoDup_submseteq.
  - apply NoDup_alt. intros i j f Hi Hj.
    rewrite list_lookup_fmap in Hi, Hj.
    destruct (merged rs !! i) as [ri|] eqn:Hri; [|done].
    destruct (merged rs !! j) as [rj|] eqn:Hrj; [|done].
    simpl in *. simplify_eq.
    assert (nonEmpty ri ∧ nonEmpty rj) as [Hni Hnj].
    { rewrite Forall_lookup in Hne. eauto. }
    unfold nonEmpty in *.
    destruct (decide (i = j)) as [|Hne']; [done|]. exfalso.
    destruct (decide (i < j)%nat).
    + pose proof (chained_lookup _ i j ri rj Hc Hne ltac:(lia) Hri Hrj). lia.
    + pose proof (chained_lookup _ j i rj ri Hc Hne ltac:(lia) Hrj Hri). lia.
  - intros f Hf. apply list_elem_of_fmap in Hf as (o & -> & Ho).
    assert (covered rs' (from o) = true) as Hcv.
    { rewrite <- Hcov, <- covered_merged. apply existsb_exists.
      exists o. split; [by apply list_elem_of_In|].
      assert (nonEmpty o) as Hno by (rewrite Forall_forall in Hne; eauto).
      unfold nonEmpty, contains in *. zcases. }
    apply existsb_exists in Hcv as (r' & Hr' & Hin).
    apply list_elem_of_In in Hr'.
    apply list_elem_of_fmap. exists r'. split; [|done].
    destruct (decide (from r' = from o)) as [|Hne']; [done|]. exfalso.
    assert (joined rs' (from o) = true) as Hj.
    { apply existsb_exists. exists r'. split; [by apply list_elem_of_In|].
      unfold contains in Hin. zcases. }
    apply Hjoin in Hj. rewrite <- joined_merged in Hj.
    by rewrite chained_start_not_joined in Hj.
Qed.

(** C5: on ranges that are not empty and come in non-decreasing order of
    their end, mergeOverlaps returns pairwise non-overlapping ranges, none
    of them empty, each ending before the next starts, that cover the same
    positions and hold together the same neighbouring positions: two
    ranges that only touch are not merged. No list covering these
    positions is shorter unless it bridges two positions that no range of
    the input holds together. *)
Theorem mergeOverlaps_correct (rs : list subrange) :
  Forall nonEmpty rs → sortedByTo rs →
  ∃ out,
    mergeOverlaps rs = Some out
    ∧ separated out
    ∧ Forall nonEmpty out
    ∧ chained out ∧ sortedByTo out
    ∧ sameCover rs out
    ∧ sameJoins rs out
    ∧ fewestKeepingApart rs out.
Proof.
  intros Hn Hs. exists (merged rs).
  destruct (merged_chained rs Hn Hs) as [Hc Hne].
  split; [apply mergeOverlaps_merged|].
  split; [by apply chained_separated|].
  split; [done|].
  split; [done|].
  split; [by apply chained_sortedByTo|].
  split; [intros p; by rewrite covered_merged|].
  split; [intros p; by rewrite joined_merged|].
  by apply merged_fewest.
Qed.

Lemma mergeOverlaps_correct_witness :
  ∃ out,
    mergeOverlaps [mkRange 2 8; mkRange 4 10; mkRange 10 12] = Some out
    ∧ separated out
    ∧ Forall nonEmpty out
    ∧ chained out ∧ sortedByTo out
    ∧ sameCover [mkRange 2 8; mkRange 4 10; mkRange 10 12] out
    ∧ sameJoins [mkRange 2 8; mkRange 4 10; mkRange 10 12] out
    ∧ fewestKeepingApart [mkRange 2 8; mkRange 4 10; mkRange 10 12] out.
Proof.
  apply (mergeOverlaps_correct [mkRange 2 8; mkRange 4 10; mkRange 10 12]).
  - repeat constructor.
  - simpl. lia.
Defined.

(** Two ranges that touch are left as two ranges, although the single range
    over both is a pairwise non-overlapping list covering the same
    positions. *)
Lemma touching_ranges_stay_apart :
  let rs := [mkRange 0 3; mkRange 3 6] in
  Forall nonEmpty rs ∧ sortedByTo rs
  ∧ mergeOverlaps rs = Some rs
  ∧ ¬ fewestRanges rs.
Proof.
  simpl. split; [repeat constructor|]. split; [lia|]. split; [done|].
  intros Hf. specialize (Hf [mkRange 0 6]). simpl in Hf.
  assert (2 ≤ 1)%nat; [|lia]. apply Hf.
  - intros [|[|i]] [|[|j]] ri rj Hij Hi Hj; simplify_eq; done.
  - intros p. unfold covered, contains. simpl. zcases.
Qed.

(** ** The match tracker *)

Lemma index_Some {A} (l : list A) (i : Z) :
  0 ≤ i < len l → ∃ x, index l i = Some x.
Proof.
  intros Hi. unfold index, len in *. rewrite bool_decide_true by lia.
  apply lookup_lt_is_Some. lia.
Qed.

Lemma kept_cons (c : byte) (s : partialMatch) (ps : list partialMatch) :
  kept c (s :: ps)
  = (if takes c s && bool_decide (matched s + 1 < len (needle s))
     then [mkPartial (needle s) (matched s + 1)] else []) ++ kept c ps.
Proof. unfold kept. simpl. by destruct (_ && _). Qed.

Lemma completed_cons (c : byte) (pos : Z) (s : partialMatch)
    (ps : list partialMatch) :
  completed c pos (s :: ps)
  = (if takes c s && negb (bool_decide (matched s + 1 < len (needle s)))
     then [mkRange (pos - len (needle s) + 1) (pos + 1)] else [])
    ++ completed c pos ps.
Proof. unfold completed. simpl. by destruct (_ && _). Qed.

Lemma advanceMatches_spec (c : byte) (pos : Z) (ps next : list partialMatch)
    (cm : list subrange) :
  Forall validPartial ps →
  advanceMatches c pos ps next cm
  = Some (next ++ kept c ps, cm ++ completed c pos ps).
Proof.
  revert next cm. induction ps as [|s ps IH]; intros next cm Hv.
  - simpl. by rewrite !app_nil_r.
  - apply Forall_cons in Hv as [Hs Hv]. unfold validPartial in Hs.
    destruct (index_Some (needle s) (matched s) ltac:(lia)) as [x Hx].
    cbn [advanceMatches].
    rewrite Hx, kept_cons, completed_cons. simpl. unfold takes. rewrite Hx.
    destruct (decide (c = x)) as [->|Hne].
    + rewrite (bool_decide_true (x = x)) by done.
      rewrite (bool_decide_true (Some x = Some x)) by done. simpl.
      case_bool_decide; simpl; rewrite IH by done; by rewrite <- app_assoc.
    + rewrite bool_decide_false by done.
      rewrite (bool_decide_false (Some x = Some c)) by congruence.
      simpl. by apply IH.
Qed.

Lemma startMatches_spec (pos : Z) (ss : list (list byte))
    (next : list partialMatch) (cm : list subrange) :
  startMatches pos ss next cm = (next ++ started ss, cm ++ singles pos ss).
Proof.
  revert next cm. induction ss as [|s ss IH]; intros next cm; simpl.
  - by rewrite !app_nil_r.
  - unfold started, singles. simpl. case_bool_decide; rewrite IH.
    + by rewrite <- app_assoc.
    + by rewrite <- app_assoc.
Qed.

Lemma validIndex_nonEmpty (idx : byte → list (list byte)) (c : byte)
    (s : list byte) :
  validIndex idx → s ∈ idx c → s ≠ [].
Proof. intros Hi Hs ->. by apply Hi in Hs. Qed.

Lemma kept_valid (c : byte) (ps : list partialMatch) :
  Forall validPartial ps → Forall validPartial (kept c ps).
Proof.
  intros Hv. apply Forall_forall. intros s' Hs'.
  apply list_elem_of_omap in Hs' as (s & Hs & Heq).
  rewrite Forall_forall in Hv. specialize (Hv s Hs).
  unfold validPartial in *.
  destruct (takes c s); simpl in Heq; [|done].
  case_bool_decide; simplify_eq. simpl. lia.
Qed.

Lemma started_valid (ss : list (list byte)) :
  (∀ s, s ∈ ss → s ≠ []) → Forall validPartial (started ss).
Proof.
  intros Hne. apply Forall_forall. intros s' Hs'.
  apply list_elem_of_omap in Hs' as (s & Hs & Heq).
  case_bool_decide as Hl; simplify_eq. unfold validPartial. simpl.
  specialize (Hne s Hs). unfold len in *. destruct s as [|? [|? ?]]; simpl in *;
    try done; lia.
Qed.

Lemma scanned_valid (idx : byte → list (list byte)) (pos : Z) (b : list byte)
    (ps : list partialMatch) :
  validIndex idx → Forall validPartial ps →
  Forall validPartial (scanned idx pos b ps).1.
Proof.
  intros Hi. revert pos ps. induction b as [|c b IH]; intros pos ps Hv; [done|].
  simpl. apply IH. apply Forall_app. split.
  - by apply kept_valid.
  - apply started_valid. intros s Hs. by eapply validIndex_nonEmpty.
Qed.

(** The loop of Write over the chunk never panics on valid partial matches,
    and leaves what [scanned] computes. *)
Lemma scan_spec (r : Redactor) (prev n : Z) (b : list byte) :
  nextMatches r = [] → validIndex (needlesByFirstByte r) →
  Forall validPartial (partialMatches r) →
  scan r prev n b
  = Some (mkRedactor (subst r) (needlesByFirstByte r) (dst r) (buf r)
            (scanned (needlesByFirstByte r) (n + prev) b (partialMatches r)).1
            []
            (completedMatches r
               ++ (scanned (needlesByFirstByte r) (n + prev) b
                     (partialMatches r)).2)).
Proof.
  revert r n. induction b as [|c b IH]; intros r n Hn Hi Hv; simpl.
  - rewrite app_nil_r. destruct r; simpl in *; by subst.
  - rewrite advanceMatches_spec by done. simpl.
    rewrite startMatches_spec. rewrite Hn. simpl.
    rewrite IH; simpl; try done.
    + replace (n + 1 + prev) with (n + prev + 1) by lia.
      by rewrite <- !app_assoc.
    + apply Forall_app. split; [by apply kept_valid|].
      apply started_valid. intros s Hs. by eapply validIndex_nonEmpty.
Qed.

Lemma singles_cons (pos : Z) (s : list byte) (ss : list (list byte)) :
  singles pos (s :: ss)
  = (if bool_decide (len s = 1) then [mkRange pos (pos + 1)] else [])
    ++ singles pos ss.
Proof. unfold singles. simpl. by case_bool_decide. Qed.

Lemma completed_shift (c : byte) (pos k : Z) (ps : list partialMatch) :
  completed c (pos - k) ps = (λ m, sub m k) <$> completed c pos ps.
Proof.
  induction ps as [|s ps IH]; [done|].
  rewrite !completed_cons, fmap_app, IH. f_equal.
  destruct (_ && _); [|done]. unfold sub. simpl. f_equal. f_equal; lia.
Qed.

Lemma singles_shift (pos k : Z) (ss : list (list byte)) :
  singles (pos - k) ss = (λ m, sub m k) <$> singles pos ss.
Proof.
  induction ss as [|s ss IH]; [done|].
  rewrite !singles_cons, fmap_app, IH. f_equal.
  case_bool_decide; [|done]. unfold sub. simpl. f_equal. f_equal; lia.
Qed.

(** Scanning at another position finds the same ranges, shifted. *)
Lemma scanned_shift (idx : byte → list (list byte)) (pos k : Z)
    (b : list byte) (ps : list partialMatch) :
  scanned idx (pos - k) b ps
  = ((scanned idx pos b ps).1, (λ m, sub m k) <$> (scanned idx pos b ps).2).
Proof.
  revert pos ps. induction b as [|c b IH]; intros pos ps; [done|].
  simpl. replace (pos - k + 1) with (pos + 1 - k) by lia.
  rewrite IH. simpl. f_equal.
  by rewrite !fmap_app, completed_shift, singles_shift.
Qed.

Lemma scanned_app (idx : byte → list (list byte)) (pos : Z)
    (b1 b2 : list byte) (ps : list partialMatch) :
  scanned idx pos (b1 ++ b2) ps
  = ((scanned idx (pos + len b1) b2 (scanned idx pos b1 ps).1).1,
     (scanned idx pos b1 ps).2
       ++ (scanned idx (pos + len b1) b2 (scanned idx pos b1 ps).1).2).
Proof.
  revert pos ps. induction b1 as [|c b1 IH]; intros pos ps.
  - simpl. unfold len. simpl. rewrite Z.add_0_r. by destruct (scanned _ _ _ _).
  - simpl. rewrite IH. simpl.
    replace (pos + 1 + len b1) with (pos + len (c :: b1))
      by (unfold len; simpl; lia).
    by rewrite <- !app_assoc.
Qed.

Lemma covered_sub (rs : list subrange) (k p : Z) :
  covered ((λ m, sub m k) <$> rs) p = covered rs (p + k).
Proof.
  induction rs as [|r rs IH]; [done|]. rewrite fmap_cons.
  change (covered (sub r k :: ((λ m, sub m k) <$> rs)) p)
    with (contains (sub r k) p || covered ((λ m, sub m k) <$> rs) p).
  rewrite IH. simpl. f_equal. unfold contains, sub. simpl. zcases.
Qed.

Lemma joined_sub (rs : list subrange) (k p : Z) :
  joined ((λ m, sub m k) <$> rs) p = joined rs (p + k).
Proof.
  induction rs as [|r rs IH]; [done|]. rewrite fmap_cons.
  change (joined (sub r k :: ((λ m, sub m k) <$> rs)) p)
    with (bool_decide (from (sub r k) < p < to (sub r k))
          || joined ((λ m, sub m k) <$> rs) p).
  rewrite IH. simpl. f_equal. zcases.
Qed.

(** Where the ranges found by a scan lie: each ends after the position the
    scan started at and within the bytes scanned, and starts either where a
    partial match alive before the scan started, or within the scan. *)
Lemma completed_spec (c : byte) (pos : Z) (ps : list partialMatch) (x : subrange) :
  Forall validPartial ps → x ∈ completed c pos ps →
  to x = pos + 1 ∧ ∃ s, s ∈ ps ∧ from x = pos - matched s.
Proof.
  intros Hv Hx. apply list_elem_of_omap in Hx as (s & Hs & Heq).
  rewrite Forall_forall in Hv. specialize (Hv s Hs). unfold validPartial in Hv.
  destruct (takes c s); simpl in Heq; [|done].
  case_bool_decide; simpl in Heq; simplify_eq. simpl.
  split; [done|]. exists s. split; [done|]. lia.
Qed.

Lemma singles_spec (pos : Z) (ss : list (list byte)) (x : subrange) :
  x ∈ singles pos ss → x = mkRange pos (pos + 1).
Proof.
  intros Hx. apply list_elem_of_omap in Hx as (s & Hs & Heq).
  case_bool_decide; by simplify_eq.
Qed.

Lemma kept_spec (c : byte) (ps : list partialMatch) (s' : partialMatch) :
  s' ∈ kept c ps → ∃ s, s ∈ ps ∧ matched s' = matched s + 1
                        ∧ needle s' = needle s ∧ takes c s = true.
Proof.
  intros Hs'. apply list_elem_of_omap in Hs' as (s & Hs & Heq).
  destruct (takes c s) eqn:Ht; simpl in Heq; [|done].
  case_bool_decide; simplify_eq. by exists s.
Qed.

Lemma started_spec (ss : list (list byte)) (s' : partialMatch) :
  s' ∈ started ss → matched s' = 1 ∧ needle s' ∈ ss.
Proof.
  intros Hs'. apply list_elem_of_omap in Hs' as (s & Hs & Heq).
  case_bool_decide; by simplify_eq.
Qed.

Lemma scanned_ranges (idx : byte → list (list byte)) (pos : Z) (b : list byte)
    (ps : list partialMatch) (x : subrange) :
  validIndex idx → Forall validPartial ps → x ∈ (scanned idx pos b ps).2 →
  from x < to x ∧ pos < to x ≤ pos + len b
  ∧ ((∃ s, s ∈ ps ∧ from x = pos - matched s) ∨ pos ≤ from x).
Proof.
  intros Hi. revert pos ps.
  induction b as [|c b IH]; intros pos ps Hv Hx; simpl in Hx.
  - by apply elem_of_nil in Hx.
  - assert (len (c :: b) = len b + 1) as -> by (unfold len; simpl; lia).
    rewrite !elem_of_app in Hx. destruct Hx as [Hx|[Hx|Hx]].
    + pose proof (len_nonneg := Zle_0_nat (length b)). fold (len b) in len_nonneg.
      destruct (completed_spec _ _ _ _ Hv Hx) as (Ht & s & Hs & Hf).
      rewrite Forall_forall in Hv. specialize (Hv s Hs).
      unfold validPartial in Hv. split; [lia|]. split; [lia|].
      left. by exists s.
    + apply singles_spec in Hx as ->. simpl.
      pose proof (Zle_0_nat (length b)). unfold len. lia.
    + apply IH in Hx as (Hne & Hto & Hfrom).
      * split; [done|]. split; [lia|].
        destruct Hfrom as [(s' & Hs' & Hf)|Hf]; [|right; lia].
        apply elem_of_app in Hs' as [Hs'|Hs'].
        -- apply kept_spec in Hs' as (s & Hs & Hm & _). left. exists s.
           split; [done|]. lia.
        -- apply started_spec in Hs' as [Hm _]. right. lia.
      * apply Forall_app. split; [by apply kept_valid|].
        apply started_valid. intros s Hs. by eapply validIndex_nonEmpty.
Qed.

(** Where the partial matches alive after a scan started. *)
Lemma scanned_starts (idx : byte → list (list byte)) (pos : Z) (b : list byte)
    (ps : list partialMatch) (s' : partialMatch) :
  s' ∈ (scanned idx pos b ps).1 →
  (∃ s, s ∈ ps ∧ matched s' = matched s + len b) ∨ matched s' ≤ len b.
Proof.
  revert pos ps. induction b as [|c b IH]; intros pos ps Hs'; simpl in Hs'.
  - left. exists s'. split; [done|]. unfold len. simpl. lia.
  - assert (len (c :: b) = len b + 1) as -> by (unfold len; simpl; lia).
    apply IH in Hs' as [(s1 & Hs1 & Hm)|Hm]; [|right; lia].
    apply elem_of_app in Hs1 as [Hs1|Hs1].
    + apply kept_spec in Hs1 as (s & Hs & Hm' & _). left. exists s.
      split; [done|]. lia.
    + apply started_spec in Hs1 as [Hm' _]. right. lia.
Qed.

(** The ranges found by a scan come in the order of their end. *)
Lemma sortedByTo_app (rs rs' : list subrange) (t : Z) :
  sortedByTo rs → sortedByTo rs' →
  Forall (λ x, to x ≤ t) rs → Forall (λ x, t ≤ to x) rs' →
  sortedByTo (rs ++ rs').
Proof.
  intros Hs Hs' Hle Hge. induction rs as [|r rs IH]; [done|].
  apply Forall_cons in Hle as [Hr Hle]. destruct Hs as [Hh Hs].
  split; [|by apply IH]. simpl. destruct rs as [|s rs]; [|done].
  simpl. destruct rs' as [|s' rs']; [done|].
  apply Forall_cons in Hge as [Hs'' _]. lia.
Qed.

Lemma scanned_sorted (idx : byte → list (list byte)) (pos : Z) (b : list byte)
    (ps : list partialMatch) :
  Forall validPartial ps → validIndex idx →
  sortedByTo (scanned idx pos b ps).2.
Proof.
  intros Hv Hi. revert pos ps Hv.
  induction b as [|c b IH]; intros pos ps Hv; [done|]. simpl.
  assert (Forall validPartial (kept c ps ++ started (idx c))) as Hv'.
  { apply Forall_app. split; [by apply kept_valid|].
    apply started_valid. intros s Hs. by eapply validIndex_nonEmpty. }
  assert (∀ l : list subrange, Forall (λ x, to x = pos + 1) l → sortedByTo l)
    as Hconst.
  { induction l as [|x l IHl]; [done|]. intros Hl.
    apply Forall_cons in Hl as [Hx Hl]. split; [|by apply IHl].
    destruct l as [|y l]; [done|]. apply Forall_cons in Hl as [Hy _]. lia. }
  rewrite app_assoc. apply (sortedByTo_app _ _ (pos + 1)).
  - apply Hconst. apply Forall_app. split; apply Forall_forall; intros x Hx.
    + by destruct (completed_spec _ _ _ _ Hv Hx).
    + by apply singles_spec in Hx as ->.
  - by apply IH.
  - apply Forall_app. split; apply Forall_forall; intros x Hx.
    + destruct (completed_spec _ _ _ _ Hv Hx). lia.
    + apply singles_spec in Hx as ->. simpl. lia.
  - apply Forall_forall. intros x Hx.
    apply scanned_ranges in Hx; [lia|done..].
Qed.

(** ** The redacted stream, piece by piece *)

Lemma pieces_nil (sb w : list byte) (rs : list subrange) (lo hi : Z) :
  hi ≤ lo → pieces sb w rs lo hi = [].
Proof. intros H. unfold pieces. by rewrite seqZ_nil by lia. Qed.

Lemma pieces_cons (sb w : list byte) (rs : list subrange) (lo hi : Z) :
  lo < hi → pieces sb w rs lo hi = piece sb w rs lo ++ pieces sb w rs (lo + 1) hi.
Proof.
  intros H. unfold pieces. rewrite seqZ_cons by lia.
  rewrite fmap_cons. cbn [concat].
  replace (Z.succ lo) with (lo + 1) by lia.
  by replace (Z.pred (hi - lo)) with (hi - (lo + 1)) by lia.
Qed.

Lemma pieces_split (sb w : list byte) (rs : list subrange) (lo mid hi : Z) :
  lo ≤ mid ≤ hi →
  pieces sb w rs lo hi = pieces sb w rs lo mid ++ pieces sb w rs mid hi.
Proof.
  intros H. unfold pieces.
  replace (hi - lo) with ((mid - lo) + (hi - mid)) by lia.
  rewrite seqZ_app by lia. rewrite fmap_app, concat_app.
  by replace (lo + (mid - lo)) with mid by lia.
Qed.

(** Induction over the positions of an interval. *)
Lemma interval_ind (P : Z → Z → Prop) :
  (∀ lo hi, hi ≤ lo → P lo hi) →
  (∀ lo hi, lo < hi → P (lo + 1) hi → P lo hi) →
  ∀ lo hi, P lo hi.
Proof.
  intros Hnil Hcons lo hi.
  remember (Z.to_nat (hi - lo)) as n eqn:Hn. revert lo Hn.
  induction n as [|n IH]; intros lo Hn.
  - apply Hnil. lia.
  - apply Hcons; [lia|]. apply IH. lia.
Qed.

Lemma pieces_ext (sb w w' : list byte) (rs rs' : list subrange) (k lo hi : Z) :
  (∀ p, lo ≤ p < hi → piece sb w rs p = piece sb w' rs' (p + k)) →
  pieces sb w rs lo hi = pieces sb w' rs' (lo + k) (hi + k).
Proof.
  revert lo hi. apply (interval_ind (λ lo hi, _ → _)).
  - intros lo hi Hle _. by rewrite !pieces_nil by lia.
  - intros lo hi Hlt IH Hp. rewrite !(pieces_cons _ _ _ lo) by lia.
    rewrite (pieces_cons _ _ _ (lo + k)) by lia.
    rewrite Hp by lia. f_equal.
    replace (lo + k + 1) with (lo + 1 + k) by lia.
    apply IH. intros p Hr. apply Hp. lia.
Qed.

Lemma pieces_hidden (sb w : list byte) (rs : list subrange) (lo hi : Z) :
  (∀ p, lo ≤ p < hi → covered rs p = true ∧ joined rs p = true) →
  pieces sb w rs lo hi = [].
Proof.
  revert lo hi. apply (interval_ind (λ lo hi, _ → _)).
  - intros lo hi Hle _. by rewrite pieces_nil.
  - intros lo hi Hlt IH Hp. rewrite pieces_cons by done.
    rewrite IH by (intros p Hr; apply Hp; lia).
    unfold piece. destruct (Hp lo ltac:(lia)) as [-> ->]. done.
Qed.

Lemma pieces_marker (sb w : list byte) (rs : list subrange) (lo hi : Z) :
  lo < hi → covered rs lo = true → joined rs lo = false →
  (∀ p, lo < p < hi → covered rs p = true ∧ joined rs p = true) →
  pieces sb w rs lo hi = sb.
Proof.
  intros Hlt Hc Hj Hp. rewrite pieces_cons by done.
  rewrite pieces_hidden by (intros p Hr; apply Hp; lia).
  unfold piece. rewrite Hc, Hj. by rewrite app_nil_r.
Qed.

Lemma pieces_passthrough (sb w : list byte) (rs : list subrange) (lo hi : Z) :
  0 ≤ lo → hi ≤ len w →
  (∀ p, lo ≤ p < hi → covered rs p = false) →
  pieces sb w rs lo hi = take (Z.to_nat (hi - lo)) (drop (Z.to_nat lo) w).
Proof.
  revert lo hi. apply (interval_ind (λ lo hi, _ → _ → _ → _)).
  - intros lo hi Hle _ _ _. rewrite pieces_nil by done.
    replace (Z.to_nat (hi - lo)) with 0%nat by lia. done.
  - intros lo hi Hlt IH H0 Hhi Hp. rewrite pieces_cons by done.
    rewrite IH by (try lia; intros p Hr; apply Hp; lia).
    unfold piece. rewrite Hp by lia.
    destruct (index_Some w lo ltac:(lia)) as [c Hc]. rewrite Hc.
    unfold index in Hc. rewrite bool_decide_true in Hc by lia.
    rewrite (drop_S _ _ _ Hc).
    replace (Z.to_nat (hi - lo)) with (S (Z.to_nat (hi - (lo + 1)))) by lia.
    simpl. do 2 f_equal. f_equal. lia.
Qed.

(** ** The flush engine in front of a sink that accepts every write *)

Lemma covered_none (rs : list subrange) (p : Z) :
  Forall (λ r, p < from r ∨ to r ≤ p) rs → covered rs p = false.
Proof.
  induction 1 as [|r rs Hr _ IH]; [done|]. simpl. rewrite IH.
  unfold contains. zcases.
Qed.

Lemma joined_none (rs : list subrange) (p : Z) :
  Forall (λ r, p ≤ from r ∨ to r ≤ p) rs → joined rs p = false.
Proof.
  induction 1 as [|r rs Hr _ IH]; [done|]. simpl. rewrite IH. zcases.
Qed.

Lemma covered_in (r : subrange) (rs : list subrange) (p : Z) :
  r ∈ rs → from r ≤ p < to r → covered rs p = true.
Proof.
  intros Hr Hp. apply existsb_exists. exists r.
  split; [by apply list_elem_of_In|]. unfold contains. zcases.
Qed.

Lemma joined_in (r : subrange) (rs : list subrange) (p : Z) :
  r ∈ rs → from r < p < to r → joined rs p = true.
Proof.
  intros Hr Hp. apply existsb_exists. exists r.
  split; [by apply list_elem_of_In|]. by apply bool_decide_eq_true.
Qed.

Lemma sink_Write_quiet (d : Sink) (p : list byte) :
  script d = [] → sink_Write d p = (mkSink (received d ++ p) [], None).
Proof. intros H. unfold sink_Write. by rewrite H. Qed.

Lemma slice_Some {A} (l : list A) (lo hi : Z) :
  0 ≤ lo → lo ≤ hi → hi ≤ len l →
  slice l lo hi = Some (take (Z.to_nat (hi - lo)) (drop (Z.to_nat lo) l)).
Proof. intros. unfold slice. by rewrite bool_decide_true. Qed.

Lemma slice_from_Some {A} (l : list A) (lo : Z) :
  0 ≤ lo ≤ len l → slice_from l lo = Some (drop (Z.to_nat lo) l).
Proof.
  intros. unfold slice_from. rewrite slice_Some by lia. f_equal.
  apply take_ge. rewrite length_drop. unfold len. lia.
Qed.

Lemma pendingRange_nonEmpty (n : Z) (ms : list subrange) :
  Forall (pendingRange n) ms → Forall nonEmpty ms.
Proof. intros H. eapply Forall_impl; [done|]. by intros m [? _]. Qed.

Lemma sweep_ge (limit : Z) (ms : list subrange) (b : Z) :
  chained ms → Forall nonEmpty ms → Forall (λ m, b < to m) ms →
  b ≤ (sweep limit ms b).1.
Proof.
  revert b. induction ms as [|m ms IH]; intros b Hc Hn Hb; simpl; [lia|].
  case_bool_decide; simpl; [lia|].
  apply Forall_cons in Hb as [Hm Hb]. pose proof Hn as Hn'.
  apply Forall_cons in Hn' as [Hnm Hns].
  pose proof (chained_later _ _ Hc Hns) as Hl. destruct Hc as [_ Hc].
  etrans; [|apply IH; try done].
  - lia.
  - rewrite Forall_forall in Hl, Hns. apply Forall_forall. intros s Hs.
    specialize (Hl s Hs). specialize (Hns s Hs). unfold nonEmpty in Hns. lia.
Qed.

Lemma chained_tail_after (m : subrange) (ms : list subrange) :
  chained (m :: ms) → Forall nonEmpty (m :: ms) →
  Forall (λ s, to m ≤ from s ∧ to m < to s) ms.
Proof.
  intros Hc Hn. apply Forall_cons in Hn as [_ Hns].
  pose proof (chained_later _ _ Hc Hns) as Hl.
  rewrite Forall_forall in Hl, Hns. apply Forall_forall. intros s Hs.
  specialize (Hl s Hs). specialize (Hns s Hs). unfold nonEmpty in Hns. lia.
Qed.

(** What the loop leaves behind: the ranges processed end at or before the
    cursor, the ranges left start at or after the limit and end after the
    cursor, and the cursor either did not move or is the end of a range
    that starts before the limit. *)
Lemma sweep_spec (limit : Z) (ms : list subrange) (b : Z) :
  chained ms → Forall nonEmpty ms → Forall (λ m, b < to m) ms →
  ((sweep limit ms b).2 ≤ length ms)%nat
  ∧ Forall (λ m, to m ≤ (sweep limit ms b).1) (take (sweep limit ms b).2 ms)
  ∧ Forall (λ m, limit ≤ from m ∧ (sweep limit ms b).1 < to m)
      (drop (sweep limit ms b).2 ms)
  ∧ ((sweep limit ms b).1 = b
     ∨ ∃ m, m ∈ ms ∧ from m < limit ∧ to m = (sweep limit ms b).1).
Proof.
  revert b. induction ms as [|m ms IH]; intros b Hc Hn Hb.
  - simpl. repeat split; try done. by left.
  - pose proof (chained_tail_after _ _ Hc Hn) as Hl.
    cbn [sweep]. case_bool_decide as Hlim; cbn [fst snd].
    + split; [simpl; lia|]. split; [done|]. split; [|by left].
      cbn [drop]. apply Forall_cons in Hb as [Hm Hb]. constructor; [done|].
      apply Forall_cons in Hn as [Hnm _]. unfold nonEmpty in Hnm.
      rewrite Forall_forall in Hl, Hb. apply Forall_forall. intros s Hs.
      specialize (Hl s Hs). specialize (Hb s Hs). simpl in *. lia.
    + destruct Hc as [_ Hc]. apply Forall_cons in Hn as [Hnm Hns].
      assert (Forall (λ s, to m < to s) ms) as Hb'.
      { eapply Forall_impl; [exact Hl|]. simpl. intros. lia. }
      destruct (IH (to m) Hc Hns Hb') as (Hk & Htake & Hdrop & Hcur).
      pose proof (sweep_ge limit ms (to m) Hc Hns Hb') as Hge.
      split; [simpl; lia|]. split; [|split].
      * cbn [take]. by constructor.
      * done.
      * right. destruct Hcur as [Heq|(s & Hs & Hf & Ht)].
        -- exists m. split; [apply list_elem_of_here|]. split; [lia|done].
        -- exists s. split; [by apply list_elem_of_further|done].
Qed.

(** The loop of flushUpTo in front of a quiet sink: it never panics, never
    fails, and writes the pieces of the positions it moves the cursor over.
    [pre] holds the ranges already processed. *)
Lemma flushLoop_quiet (sb bf : list byte) (limit : Z) (pre ms : list subrange)
    (ri bufidx : Z) (d : Sink) :
  script d = [] → 0 ≤ bufidx →
  Forall (λ r, to r ≤ bufidx) pre →
  chained ms → Forall (pendingRange (len bf)) ms →
  Forall (λ m, bufidx < to m) ms →
  flushLoop sb bf limit ms ri bufidx (ri - 1) d
  = Some (mkSink (received d
                    ++ pieces sb bf (pre ++ ms) bufidx (sweep limit ms bufidx).1) [],
          inr ((sweep limit ms bufidx).1,
               ri + Z.of_nat (sweep limit ms bufidx).2 - 1)).
Proof.
  revert pre ri bufidx d.
  induction ms as [|m ms IH]; intros pre ri bufidx d Hd H0 Hpre Hc Hp Hb.
  - simpl. rewrite pieces_nil by lia. rewrite app_nil_r.
    destruct d; simpl in *; subst. by rewrite Z.add_0_r.
  - cbn [flushLoop sweep]. case_bool_decide as Hlim; cbn [fst snd].
    { rewrite pieces_nil by lia. rewrite app_nil_r.
      destruct d; simpl in *; subst. by rewrite Z.add_0_r. }
    pose proof (pendingRange_nonEmpty _ _ Hp) as Hn.
    pose proof (chained_tail_after _ _ Hc Hn) as Hl.
    apply Forall_cons in Hp as [[Hm1 Hm2] Hp].
    apply Forall_cons in Hb as [Hbm Hb].
    pose proof Hn as Hn'. apply Forall_cons in Hn' as [_ Hns].
    pose proof Hc as [_ Hc'].
    assert (Forall (λ s, to m < to s) ms) as Hb'.
    { eapply Forall_impl; [exact Hl|]. simpl. intros. lia. }
    pose proof (sweep_ge limit ms (to m) Hc' Hns Hb') as Hge.
    assert (Forall (λ r, to r ≤ to m) (pre ++ [m])) as Hpre'.
    { apply Forall_app. split; [|by constructor].
      eapply Forall_impl; [exact Hpre|]. simpl. intros. lia. }
    assert (∀ p, from m ≤ p < to m → covered (pre ++ m :: ms) p = true) as Hcov.
    { intros p Hr. apply (covered_in m); [|done].
      apply elem_of_app. right. apply list_elem_of_here. }
    assert (∀ p, from m < p < to m → joined (pre ++ m :: ms) p = true) as Hjoin.
    { intros p Hr. apply (joined_in m); [|done].
      apply elem_of_app. right. apply list_elem_of_here. }
    assert (bufidx ≤ from m → joined (pre ++ m :: ms) (from m) = false) as Hstart.
    { intros Hle. apply joined_none. apply Forall_app. split.
      - eapply Forall_impl; [exact Hpre|]. simpl. intros. lia.
      - constructor; [lia|].
        eapply Forall_impl; [exact Hl|]. simpl. intros. lia. }
    assert (∀ p, bufidx ≤ p < from m → covered (pre ++ m :: ms) p = false)
      as Hfree.
    { intros p Hr. apply covered_none. apply Forall_app. split.
      - eapply Forall_impl; [exact Hpre|]. simpl. intros. lia.
      - constructor; [lia|].
        eapply Forall_impl; [exact Hl|]. simpl. intros. lia. }
    specialize (IH (pre ++ [m]) (ri + 1) (to m)).
    replace (ri + 1 - 1) with ri in IH by lia.
    rewrite <- app_assoc in IH. cbn [app] in IH.
    replace (ri + Z.of_nat (S (sweep limit ms (to m)).2) - 1)
      with (ri + 1 + Z.of_nat (sweep limit ms (to m)).2 - 1) by lia.
    case_bool_decide as Hlt; [|case_bool_decide as Heq].
    + rewrite slice_Some by lia. cbn [mbind option_bind].
      rewrite sink_Write_quiet by done.
      rewrite sink_Write_quiet by done. cbn [received].
      rewrite IH by (try done; lia). cbn [received]. do 3 f_equal.
      rewrite <- !app_assoc. f_equal.
      rewrite (pieces_split _ _ _ bufidx (from m)) by lia.
      rewrite (pieces_split _ _ _ (from m) (to m)) by lia.
      rewrite (pieces_passthrough _ _ _ bufidx (from m)); [|lia|lia|exact Hfree].
      rewrite (pieces_marker _ _ _ (from m) (to m)); try done.
      * apply Hcov. lia.
      * apply Hstart. lia.
      * intros p Hr. split; [apply Hcov|apply Hjoin]; lia.
    + rewrite sink_Write_quiet by done. cbn [received].
      rewrite IH by (try done; lia). cbn [received]. do 3 f_equal.
      rewrite <- !app_assoc. f_equal. subst bufidx.
      rewrite (pieces_split _ _ _ (from m) (to m)) by lia.
      rewrite (pieces_marker _ _ _ (from m) (to m)); try done.
      * apply Hcov. lia.
      * apply Hstart. lia.
      * intros p Hr. split; [apply Hcov|apply Hjoin]; lia.
    + rewrite IH by (try done; lia). do 3 f_equal.
      rewrite (pieces_split _ _ _ bufidx (to m)) by lia.
      rewrite (pieces_hidden _ _ _ bufidx (to m)); [done|].
      intros p Hr. split; [apply Hcov|apply Hjoin]; lia.
Qed.

Lemma chained_drop (k : nat) (ms : list subrange) :
  chained ms → chained (drop k ms).
Proof.
  revert ms. induction k as [|k IH]; intros ms Hc; [by destruct ms|].
  destruct ms as [|m ms]; [done|]. simpl. apply IH. by destruct Hc.
Qed.

Lemma chained_sub (c : Z) (ms : list subrange) :
  chained ms → chained ((λ m, sub m c) <$> ms).
Proof.
  induction ms as [|m ms IH]; [done|]. intros [Hh Hc].
  split; [|by apply IH]. destruct ms as [|s ms]; [done|]. simpl in *. lia.
Qed.

Lemma len_drop {A} (l : list A) (c : Z) :
  0 ≤ c ≤ len l → len (drop (Z.to_nat c) l) = len l - c.
Proof. intros. unfold len in *. rewrite length_drop. lia. Qed.

(** flushUpTo in front of a quiet sink: it never panics and never fails;
    [flushedTo] says what it leaves. *)
Lemma flushUpTo_quiet (r : Redactor) (limit : Z) :
  script (dst r) = [] → chained (completedMatches r) →
  Forall (pendingRange (len (buf r))) (completedMatches r) →
  limit ≤ len (buf r) →
  ∃ c r', flushUpTo r limit = Some (r', None) ∧ flushedTo r limit c r'.
Proof.
  intros Hd Hc Hp Hlim. unfold flushUpTo.
  pose proof (Zle_0_nat (length (buf r))) as Hlen. fold (len (buf r)) in Hlen.
  case_bool_decide as Hz.
  { exists 0, r. split; [done|]. unfold flushedTo.
    rewrite pieces_nil by lia. rewrite app_nil_r. simpl.
    repeat split; try done; try lia.
    - intros p _. by rewrite Z.add_0_r.
    - intros p _. by rewrite Z.add_0_r. }
  pose proof (pendingRange_nonEmpty _ _ Hp) as Hn.
  assert (Forall (λ m, 0 < to m) (completedMatches r)) as Hpos.
  { eapply Forall_impl; [exact Hp|]. by intros m [_ [? _]]. }
  rewrite (flushLoop_quiet _ _ _ [] _ 0 0 (dst r)) by (try done; lia).
  cbn [mbind option_bind app].
  destruct (sweep_spec limit (completedMatches r) 0 Hc Hn Hpos)
    as (Hk & Htake & Hdrop & Hcur).
  pose proof (sweep_ge limit (completedMatches r) 0 Hc Hn Hpos) as Hge.
  set (b' := (sweep limit (completedMatches r) 0).1) in *.
  set (k := (sweep limit (completedMatches r) 0).2) in *.
  set (cm := completedMatches r) in *.
  assert (b' ≤ len (buf r)) as Hb'len.
  { destruct Hcur as [->|(m & Hm & _ & <-)]; [lia|].
    rewrite Forall_forall in Hp. by destruct (Hp m Hm) as [_ [_ ?]]. }
  assert (∀ p, limit ≤ p < b' → 0 ≤ p →
               covered cm p = true ∧ joined cm p = true) as Hfinal.
  { intros p Hr H0. destruct Hcur as [Heq|(m & Hm & Hf & Ht)]; [lia|].
    split; [apply (covered_in m)|apply (joined_in m)]; try done; lia. }
  assert (∀ c p, b' ≤ c → 0 ≤ p →
                 covered (drop k cm) (p + c) = covered cm (p + c)) as Hcovd.
  { intros c p Hle H0. rewrite <- (take_drop k cm) at 2.
    rewrite covered_app, (covered_none (take k cm)); [done|].
    eapply Forall_impl; [exact Htake|]. simpl. intros. lia. }
  assert (∀ c p, b' ≤ c → 0 ≤ p →
                 joined (drop k cm) (p + c) = joined cm (p + c)) as Hjoind.
  { intros c p Hle H0. rewrite <- (take_drop k cm) at 2.
    rewrite joined_app, (joined_none (take k cm)); [done|].
    eapply Forall_impl; [exact Htake|]. simpl. intros. lia. }
  assert (∀ p, b' ≤ p < limit → covered cm p = false) as Hfree.
  { intros p Hr. rewrite <- (take_drop k cm), covered_app.
    rewrite (covered_none (take k cm)), (covered_none (drop k cm)); [done| |].
    - eapply Forall_impl; [exact Hdrop|]. simpl. intros. lia.
    - eapply Forall_impl; [exact Htake|]. simpl. intros. lia. }
  replace (0 + Z.of_nat k - 1 + 1) with (Z.of_nat k) by lia.
  assert (∀ c d, b' ≤ c → limit ≤ c → c ≤ len (buf r) →
            c = limit ∨ c = b' →
            script d = [] →
            received d = received (dst r) ++ pieces (subst r) (buf r) cm 0 c →
            ∃ c' r',
              (if bool_decide (len (buf r) ≤ c)
               then Some (set_completedMatches (set_buf (set_dst r d) []) [], @None error)
               else
                 b ← slice_from (buf r) c;
                 rest ← slice_from cm (Z.of_nat k);
                 Some (set_completedMatches (set_buf (set_dst r d) b)
                         ((λ m, sub m c) <$> rest), @None error))
              = Some (r', @None error) ∧ flushedTo r limit c' r') as Hfinish.
  { intros c d Hbc Hlc Hclen Hcc Hsd Hrd. case_bool_decide as Hend.
    - exists (len (buf r)). eexists. split; [done|].
      assert (c = len (buf r)) as -> by lia.
      unfold flushedTo. simpl. fold cm.
      split; [lia|]. split; [lia|]. split.
      { unfold len. rewrite Nat2Z.id. by rewrite drop_all. }
      repeat split; try done.
      + intros p H0. symmetry. apply covered_none.
        eapply Forall_impl; [exact Hp|]. intros m [_ [_ ?]]. lia.
      + intros p H0. symmetry. apply joined_none.
        eapply Forall_impl; [exact Hp|]. intros m [_ [_ ?]]. lia.
      + destruct (decide (p < b')); [apply Hfinal; lia|lia].
      + destruct (decide (p < b')); [apply Hfinal; lia|lia].
    - exists c. eexists.
      rewrite (slice_from_Some (buf r)) by lia. cbn [mbind option_bind].
      rewrite (slice_from_Some cm) by (unfold len; lia).
      cbn [mbind option_bind].
      rewrite Nat2Z.id. split; [done|].
      unfold flushedTo. simpl. fold cm.
      split; [lia|]. split; [lia|]. repeat split; try done.
      + apply chained_sub, chained_drop. done.
      + rewrite len_drop by lia. apply Forall_fmap.
        assert (Forall (pendingRange (len (buf r))) (drop k cm)) as Hpd.
        { rewrite <- (take_drop k cm) in Hp. by apply Forall_app in Hp as [_ ?]. }
        apply Forall_forall. intros m Hm.
        rewrite Forall_forall in Hpd, Hdrop.
        destruct (Hpd m Hm) as [? [? ?]]. destruct (Hdrop m Hm) as [? ?].
        unfold pendingRange, sub. simpl. lia.
      + intros p H0. rewrite covered_sub. by apply Hcovd.
      + intros p H0. rewrite joined_sub. by apply Hjoind.
      + destruct (decide (p < b')); [apply Hfinal; lia|lia].
      + destruct (decide (p < b')); [apply Hfinal; lia|lia]. }
  case_bool_decide as Hlt.
  - rewrite slice_Some by lia. cbn [mbind option_bind].
    rewrite sink_Write_quiet by done. cbn [received].
    apply Hfinish; try done; try lia; try (by left). cbn [received].
    rewrite <- app_assoc. f_equal.
    rewrite (pieces_split _ _ _ 0 b' limit) by lia. f_equal.
    symmetry. apply pieces_passthrough; [lia|lia|exact Hfree].
  - apply Hfinish; try done; try lia; by right.
Qed.

(** ** The flush limit *)

Lemma foldr_max_ge (a : Z) (ps : list partialMatch) :
  a ≤ foldr (λ s, Z.max (matched s)) a ps.
Proof. induction ps as [|s ps IH]; simpl; lia. Qed.

Lemma foldr_max_base (a b : Z) (ps : list partialMatch) :
  Z.max b (foldr (λ s, Z.max (matched s)) a ps)
  = Z.max a (foldr (λ s, Z.max (matched s)) b ps).
Proof. induction ps as [|s ps IH]; simpl; lia. Qed.

Lemma fold_limit_max (L : Z) (ps : list partialMatch) (l0 : Z) :
  fold_left (λ limit s,
               let t := L - matched s in
               if bool_decide (t < limit) then t else limit) ps l0
  = Z.min l0 (L - foldr (λ s, Z.max (matched s)) (L - l0) ps).
Proof.
  revert l0. induction ps as [|s ps IH]; intros l0; simpl; [lia|].
  rewrite IH. case_bool_decide.
  - replace (L - (L - matched s)) with (matched s) by lia.
    pose proof (foldr_max_ge (matched s) ps).
    pose proof (foldr_max_base (L - l0) (matched s) ps). lia.
  - pose proof (foldr_max_ge (L - l0) ps). lia.
Qed.

(** The flush limit is the buffer length less the longest partial match. *)
Lemma flushLimit_maxMatched (r : Redactor) :
  flushLimit r = len (buf r) - maxMatched (partialMatches r).
Proof.
  unfold flushLimit, maxMatched. rewrite fold_limit_max.
  rewrite Z.sub_diag.
  assert (0 ≤ foldr (λ s, Z.max (matched s)) 0 (partialMatches r)); [|lia].
  induction (partialMatches r); simpl; lia.
Qed.

Lemma maxMatched_ge (ps : list partialMatch) (s : partialMatch) :
  s ∈ ps → matched s ≤ maxMatched ps.
Proof.
  induction 1 as [s ps|s s' ps _ IH]; unfold maxMatched in *; simpl; lia.
Qed.


(** ** The invariant of the redactor in front of a quiet sink *)

Lemma union_to (r s : subrange) :
  to (union r s) = to r ∨ to (union r s) = to s.
Proof. unfold union. zcases; auto. Qed.

Lemma mergeInto_to (P : Z → Prop) (revs : list subrange) (cur : subrange)
    (acc : list subrange) :
  P (to cur) → Forall (λ m, P (to m)) revs → Forall (λ m, P (to m)) acc →
  Forall (λ m, P (to m)) (mergeInto revs cur acc).
Proof.
  revert cur acc. induction revs as [|x revs IH]; intros cur acc Hc Hr Ha.
  - by constructor.
  - apply Forall_cons in Hr as [Hx Hr]. simpl. destruct (overlap cur x).
    + apply IH; try done. by destruct (union_to cur x) as [->| ->].
    + apply IH; try done. by constructor.
Qed.

(** Every end of a merged range is the end of a range of the input. *)
Lemma merged_to (P : Z → Prop) (rs : list subrange) :
  Forall (λ m, P (to m)) rs → Forall (λ m, P (to m)) (merged rs).
Proof.
  intros H. unfold merged. apply Forall_reverse in H.
  destruct (reverse rs) as [|lst revs]; [done|].
  apply Forall_cons in H as [Hl Hr]. by apply mergeInto_to.
Qed.

Lemma index_app_l {A} (l l' : list A) (p : Z) :
  p < len l → index (l ++ l') p = index l p.
Proof.
  intros H. unfold index. case_bool_decide; [|done].
  apply lookup_app_l. unfold len in H. lia.
Qed.

Lemma index_drop {A} (l : list A) (base p : Z) :
  0 ≤ base → 0 ≤ p → index (drop (Z.to_nat base) l) p = index l (p + base).
Proof.
  intros Hb Hp. unfold index. rewrite !bool_decide_true by lia.
  rewrite lookup_drop. f_equal. lia.
Qed.

Lemma addNeedle_valid (needles : list (list byte)) (idx : byte → list (list byte)) :
  validIndex idx → validIndex (fold_left addNeedle needles idx).
Proof.
  revert idx. induction needles as [|s needles IH]; intros idx Hi; [done|].
  simpl. apply IH. destruct s as [|c s]; [done|]. simpl.
  intros x s' Hs'. case_bool_decide.
  - subst x. apply elem_of_app in Hs' as [Hs'|Hs']; [by apply Hi|].
    apply list_elem_of_singleton in Hs'. by subst.
  - by apply Hi.
Qed.

(** The bytes a partial match has matched are the last bytes scanned. *)
Lemma scanned_suffix (idx : byte → list (list byte)) (pos : Z) (b w : list byte)
    (ps : list partialMatch) :
  validIndex idx → Forall validPartial ps →
  (∀ s, s ∈ ps → take (Z.to_nat (matched s)) (needle s) `suffix_of` w) →
  ∀ s, s ∈ (scanned idx pos b ps).1 →
       take (Z.to_nat (matched s)) (needle s) `suffix_of` w ++ b.
Proof.
  intros Hi. revert pos w ps.
  induction b as [|c b IH]; intros pos w ps Hv Hs s' Hs'; simpl in Hs'.
  - rewrite app_nil_r. by apply Hs.
  - replace (w ++ c :: b) with ((w ++ [c]) ++ b) by by rewrite <- app_assoc.
    apply (IH (pos + 1) (w ++ [c]) (kept c ps ++ started (idx c))); [| |done].
    + apply Forall_app. split; [by apply kept_valid|].
      apply started_valid. intros s Hs0. by eapply validIndex_nonEmpty.
    + intros s1 Hs1. apply elem_of_app in Hs1 as [Hs1|Hs1].
      * apply kept_spec in Hs1 as (s & Hin & Hm & Hn & Ht).
        rewrite Forall_forall in Hv. specialize (Hv s Hin).
        unfold validPartial in Hv. unfold takes in Ht.
        apply bool_decide_eq_true in Ht. unfold index in Ht.
        rewrite bool_decide_true in Ht by lia.
        rewrite Hm, Hn.
        replace (Z.to_nat (matched s + 1)) with (S (Z.to_nat (matched s)))
          by lia.
        rewrite (take_S_r _ _ _ Ht). apply suffix_app. by apply Hs.
      * apply started_spec in Hs1 as [Hm Hn]. apply Hi in Hn.
        rewrite Hm. destruct (needle s1) as [|c' n']; [done|].
        simpl in *. simplify_eq. rewrite take_0. by apply suffix_app_r.
Qed.

Lemma tracks_New (sb : list byte) (needles : list (list byte)) :
  tracks [] (mkTrace [] [] []) (New quiet sb needles) 0.
Proof.
  unfold New, Reset. split; simpl; try done.
  - apply addNeedle_valid. intros c s Hs. by apply elem_of_nil in Hs.
  - intros s p Hs. by apply elem_of_nil in Hs.
  - intros s Hs. by apply elem_of_nil in Hs.
Qed.

Lemma tracks_Reset (out0 : list byte) (t : Trace) (r : Redactor) (base : Z)
    (needles : list (list byte)) :
  tracks out0 t r base → tracks out0 t (Reset r needles) base.
Proof.
  intros []. unfold Reset. split; simpl; try done.
  apply addNeedle_valid. intros c s Hs. by apply elem_of_nil in Hs.
Qed.

(** Steps 1 to 3 of Write keep the invariant, for the trace fed with the
    chunk. *)
Lemma tracks_absorb (out0 : list byte) (t : Trace) (r : Redactor) (base : Z)
    (b : list byte) :
  tracks out0 t r base →
  ∃ r1, absorb r b = Some r1
        ∧ needlesByFirstByte r1 = needlesByFirstByte r
        ∧ subst r1 = subst r
        ∧ tracks out0 (feed (needlesByFirstByte r) t b) r1 base.
Proof.
  intros [Hbase Hbuf Hpart Hnext Hscript Hrecv Hch Hpend Hcov Hjoin Hval Hidx
            Hset Hsuf].
  pose proof (Zle_0_nat (length b)) as Hlb. fold (len b) in Hlb.
  assert (len (buf r) = len (stream t) - base) as Hlen.
  { rewrite Hbuf. by apply len_drop. }
  unfold absorb. rewrite scan_spec; simpl; try done; [|by rewrite Hpart].
  rewrite mergeOverlaps_merged. simpl. eexists. split; [done|].
  split; [done|]. split; [done|].
  rewrite Hpart, Hlen.
  set (idx := needlesByFirstByte r).
  replace (0 + (len (stream t) - base)) with (len (stream t) - base) by lia.
  rewrite scanned_shift. simpl.
  set (X := (scanned idx (len (stream t)) b (pending t)).2).
  assert (∀ x, x ∈ X →
            from x < to x ∧ len (stream t) < to x ≤ len (stream t) + len b
            ∧ ((∃ s, s ∈ pending t ∧ from x = len (stream t) - matched s)
               ∨ len (stream t) ≤ from x)) as HX.
  { intros x Hx. by apply (scanned_ranges idx _ b (pending t)). }
  assert (len (stream t ++ b) = len (stream t) + len b) as Hlen'.
  { unfold len. rewrite length_app. lia. }
  assert (∀ p, p < base → covered X p = true → covered (found t) p = true)
    as HcovX.
  { intros p Hp Hc. apply existsb_exists in Hc as (x & Hx & Hin).
    apply list_elem_of_In in Hx.
    destruct (HX x Hx) as (_ & _ & [(s & Hs & Hf)|Hf]).
    - apply (Hset s p Hs). unfold contains in Hin. zcases.
    - unfold contains in Hin. zcases. }
  assert (∀ p, p < base → joined X p = true → joined (found t) p = true)
    as HjoinX.
  { intros p Hp Hc. apply existsb_exists in Hc as (x & Hx & Hin).
    apply list_elem_of_In in Hx. apply bool_decide_eq_true in Hin.
    destruct (HX x Hx) as (_ & _ & [(s & Hs & Hf)|Hf]).
    - apply (Hset s p Hs). lia.
    - lia. }
  assert (Forall (pendingRange (len (buf r ++ b)))
            (completedMatches r ++ ((λ m, sub m base) <$> X))) as Hpend'.
  { assert (len (buf r ++ b) = len (buf r) + len b) as ->.
    { unfold len. rewrite length_app. lia. }
    apply Forall_app. split.
    - eapply Forall_impl; [exact Hpend|]. unfold pendingRange. intros m ?. lia.
    - apply Forall_fmap, Forall_forall. intros x Hx.
      destruct (HX x Hx) as (? & ? & _). unfold pendingRange, sub. simpl. lia. }
  assert (chained (merged (completedMatches r ++ ((λ m, sub m base) <$> X)))
          ∧ Forall nonEmpty
              (merged (completedMatches r ++ ((λ m, sub m base) <$> X))))
    as [Hch' Hne'].
  { apply merged_chained.
    - by apply (pendingRange_nonEmpty (len (buf r ++ b))).
    - apply (sortedByTo_app _ _ (len (buf r))).
      + apply chained_sortedByTo; [done|].
        by apply (pendingRange_nonEmpty (len (buf r))).
      + replace ((λ m, sub m base) <$> X)
          with (scanned idx (len (stream t) - base) b (pending t)).2
          by (by rewrite scanned_shift).
        by apply scanned_sorted.
      + eapply Forall_impl; [exact Hpend|]. unfold pendingRange. intros m ?. lia.
      + apply Forall_fmap, Forall_forall. intros x Hx.
        destruct (HX x Hx) as (? & ? & _). unfold sub. simpl. lia. }
  split; simpl; fold X.
  - lia.
  - rewrite Hbuf. rewrite drop_app_le; [done|]. unfold len in Hbase. lia.
  - done.
  - done.
  - done.
  - rewrite Hrecv. f_equal.
    rewrite <- (Z.add_0_r base) at 2.
    rewrite (pieces_ext _ _ (stream t ++ b) _ (found t ++ X) 0); [done|].
    intros p Hp. rewrite Z.add_0_r. unfold piece.
    rewrite covered_app, joined_app, index_app_l by lia.
    destruct (covered (found t) p) eqn:Hc, (joined (found t) p) eqn:Hj;
      simpl; try done.
    + destruct (joined X p) eqn:HjX; [|done].
      apply HjoinX in HjX; [congruence|lia].
    + destruct (covered X p) eqn:HcX; [|done].
      apply HcovX in HcX; [congruence|lia].
    + destruct (covered X p) eqn:HcX; [|done].
      apply HcovX in HcX; [congruence|lia].
  - done.
  - apply Forall_forall. intros m Hm.
    pose proof (merged_to (λ z, 0 < z ≤ len (buf r ++ b)) _
                  ltac:(eapply Forall_impl; [exact Hpend'|];
                        by intros ? [_ ?])) as Hto.
    rewrite Forall_forall in Hne', Hto. split; [by apply Hne'|by apply Hto].
  - intros p Hp. rewrite covered_merged, !covered_app, covered_sub.
    by rewrite Hcov.
  - intros p Hp. rewrite joined_merged, !joined_app, joined_sub.
    by rewrite Hjoin.
  - by apply scanned_valid.
  - done.
  - intros s' p Hs' Hp. rewrite covered_app, joined_app.
    apply scanned_starts in Hs' as [(s & Hs & Hm)|Hm]; [|lia].
    destruct (Hset s p Hs ltac:(lia)) as [-> ->]. done.
  - by apply scanned_suffix.
Qed.

(** flushUpTo keeps the invariant when no partial match reaches below the
    limit; the buffer then starts [c] positions further. *)
Lemma tracks_flush (out0 : list byte) (t : Trace) (r : Redactor)
    (base limit : Z) :
  tracks out0 t r base → limit ≤ len (buf r) →
  (∀ s, s ∈ pending t → limit ≤ len (buf r) - matched s) →
  ∃ c r', flushUpTo r limit = Some (r', None)
          ∧ 0 ≤ c ∧ limit ≤ c ∧ len (buf r') = len (buf r) - c
          ∧ needlesByFirstByte r' = needlesByFirstByte r
          ∧ subst r' = subst r
          ∧ tracks out0 t r' (base + c).
Proof.
  intros [Hbase Hbuf Hpart Hnext Hscript Hrecv Hch Hpend Hcov Hjoin Hval Hidx
            Hset Hsuf] Hlim Hreach.
  assert (len (buf r) = len (stream t) - base) as Hlen.
  { rewrite Hbuf. by apply len_drop. }
  destruct (flushUpTo_quiet r limit Hscript Hch Hpend Hlim)
    as (c & r' & Hf & Hc & Hlc & Hbuf' & Hsb & Hix & Hpm & Hnx & Hsc & Hrc
          & Hch' & Hpend' & Hcov' & Hjoin' & Hfin).
  exists c, r'. split; [done|]. split; [lia|]. split; [done|].
  split; [rewrite Hbuf'; by apply len_drop|].
  split; [done|]. split; [done|].
  split.
  - lia.
  - rewrite Hbuf', Hbuf, drop_drop. f_equal. lia.
  - congruence.
  - congruence.
  - done.
  - rewrite Hrc, Hrecv, Hsb, <- app_assoc. f_equal.
    rewrite (pieces_split _ _ _ 0 base (base + c)) by lia. f_equal.
    rewrite (pieces_ext _ _ (stream t) _ (found t) base).
    + by rewrite Z.add_0_l, Z.add_comm.
    + intros p Hp. unfold piece. rewrite Hcov, Hjoin by lia.
      rewrite Hbuf, index_drop by lia. done.
  - done.
  - done.
  - intros p Hp. rewrite Hcov', Hcov by lia. f_equal. lia.
  - intros p Hp. rewrite Hjoin', Hjoin by lia. f_equal. lia.
  - done.
  - by rewrite Hix.
  - intros s p Hs Hp. destruct (decide (p < base)) as [Hlt|Hge].
    + apply (Hset s p Hs). lia.
    + specialize (Hreach s Hs).
      destruct (Hfin (p - base) ltac:(lia) ltac:(lia)) as [Hc1 Hj1].
      rewrite Hcov in Hc1 by lia. rewrite Hjoin in Hj1 by lia.
      replace (p - base + base) with p in * by lia. done.
  - done.
Qed.

(** Write in front of a quiet sink: it never panics, accepts the whole
    chunk, and keeps the invariant; what it retains of a chunk that is not
    empty is at most what lies after the flush limit. *)
Lemma tracks_Write (out0 : list byte) (t : Trace) (r : Redactor) (base : Z)
    (b : list byte) :
  tracks out0 t r base →
  ∃ r' base',
    Write r b = Some (r', len b, None)
    ∧ needlesByFirstByte r' = needlesByFirstByte r
    ∧ subst r' = subst r
    ∧ tracks out0 (feed (needlesByFirstByte r) t b) r' base'
    ∧ (b ≠ [] →
       ∃ r1, absorb r b = Some r1
             ∧ partialMatches r1 = partialMatches r'
             ∧ len (buf r') ≤ len (buf r1) - flushLimit r1).
Proof.
  intros Ht. unfold Write. case_bool_decide as Hb.
  { destruct b; [|unfold len in Hb; simpl in Hb; lia].
    exists r, base. split; [done|]. split; [done|]. split; [done|].
    split; [|done]. unfold feed. simpl. rewrite !app_nil_r.
    by destruct t. }
  destruct (tracks_absorb _ _ _ _ b Ht) as (r1 & Ha & Hix & Hsb & Ht1).
  rewrite Ha. cbn [mbind option_bind].
  pose proof (flushLimit_maxMatched r1) as Hlimit.
  destruct (tracks_flush _ _ _ _ (flushLimit r1) Ht1) as
    (c & r' & Hf & Hc0 & Hc & Hlen & Hix' & Hsb' & Ht').
  - apply flushLimit_le.
  - intros s Hs. rewrite Hlimit. destruct Ht1.
    rewrite tr_partial0. pose proof (maxMatched_ge _ _ Hs). lia.
  - rewrite Hf. exists r', (base + c). split; [done|].
    split; [congruence|]. split; [congruence|]. split; [done|].
    intros _. exists r1. split; [done|]. split; [|lia].
    destruct Ht', Ht1. congruence.
Qed.

(** Flush in front of a quiet sink: it never panics, never fails, keeps the
    invariant and empties the buffer. *)
Lemma tracks_Flush (out0 : list byte) (t : Trace) (r : Redactor) (base : Z) :
  tracks out0 t r base →
  ∃ r',
    Flush r = Some (r', None)
    ∧ needlesByFirstByte r' = needlesByFirstByte r
    ∧ subst r' = subst r
    ∧ tracks out0 (mkTrace (stream t) (found t) []) r' (len (stream t)).
Proof.
  intros Ht. unfold Flush.
  assert (tracks out0 (mkTrace (stream t) (found t) [])
            (set_partialMatches r []) base) as Ht0.
  { destruct Ht. split; simpl; try done.
    - intros s p Hs. by apply elem_of_nil in Hs.
    - intros s Hs. by apply elem_of_nil in Hs. }
  destruct (tracks_flush _ _ _ _ (len (buf (set_partialMatches r []))) Ht0)
    as (c & r' & Hf & Hc0 & Hc & Hlen & Hix' & Hsb' & Ht').
  - done.
  - intros s Hs. by apply elem_of_nil in Hs.
  - exists r'. split; [done|]. split; [done|]. split; [done|].
    replace (len (stream t)) with (base + c); [done|].
    destruct Ht. simpl in *.
    assert (len (buf r) = len (stream t) - base) as Hl.
    { rewrite tr_buf0. by apply len_drop. }
    pose proof (Zle_0_nat (length (buf r'))). unfold len in *. lia.
Qed.

Lemma tracks_call (out0 : list byte) (t : Trace) (r : Redactor) (base : Z)
    (o : op) :
  tracks out0 t r base →
  ∃ r' base',
    call r o = Some r'
    ∧ subst r' = subst r
    ∧ needlesByFirstByte r' = (observe (t, needlesByFirstByte r) o).2
    ∧ tracks out0 (observe (t, needlesByFirstByte r) o).1 r' base'
    ∧ (o = OpFlush → base' = len (stream t)).
Proof.
  intros Ht. destruct o as [b|needles|]; simpl.
  - destruct (tracks_Write _ _ _ _ b Ht)
      as (r' & base' & Hw & Hix & Hsb & Ht' & _).
    exists r', base'. rewrite Hw. done.
  - exists (Reset r needles), base. split; [done|]. split; [done|].
    split; [done|]. split; [by apply tracks_Reset|done].
  - destruct (tracks_Flush _ _ _ _ Ht) as (r' & Hf & Hix & Hsb & Ht').
    exists r', (len (stream t)). rewrite Hf. done.
Qed.

(** Any sequence of calls on a redactor that satisfies the invariant runs
    to its end and keeps the invariant. *)
Lemma tracks_run (out0 : list byte) (ops : list op) (t : Trace) (r : Redactor)
    (base : Z) :
  tracks out0 t r base →
  ∃ r' base',
    run r ops = Some r'
    ∧ subst r' = subst r
    ∧ tracks out0 (fold_left observe ops (t, needlesByFirstByte r)).1 r' base'.
Proof.
  revert t r base. induction ops as [|o ops IH]; intros t r base Ht.
  - exists r, base. done.
  - destruct (tracks_call _ _ _ _ o Ht) as (r1 & base1 & Hc & Hsb & Hix & Ht1 & _).
    destruct (IH _ _ _ Ht1) as (r' & base' & Hr & Hsb' & Ht').
    exists r', base'. simpl. rewrite Hc. simpl. split; [done|].
    split; [congruence|]. rewrite Hix in Ht'.
    by destruct (observe (t, needlesByFirstByte r) o).
Qed.

(** After a final Flush the sink holds the redacted stream. *)
Theorem output_redact (sb : list byte) (needles : list (list byte))
    (ops : list op) :
  output sb needles (ops ++ [OpFlush])
  = Some (redact sb (stream (traceOf needles ops)) (found (traceOf needles ops))).
Proof.
  unfold output, traceOf.
  destruct (tracks_run [] ops _ _ _ (tracks_New sb needles))
    as (r1 & base1 & Hr & Hsb & Ht).
  change (needlesByFirstByte (New quiet sb needles))
    with (fold_left addNeedle needles (λ _ : byte, @nil (list byte))) in Ht.
  set (t := (fold_left observe ops _).1) in *.
  destruct (tracks_Flush _ _ _ _ Ht) as (r' & Hf & _ & Hsb' & Ht').
  assert (run (New quiet sb needles) (ops ++ [OpFlush]) = Some r') as ->.
  { clear -Hr Hf. revert Hr. generalize (New quiet sb needles).
    induction ops as [|o ops IH]; intros r0 Hr; simpl in *.
    - simplify_eq. by rewrite Hf.
    - destruct (call r0 o); simpl in *; [|done]. by apply IH. }
  simpl. destruct Ht'. simpl in *. rewrite tr_received0. simpl.
  unfold redact. do 2 f_equal. rewrite Hsb', Hsb. done.
Qed.

Lemma feed_nil (idx : byte → list (list byte)) (t : Trace) : feed idx t [] = t.
Proof. unfold feed. simpl. rewrite !app_nil_r. by destruct t. Qed.

Lemma feed_app (idx : byte → list (list byte)) (t : Trace) (b1 b2 : list byte) :
  feed idx (feed idx t b1) b2 = feed idx t (b1 ++ b2).
Proof.
  unfold feed. simpl. rewrite scanned_app. simpl.
  assert (len (stream t ++ b1) = len (stream t) + len b1) as ->.
  { unfold len. rewrite length_app. lia. }
  by rewrite !app_assoc.
Qed.

(** The trace does not see how the stream was cut into chunks. *)
Lemma observe_chunks (chunks : list (list byte)) (t : Trace)
    (idx : byte → list (list byte)) :
  fold_left observe (OpWrite <$> chunks) (t, idx)
  = (feed idx t (concat chunks), idx).
Proof.
  revert t. induction chunks as [|b chunks IH]; intros t; simpl.
  - by rewrite feed_nil.
  - by rewrite IH, feed_app.
Qed.

(** C2: feeding a stream in one Write or in any sequence of chunks, then
    flushing, delivers the same bytes to a sink that accepts every write. *)
Theorem boundary_independence (sb : list byte) (needles : list (list byte))
    (chunks : list (list byte)) :
  ∃ out,
    output sb needles ((OpWrite <$> chunks) ++ [OpFlush]) = Some out
    ∧ output sb needles [OpWrite (concat chunks); OpFlush] = Some out.
Proof.
  eexists. split; [apply output_redact|].
  change [OpWrite (concat chunks); OpFlush]
    with ([OpWrite (concat chunks)] ++ [OpFlush]).
  rewrite output_redact. unfold traceOf. by rewrite observe_chunks.
Qed.

(** ** Minimum retention *)





(** ** The tracker finds every occurrence *)

Lemma kept_in (c : byte) (ps : list partialMatch) (n : list byte) (m : Z) :
  mkPartial n m ∈ ps → index n m = Some c → m + 1 < len n →
  mkPartial n (m + 1) ∈ kept c ps.
Proof.
  intros Hin Hc Hlt. apply list_elem_of_omap. exists (mkPartial n m).
  split; [done|]. unfold takes. simpl.
  by rewrite !bool_decide_true.
Qed.

Lemma completed_in (c : byte) (pos : Z) (ps : list partialMatch)
    (n : list byte) (m : Z) :
  mkPartial n m ∈ ps → index n m = Some c → ¬ m + 1 < len n →
  mkRange (pos - len n + 1) (pos + 1) ∈ completed c pos ps.
Proof.
  intros Hin Hc Hlt. apply list_elem_of_omap. exists (mkPartial n m).
  split; [done|]. unfold takes. simpl.
  by rewrite bool_decide_true, bool_decide_false.
Qed.

Lemma drop_index {A} (l : list A) (m : Z) (c : A) (rest : list A) :
  0 ≤ m → drop (Z.to_nat m) l = c :: rest →
  index l m = Some c ∧ drop (Z.to_nat (m + 1)) l = rest ∧ m < len l.
Proof.
  intros Hm Hd. unfold index, len. rewrite bool_decide_true by done.
  assert (l !! Z.to_nat m = Some c) as Hl.
  { rewrite <- (Nat.add_0_r (Z.to_nat m)), <- lookup_drop. by rewrite Hd. }
  split; [done|]. split.
  - replace (Z.to_nat (m + 1)) with (S (Z.to_nat m)) by lia.
    apply drop_S in Hl. rewrite Hl in Hd. by simplify_eq.
  - apply lookup_lt_Some in Hl. lia.
Qed.

(** A partial match whose remaining bytes arrive is completed: its range
    is found, whatever the index holds by then. *)
Lemma scanned_completes (idx : byte → list (list byte)) (pos : Z)
    (b : list byte) (ps : list partialMatch) (n : list byte) (m : Z)
    (v : list byte) :
  mkPartial n m ∈ ps → 0 < m < len n →
  b = drop (Z.to_nat m) n ++ v →
  mkRange (pos - m) (pos - m + len n) ∈ (scanned idx pos b ps).2.
Proof.
  revert pos ps m. induction b as [|c b IH]; intros pos ps m Hin Hm Hb.
  - exfalso. symmetry in Hb. apply app_eq_nil in Hb as [Hd _].
    apply (f_equal length) in Hd. rewrite length_drop in Hd.
    unfold len in Hm. simpl in Hd. lia.
  - destruct (drop (Z.to_nat m) n) as [|c' rest] eqn:Hd.
    { apply (f_equal length) in Hd. rewrite length_drop in Hd.
      unfold len in Hm. simpl in Hd. lia. }
    simpl in Hb. simplify_eq.
    destruct (drop_index n m c' rest ltac:(lia) Hd) as (Hc & Hrest & _).
    simpl. destruct (decide (m + 1 < len n)) as [Hlt|Hge].
    + rewrite !elem_of_app. right. right.
      replace (pos - m) with (pos + 1 - (m + 1)) by lia.
      apply IH; [|lia|by rewrite Hrest].
      apply elem_of_app. left. by apply kept_in.
    + rewrite !elem_of_app. left.
      replace (pos - m) with (pos - len n + 1) by lia.
      replace (pos - len n + 1 + len n) with (pos + 1) by lia.
      by apply (completed_in _ _ _ _ m).
Qed.

Lemma scanned_occurrence (idx : byte → list (list byte)) (pos : Z)
    (u n v : list byte) (ps : list partialMatch) (c : byte) :
  head n = Some c → n ∈ idx c →
  mkRange (pos + len u) (pos + len u + len n)
  ∈ (scanned idx pos (u ++ n ++ v) ps).2.
Proof.
  intros Hc Hn. rewrite scanned_app. simpl. apply elem_of_app. right.
  set (ps' := (scanned idx pos u ps).1). set (pos' := pos + len u).
  destruct n as [|c' n']; [done|]. simpl in Hc. simplify_eq.
  simpl. destruct (decide (len (c :: n') = 1)) as [H1|H1].
  - rewrite !elem_of_app. right. left. rewrite H1.
    apply list_elem_of_omap. exists (c :: n'). split; [done|].
    by rewrite bool_decide_true.
  - rewrite !elem_of_app. right. right.
    replace pos' with (pos' + 1 - 1) at 1 2 by lia.
    apply (scanned_completes _ _ _ _ (c :: n') 1 v).
    + apply elem_of_app. right. apply list_elem_of_omap. exists (c :: n').
      split; [done|]. by rewrite bool_decide_false.
    + unfold len in *. simpl in *. lia.
    + done.
Qed.

Lemma addNeedle_grows (needles : list (list byte))
    (idx : byte → list (list byte)) (c : byte) (n : list byte) :
  n ∈ idx c → n ∈ fold_left addNeedle needles idx c.
Proof.
  revert idx. induction needles as [|s needles IH]; intros idx Hn; [done|].
  simpl. apply IH. destruct s as [|c' s]; [done|]. simpl.
  case_bool_decide; [|done]. subst. apply elem_of_app. by left.
Qed.

(** Reset puts every needle that is not empty in the bucket of its first
    byte. *)
Lemma addNeedle_registered (needles : list (list byte))
    (idx : byte → list (list byte)) (c : byte) (n : list byte) :
  n ∈ needles → head n = Some c → n ∈ fold_left addNeedle needles idx c.
Proof.
  revert idx. induction needles as [|s needles IH]; intros idx Hn Hc.
  - by apply elem_of_nil in Hn.
  - apply elem_of_cons in Hn as [->|Hn]; [|by apply IH].
    simpl. apply addNeedle_grows. destruct s as [|c' n']; [done|].
    simpl in *. simplify_eq. rewrite bool_decide_true by done.
    apply elem_of_app. right. apply list_elem_of_here.
Qed.

(** ** No needle in the redacted stream *)

Lemma joined_covered_before (rs : list subrange) (p : Z) :
  joined rs p = true → covered rs (p - 1) = true.
Proof.
  intros H. apply existsb_exists in H as (r & Hr & Hin).
  apply bool_decide_eq_true in Hin. apply existsb_exists. exists r.
  split; [done|]. unfold contains. zcases.
Qed.

Lemma clashes_suffix (a b x : list byte) :
  x ≠ [] → x `suffix_of` a → x `prefix_of` b ∨ b `prefix_of` x → clashes a b.
Proof.
  intros Hx [k ->] Hc. apply Exists_exists. exists (length k). split.
  - apply elem_of_seq. rewrite length_app. destruct x; [done|]. simpl. lia.
  - by rewrite drop_app_length.
Qed.

Lemma app_eq_prefix {A} (a b c d : list A) :
  a ++ b = c ++ d → a `prefix_of` c ∨ c `prefix_of` a.
Proof.
  intros H. apply app_eq_inv in H as [(k & -> & _)|(k & -> & _)];
    [right|left]; by exists k.
Qed.

Section NoLeak.

Variables (sb w : list byte) (rs : list subrange).

Variable n : list byte.

Hypothesis needle_nonEmpty : n ≠ [].

(** The needle and the marker cannot overlap. *)
Hypothesis needle_apart : apart n sb.

(** Every occurrence of the needle in the stream is covered at its first
    position. *)
Hypothesis occurrences_covered :
  ∀ u v, w = u ++ n ++ v → covered rs (len u) = true.

(** Bytes of the end of the needle read off the output right after a
    position that was passed through are the bytes of the stream at the
    next positions: a marker would overlap the needle. *)
Lemma passed_run (m : list byte) (lo : Z) :
  m `suffix_of` n → 0 ≤ lo → covered rs (lo - 1) = false →
  m `prefix_of` pieces sb w rs lo (len w) →
  m `prefix_of` drop (Z.to_nat lo) w.
Proof.
  revert lo. induction m as [|c m IH]; intros lo Hm Hlo Hprev Hpre.
  - apply prefix_nil.
  - destruct (decide (lo < len w)) as [Hlt|Hge]; cycle 1.
    { rewrite pieces_nil in Hpre by lia. by apply prefix_nil_not in Hpre. }
    rewrite pieces_cons in Hpre by done. unfold piece in Hpre.
    destruct (covered rs lo) eqn:Hcov.
    + destruct (joined rs lo) eqn:Hj.
      { apply joined_covered_before in Hj. congruence. }
      exfalso. apply (proj1 needle_apart).
      apply (clashes_suffix _ _ (c :: m)); [done|done|].
      destruct Hpre as [k Hk]. symmetry in Hk. by apply app_eq_prefix in Hk.
    + destruct (index_Some w lo ltac:(lia)) as [c0 Hc0]. rewrite Hc0 in Hpre.
      simpl in Hpre. pose proof (prefix_cons_inv_1 _ _ _ _ Hpre). subst c0.
      apply prefix_cons_inv_2 in Hpre.
      unfold index in Hc0. rewrite bool_decide_true in Hc0 by lia.
      rewrite (drop_S _ _ _ Hc0). apply prefix_cons.
      replace (S (Z.to_nat lo)) with (Z.to_nat (lo + 1)) by lia.
      apply IH; try done.
      * by apply suffix_cons_l in Hm.
      * lia.
      * by replace (lo + 1 - 1) with lo by lia.
Qed.

Lemma no_needle_from (lo : Z) :
  0 ≤ lo → ¬ occursIn n (pieces sb w rs lo (len w)).
Proof.
  revert lo. cut (∀ lo hi, hi = len w → 0 ≤ lo →
                          ¬ occursIn n (pieces sb w rs lo hi)).
  { intros H lo. by apply H. }
  apply (interval_ind (λ lo hi, _ → _ → _)).
  - intros lo hi Hle -> Hlo (u & v & Heq). rewrite pieces_nil in Heq by done.
    symmetry in Heq. apply app_eq_nil in Heq as [_ Heq].
    by apply app_eq_nil in Heq as [? _].
  - intros lo hi Hlt IH -> Hlo (u & v & Heq).
    rewrite pieces_cons in Heq by done.
    apply app_eq_inv in Heq as [(k & Ha & Hb)|(k & Hu & Hb)]; cycle 1.
    { apply IH; [done|lia|]. by exists k, v. }
    destruct k as [|x k].
    { simpl in Hb. apply IH; [done|lia|]. exists [], v. by rewrite <- Hb. }
    unfold piece in Ha. destruct (covered rs lo) eqn:Hcov.
    + destruct (joined rs lo).
      { symmetry in Ha. by apply app_eq_nil in Ha as [_ ?]. }
      apply (proj2 needle_apart).
      apply (clashes_suffix _ _ (x :: k)); [done|by exists u|].
      apply app_eq_prefix in Hb as [?|?]; [by right|by left].
    + destruct (index_Some w lo ltac:(lia)) as [c0 Hc0]. rewrite Hc0 in Ha.
      destruct u as [|? u]; simpl in Ha; simplify_eq; cycle 1.
      { by destruct u. }
      assert (∃ n', n = x :: n'
                    ∧ n' ++ v = pieces sb w rs (lo + 1) (len w))
        as (n' & Hn & Hn').
      { clear -Hb needle_nonEmpty. destruct n as [|y n']; [done|].
        simpl in Hb. simplify_eq. by exists n'. }
      assert (n' `prefix_of` drop (Z.to_nat (lo + 1)) w) as [k' Hk'].
      { apply passed_run.
        - rewrite Hn. by apply suffix_cons_r.
        - lia.
        - by replace (lo + 1 - 1) with lo by lia.
        - exists v. by rewrite Hn'. }
      unfold index in Hc0. rewrite bool_decide_true in Hc0 by lia.
      pose proof (take_drop_middle _ _ _ Hc0) as Hw.
      replace (S (Z.to_nat lo)) with (Z.to_nat (lo + 1)) in Hw by lia.
      rewrite Hk' in Hw.
      pose proof (occurrences_covered (take (Z.to_nat lo) w) k') as Hocc.
      rewrite Hn in Hocc. specialize (Hocc (eq_sym Hw)).
      assert (len (take (Z.to_nat lo) w) = lo) as Hlen.
      { unfold len in *. rewrite length_take. lia. }
      rewrite Hlen in Hocc. congruence.
Qed.

(** The needle does not occur in the redacted stream. *)
Lemma redact_no_needle : ¬ occursIn n (redact sb w rs).
Proof. by apply no_needle_from. Qed.

End NoLeak.

(** ** What the sink holds after the final Flush *)

Lemma observe_stream (ops : list op) (x : Trace * (byte → list (list byte))) :
  stream (fold_left observe ops x).1 = stream x.1 ++ written ops.
Proof.
  revert x. induction ops as [|o ops IH]; intros x.
  - unfold written. simpl. by rewrite app_nil_r.
  - simpl. rewrite IH. unfold written. rewrite fmap_cons. simpl.
    destruct o; simpl; by rewrite ?app_assoc, ?app_nil_r.
Qed.

Lemma stream_traceOf (needles : list (list byte)) (ops : list op) :
  stream (traceOf needles ops) = written ops.
Proof. unfold traceOf. by rewrite observe_stream. Qed.

Lemma written_chunks (chunks : list (list byte)) :
  written (OpWrite <$> chunks) = concat chunks.
Proof.
  unfold written. induction chunks as [|b chunks IH]; [done|].
  rewrite !fmap_cons. cbn [concat]. by rewrite IH.
Qed.

(** Without a Reset, every occurrence of a registered needle in the stream
    is among the ranges found. *)
Lemma found_occurrence (needles : list (list byte)) (chunks : list (list byte))
    (n u v : list byte) :
  n ∈ needles → n ≠ [] → concat chunks = u ++ n ++ v →
  mkRange (len u) (len u + len n)
  ∈ found (traceOf needles (OpWrite <$> chunks)).
Proof.
  intros Hn Hne Hw. unfold traceOf. rewrite observe_chunks. simpl.
  rewrite Hw. destruct n as [|c n'] eqn:Heq; [done|].
  pose proof (scanned_occurrence (fold_left addNeedle needles (λ _, []))
                0 u (c :: n') v [] c eq_refl) as Hocc.
  rewrite !Z.add_0_l in Hocc. apply Hocc.
  by apply addNeedle_registered.
Qed.

(** *** The ranges found are occurrences *)

Lemma fold_addNeedle_bucket (needles : list (list byte))
    (idx : byte → list (list byte)) (c : byte) :
  fold_left addNeedle needles idx c
  = idx c ++ filter (λ s, head s = Some c) needles.
Proof.
  revert idx. induction needles as [|s needles IH]; intros idx.
  - simpl. by rewrite app_nil_r.
  - cbn [fold_left]. rewrite IH. destruct s as [|c' s]; simpl.
    + rewrite filter_cons_False by done. done.
    + case_bool_decide as Hc.
      * subst c'. rewrite filter_cons_True by done. by rewrite <- app_assoc.
      * rewrite filter_cons_False by (simpl; congruence). done.
Qed.

Lemma len_app {A} (l k : list A) : len (l ++ k) = len l + len k.
Proof. unfold len. rewrite length_app. lia. Qed.

(** Every range a scan finds is the range of a needle that lies in the
    bytes scanned so far and satisfies [N], when the needles of the index
    and of the partial matches satisfy [N]. *)
Lemma scanned_sound (idx : byte → list (list byte)) (N : list byte → Prop)
    (b w : list byte) (ps : list partialMatch) :
  validIndex idx → (∀ c s, s ∈ idx c → N s) →
  Forall validPartial ps →
  (∀ s, s ∈ ps → N (needle s)
                 ∧ take (Z.to_nat (matched s)) (needle s) `suffix_of` w) →
  ∀ x, x ∈ (scanned idx (len w) b ps).2 →
       ∃ n u v, N n ∧ w ++ b = u ++ n ++ v
                ∧ x = mkRange (len u) (len u + len n).
Proof.
  intros Hi HN. revert w ps.
  induction b as [|c b IH]; intros w ps Hv Hps x Hx; simpl in Hx.
  - by apply elem_of_nil in Hx.
  - rewrite !elem_of_app in Hx. destruct Hx as [Hx|[Hx|Hx]].
    + apply list_elem_of_omap in Hx as (s & Hs & Heq).
      destruct (Hps s Hs) as [HNs [u Hu]].
      rewrite Forall_forall in Hv. specialize (Hv s Hs).
      unfold validPartial in Hv.
      destruct (takes c s) eqn:Ht; simpl in Heq; [|done].
      case_bool_decide as Hlt; simpl in Heq; simplify_eq.
      unfold takes in Ht. apply bool_decide_eq_true in Ht.
      unfold index in Ht. rewrite bool_decide_true in Ht by lia.
      assert (needle s = take (Z.to_nat (matched s)) (needle s) ++ [c]) as Hn.
      { rewrite <- (take_S_r _ _ _ Ht). symmetry. apply take_ge.
        unfold len in *. lia. }
      exists (needle s), u, b. split; [done|]. split.
      * rewrite Hn at 2. by rewrite <- !app_assoc.
      * rewrite len_app.
        assert (len (take (Z.to_nat (matched s)) (needle s)) = matched s)
          as ->.
        { unfold len in *. rewrite length_take. lia. }
        f_equal; lia.
    + apply list_elem_of_omap in Hx as (s & Hs & Heq).
      case_bool_decide as H1; simplify_eq.
      pose proof (Hi c s Hs) as Hh. destruct s as [|c' [|? ?]];
        unfold len in H1; simpl in *; simplify_eq; try lia.
      exists [c], w, b. split; [by apply (HN c)|]. by split.
    + assert (len w + 1 = len (w ++ [c])) as Hl.
      { rewrite len_app. unfold len. simpl. lia. }
      rewrite Hl in Hx. apply IH in Hx.
      * destruct Hx as (n & u & v & Hn & Hw & ->). exists n, u, v.
        split; [done|]. split; [|done]. rewrite <- Hw.
        by rewrite <- app_assoc.
      * apply Forall_app. split; [by apply kept_valid|].
        apply started_valid. intros s Hs. by eapply validIndex_nonEmpty.
      * intros s' Hs'. split.
        -- apply elem_of_app in Hs' as [Hs'|Hs'].
           ++ apply kept_spec in Hs' as (s & Hs & _ & -> & _).
              by apply Hps.
           ++ apply started_spec in Hs' as [_ Hs']. by apply (HN c).
        -- apply (scanned_suffix idx (len w) [c] w ps Hi Hv); [|done].
           intros s Hs. by apply Hps.
Qed.

Lemma fold_addNeedle_registered (needles : list (list byte)) (c : byte)
    (s : list byte) :
  s ∈ fold_left addNeedle needles (λ _, []) c → s ∈ needles ∧ s ≠ [].
Proof.
  rewrite fold_addNeedle_bucket. simpl. intros Hs.
  apply list_elem_of_filter in Hs as [Hh Hs]. split; [done|].
  by intros ->.
Qed.

(** Without a Reset, the ranges found are occurrences of the needles, and
    every occurrence is found. *)
Lemma found_exact (needles : list (list byte)) (chunks : list (list byte))
    (x : subrange) :
  x ∈ found (traceOf needles (OpWrite <$> chunks))
  ↔ occurrence needles (concat chunks) x.
Proof.
  split.
  - unfold traceOf. rewrite observe_chunks. simpl. intros Hx.
    change 0 with (len (@nil byte)) in Hx.
    apply (scanned_sound _ (λ n, n ∈ needles ∧ n ≠ [])) in Hx.
    + destruct Hx as (n & u & v & [Hn Hne] & Hw & ->). by exists n, u, v.
    + apply addNeedle_valid. intros c s Hs. by apply elem_of_nil in Hs.
    + intros c s. apply fold_addNeedle_registered.
    + done.
    + intros s Hs. by apply elem_of_nil in Hs.
  - intros (n & u & v & Hn & Hne & Hw & ->). by apply (found_occurrence _ _ n u v).
Qed.

(** C1: in front of a sink that accepts every write, the output after the
    final Flush is the stream redacted by exactly the ranges of the
    occurrences of the registered needles, so that every occurrence is
    replaced by the marker and nothing else is; a registered needle that
    cannot overlap the marker does not occur in the output. *)
Theorem no_leak (sb : list byte) (needles : list (list byte))
    (chunks : list (list byte)) (n : list byte) :
  n ∈ needles → n ≠ [] → apart n sb →
  ∃ out rs,
    output sb needles ((OpWrite <$> chunks) ++ [OpFlush]) = Some out
    ∧ out = redact sb (concat chunks) rs
    ∧ (∀ x, x ∈ rs ↔ occurrence needles (concat chunks) x)
    ∧ ¬ occursIn n out.
Proof.
  intros Hn Hne Hapart.
  exists (redact sb (concat chunks)
            (found (traceOf needles (OpWrite <$> chunks)))).
  exists (found (traceOf needles (OpWrite <$> chunks))).
  split.
  { rewrite output_redact. by rewrite stream_traceOf, written_chunks. }
  split; [done|]. split; [apply found_exact|].
  apply redact_no_needle; try done.
  intros u v Hw. apply (covered_in (mkRange (len u) (len u + len n))).
  - by apply (found_occurrence needles chunks n u v).
  - simpl. unfold len. destruct n; [done|]. simpl. lia.
Qed.

Lemma no_leak_witness :
  ∃ out rs,
    output REDACTED [bytes "SECRET"]
      ((OpWrite <$> [bytes "the SEC"; bytes "RET is safe"]) ++ [OpFlush])
    = Some out
    ∧ out = redact REDACTED (concat [bytes "the SEC"; bytes "RET is safe"]) rs
    ∧ (∀ x, x ∈ rs
            ↔ occurrence [bytes "SECRET"]
                (concat [bytes "the SEC"; bytes "RET is safe"]) x)
    ∧ ¬ occursIn (bytes "SECRET") out.
Proof.
  apply (no_leak REDACTED [bytes "SECRET"]
           [bytes "the SEC"; bytes "RET is safe"] (bytes "SECRET")).
  - apply list_elem_of_here.
  - done.
  - refine (bool_decide_unpack _ _). vm_compute. exact I.
Defined.

(** With the marker "[REDACTED]" and the needles "abcdef" and "x[RED", the
    stream "xabcdef" comes out as "x[REDACTED]": the byte before the match
    and the head of the marker make up the second needle. *)
Lemma marker_completes_needle :
  bytes "x[RED" ∈ [bytes "abcdef"; bytes "x[RED"]
  ∧ output REDACTED [bytes "abcdef"; bytes "x[RED"]
      [OpWrite (bytes "xabcdef"); OpFlush]
    = Some (bytes "x[REDACTED]")
  ∧ occursIn (bytes "x[RED") (bytes "x[REDACTED]").
Proof.
  split; [apply list_elem_of_further, list_elem_of_here|].
  split; [vm_compute; reflexivity|].
  by exists [], (bytes "ACTED]").
Qed.

(** ** Reset *)

(** Reset replaces the index and nothing else. *)
Lemma Reset_frame (r : Redactor) (needles : list (list byte)) :
  buf (Reset r needles) = buf r
  ∧ completedMatches (Reset r needles) = completedMatches r
  ∧ partialMatches (Reset r needles) = partialMatches r
  ∧ nextMatches (Reset r needles) = nextMatches r
  ∧ dst (Reset r needles) = dst r
  ∧ subst (Reset r needles) = subst r.
Proof. done. Qed.

(** The needles of the partial matches a scan leaves are needles of the
    index or of the partial matches it started with. *)
Lemma scanned_needles (idx : byte → list (list byte)) (N : list byte → Prop)
    (pos : Z) (b : list byte) (ps : list partialMatch) :
  (∀ c s, s ∈ idx c → N s) → (∀ s, s ∈ ps → N (needle s)) →
  ∀ s, s ∈ (scanned idx pos b ps).1 → N (needle s).
Proof.
  intros HN. revert pos ps.
  induction b as [|c b IH]; intros pos ps Hps s Hs; simpl in Hs.
  - by apply Hps.
  - apply (IH _ _) in Hs; [done|]. intros s' Hs'.
    apply elem_of_app in Hs' as [Hs'|Hs'].
    + apply kept_spec in Hs' as (s0 & Hs0 & _ & -> & _). by apply Hps.
    + apply started_spec in Hs' as [_ Hs']. by apply (HN c).
Qed.

(** [scanned_sound], telling where the needle starts: [N n p] allows the
    needle [n] at the position [p]. *)
Lemma scanned_sound_at (idx : byte → list (list byte))
    (N : list byte → Z → Prop) (b w : list byte) (ps : list partialMatch) :
  validIndex idx → (∀ c s p, s ∈ idx c → len w ≤ p → N s p) →
  Forall validPartial ps →
  (∀ s, s ∈ ps → N (needle s) (len w - matched s)
                 ∧ take (Z.to_nat (matched s)) (needle s) `suffix_of` w) →
  ∀ x, x ∈ (scanned idx (len w) b ps).2 →
       ∃ n u v, N n (len u) ∧ w ++ b = u ++ n ++ v
                ∧ x = mkRange (len u) (len u + len n).
Proof.
  intros Hi. revert w ps.
  induction b as [|c b IH]; intros w ps HN Hv Hps x Hx; simpl in Hx.
  - by apply elem_of_nil in Hx.
  - rewrite !elem_of_app in Hx. destruct Hx as [Hx|[Hx|Hx]].
    + apply list_elem_of_omap in Hx as (s & Hs & Heq).
      destruct (Hps s Hs) as [HNs Hsuf].
      rewrite Forall_forall in Hv. specialize (Hv s Hs).
      unfold validPartial in Hv.
      destruct (takes c s) eqn:Ht; simpl in Heq; [|done].
      case_bool_decide as Hlt; simpl in Heq; simplify_eq.
      destruct Hsuf as [u Hu].
      unfold takes in Ht. apply bool_decide_eq_true in Ht.
      unfold index in Ht. rewrite bool_decide_true in Ht by lia.
      assert (needle s = take (Z.to_nat (matched s)) (needle s) ++ [c]) as Hn.
      { rewrite <- (take_S_r _ _ _ Ht). symmetry. apply take_ge.
        unfold len in *. lia. }
      assert (len (take (Z.to_nat (matched s)) (needle s)) = matched s)
        as Hlt'.
      { unfold len in *. rewrite length_take. lia. }
      assert (len w - matched s = len u) as Hlu.
      { rewrite Hu at 1. rewrite len_app, Hlt'. lia. }
      exists (needle s), u, b. split; [by rewrite <- Hlu|]. split.
      * rewrite Hu, <- app_assoc. f_equal. rewrite Hn at 2.
        by rewrite <- app_assoc.
      * rewrite <- Hlu. f_equal; lia.
    + apply list_elem_of_omap in Hx as (s & Hs & Heq).
      case_bool_decide as H1; simplify_eq.
      pose proof (Hi c s Hs) as Hh. destruct s as [|c' [|? ?]];
        unfold len in H1; simpl in *; simplify_eq; try lia.
      exists [c], w, b. split; [apply (HN c); [done|lia]|]. by split.
    + assert (len w + 1 = len (w ++ [c])) as Hl.
      { rewrite len_app. unfold len. simpl. lia. }
      rewrite Hl in Hx. apply IH in Hx.
      * destruct Hx as (n & u & v & Hn & Hw & ->). exists n, u, v.
        split; [done|]. split; [|done]. rewrite <- Hw.
        by rewrite <- app_assoc.
      * intros c' s p Hs Hp. apply (HN c'); [done|lia].
      * apply Forall_app. split; [by apply kept_valid|].
        apply started_valid. intros s Hs. by eapply validIndex_nonEmpty.
      * intros s' Hs'. split.
        -- apply elem_of_app in Hs' as [Hs'|Hs'].
           ++ apply kept_spec in Hs' as (s & Hs & Hm & -> & _).
              rewrite Hm. replace (len (w ++ [c]) - (matched s + 1))
                with (len w - matched s) by lia.
              by apply Hps.
           ++ apply started_spec in Hs' as [Hm Hs']. rewrite Hm.
              apply (HN c); [done|lia].
        -- apply (scanned_suffix idx (len w) [c] w ps Hi Hv); [|done].
           intros s Hs. by apply Hps.
Qed.

(** A partial match goes on as long as the bytes of its needle come. *)
Lemma scanned_advances (idx : byte → list (list byte)) (pos : Z)
    (b : list byte) (ps : list partialMatch) (n : list byte) (m : Z) :
  mkPartial n m ∈ ps → 0 ≤ m → b `prefix_of` drop (Z.to_nat m) n →
  m + len b < len n →
  mkPartial n (m + len b) ∈ (scanned idx pos b ps).1.
Proof.
  revert pos ps m. induction b as [|c b IH]; intros pos ps m Hin Hm Hb Hlt.
  - simpl. unfold len. simpl. by rewrite Z.add_0_r.
  - destruct Hb as [k Hk]. simpl in Hk.
    destruct (drop_index n m c (b ++ k) Hm Hk) as (Hc & Hrest & _).
    assert (len (c :: b) = 1 + len b) as Hl by (unfold len; simpl; lia).
    simpl. rewrite Hl in *. rewrite Z.add_assoc. apply IH.
    + apply elem_of_app. left. apply kept_in; [done|done|].
      pose proof (Zle_0_nat (length b)). unfold len in *. lia.
    + lia.
    + rewrite Hrest. by exists k.
    + lia.
Qed.

(** A needle of the index whose first bytes end the bytes scanned is left
    as a partial match. *)
Lemma scanned_begun (idx : byte → list (list byte)) (pos : Z)
    (u n1 : list byte) (ps : list partialMatch) (n : list byte) (c : byte) :
  head n = Some c → n ∈ idx c → n1 ≠ [] → n1 `prefix_of` n →
  len n1 < len n →
  mkPartial n (len n1) ∈ (scanned idx pos (u ++ n1) ps).1.
Proof.
  intros Hc Hn Hne [k Hk] Hlt. rewrite scanned_app. simpl.
  destruct n1 as [|c' n1']; [done|].
  assert (c' = c) as -> by (rewrite Hk in Hc; simpl in Hc; congruence).
  simpl.
  assert (len (c :: n1') = 1 + len n1') as Hl by (unfold len; simpl; lia).
  rewrite Hl in *. apply scanned_advances.
  - apply elem_of_app. right. apply list_elem_of_omap. exists n.
    split; [done|]. rewrite bool_decide_false; [done|].
    pose proof (Zle_0_nat (length n1')). unfold len in *. lia.
  - lia.
  - rewrite Hk. simpl. by exists k.
  - lia.
Qed.

(** The ranges found when a Reset comes between the Write calls: the
    occurrences of the needles given first that start before the Reset, and
    the occurrences of the needles given to Reset that start after it. *)
Lemma found_exact_reset (needles needles' : list (list byte))
    (chunks1 chunks2 : list (list byte)) (x : subrange) :
  x ∈ found (traceOf needles
               ((OpWrite <$> chunks1)
                  ++ OpReset needles' :: (OpWrite <$> chunks2)))
  ↔ (occurrence needles (concat chunks1 ++ concat chunks2) x
     ∧ from x < len (concat chunks1))
    ∨ (occurrence needles' (concat chunks1 ++ concat chunks2) x
       ∧ len (concat chunks1) ≤ from x).
Proof.
  unfold traceOf. rewrite fold_left_app, observe_chunks. simpl.
  rewrite observe_chunks. simpl.
  set (w1 := concat chunks1). set (w2 := concat chunks2).
  set (idx := fold_left addNeedle needles (λ _, [])).
  set (idx' := fold_left addNeedle needles' (λ _, [])).
  change (len (@nil byte)) with 0.
  assert (validIndex idx) as Hidx.
  { apply addNeedle_valid. intros c s Hs. by apply elem_of_nil in Hs. }
  assert (validIndex idx') as Hidx'.
  { apply addNeedle_valid. intros c s Hs. by apply elem_of_nil in Hs. }
  pose proof (Zle_0_nat (length w1)) as Hw1. fold (len w1) in Hw1.
  rewrite elem_of_app. split.
  - intros [Hx|Hx].
    + left. change 0 with (len (@nil byte)) in Hx.
      apply (scanned_sound _ (λ n, n ∈ needles ∧ n ≠ [])) in Hx.
      * destruct Hx as (n & u & v & [Hn Hne] & Hw & ->). simpl in Hw.
        split.
        -- exists n, u, (v ++ w2). split; [done|]. split; [done|].
           split; [|done]. rewrite Hw. by rewrite <- !app_assoc.
        -- simpl. rewrite Hw, !len_app.
           pose proof (Zle_0_nat (length v)). destruct n; [done|].
           unfold len in *. simpl. lia.
      * done.
      * intros c s. apply fold_addNeedle_registered.
      * done.
      * intros s Hs. by apply elem_of_nil in Hs.
    + apply (scanned_sound_at _
               (λ n p, (n ∈ needles ∧ n ≠ [] ∧ p < len w1)
                       ∨ (n ∈ needles' ∧ n ≠ [] ∧ len w1 ≤ p))) in Hx.
      * destruct Hx as (n & u & v & [(Hn & Hne & Hp)|(Hn & Hne & Hp)] & Hw & ->).
        -- left. split; [by exists n, u, v|done].
        -- right. split; [by exists n, u, v|done].
      * done.
      * intros c s p Hs Hp. right.
        apply fold_addNeedle_registered in Hs as [? ?]. done.
      * by apply scanned_valid.
      * intros s Hs. split.
        -- left.
           pose proof (scanned_needles idx (λ n, n ∈ needles ∧ n ≠ []) 0 w1 []
                         (λ c s, fold_addNeedle_registered needles c s)
                         ltac:(by intros ? ?%elem_of_nil) s Hs) as [? ?].
           pose proof (scanned_valid idx 0 w1 [] Hidx ltac:(done)) as Hv.
           rewrite Forall_forall in Hv. specialize (Hv s Hs).
           unfold validPartial in Hv. split; [done|]. split; [done|lia].
        -- apply (scanned_suffix idx 0 w1 [] []); try done.
           intros s0 Hs0. by apply elem_of_nil in Hs0.
  - change (len (@nil byte)) with 0.
    intros [[(n & u & v & Hn & Hne & Hw & ->) Hp]
           |[(n & u & v & Hn & Hne & Hw & ->) Hp]]; simpl in Hp.
    + destruct (head n) as [c|] eqn:Hc; [|by destruct n].
      pose proof (addNeedle_registered needles (λ _, []) c n Hn Hc) as Hreg.
      apply app_eq_inv in Hw as [(k & Hw1' & Hk)|(k & Hu & Hk)]; cycle 1.
      { exfalso. rewrite Hu, len_app in Hp.
        pose proof (Zle_0_nat (length k)). unfold len in *. lia. }
      apply app_eq_inv in Hk as [(j & Hj & Hv)|(j & Hj & Hv)]; cycle 1.
      { (* the occurrence ends before the Reset *)
        left. pose proof (scanned_occurrence idx 0 u n j [] c Hc Hreg) as Hocc.
        rewrite !Z.add_0_l in Hocc. by rewrite Hw1', Hj. }
      destruct (decide (j = [])) as [->|Hj0].
      * left. rewrite app_nil_r in Hj.
        pose proof (scanned_occurrence idx 0 u n [] [] c Hc Hreg) as Hocc.
        rewrite !Z.add_0_l, app_nil_r in Hocc. by rewrite Hw1', <- Hj.
      * (* the occurrence is cut by the Reset *)
        right.
        assert (k ≠ []) as Hk0.
        { intros ->. rewrite app_nil_r in Hw1'. rewrite Hw1' in Hp. lia. }
        assert (len k < len n) as Hlt.
        { rewrite Hj, len_app. destruct j; [done|]. unfold len. simpl. lia. }
        pose proof (scanned_begun idx 0 u k [] n c Hc Hreg Hk0
                      ltac:(by exists j) Hlt) as Hb.
        rewrite <- Hw1' in Hb.
        assert (0 < len k) as Hk2.
        { destruct k; [done|]. unfold len. simpl. lia. }
        pose proof (scanned_completes idx' (len w1) w2 _ n (len k) v Hb
                      ltac:(lia)) as Hcm.
        replace (len w1 - len k) with (len u) in Hcm
          by (rewrite Hw1', len_app; lia).
        apply Hcm. rewrite Hv, Hj. unfold len. rewrite Nat2Z.id.
        by rewrite drop_app_length.
    + right. destruct (head n) as [c|] eqn:Hc; [|by destruct n].
      pose proof (addNeedle_registered needles' (λ _, []) c n Hn Hc) as Hreg.
      apply app_eq_inv in Hw as [(k & Hw1' & Hk)|(k & Hu & Hk)].
      * destruct (decide (k = [])) as [->|Hk0].
        { rewrite app_nil_r in Hw1'. simpl in Hk.
          pose proof (scanned_occurrence idx' (len w1) [] n v
                        (scanned idx 0 w1 []).1 c Hc Hreg) as Hocc.
          simpl in Hocc. change (len []) with 0 in Hocc.
          rewrite Z.add_0_r in Hocc. rewrite <- Hw1'. by rewrite <- Hk. }
        exfalso. rewrite Hw1', len_app in Hp.
        destruct k; [done|]. unfold len in Hp. simpl in Hp. lia.
      * pose proof (scanned_occurrence idx' (len w1) k n v
                      (scanned idx 0 w1 []).1 c Hc Hreg) as Hocc.
        rewrite Hu, len_app. by rewrite Hk.
Qed.

(** C7: Reset changes only the needle index of any state. When a Reset
    comes between the Write calls, in front of a sink that accepts every
    write, the output after the final Flush is the stream redacted by
    exactly these ranges: the occurrences of the needles given first whose
    first byte was written before the Reset, wherever they end, and the
    occurrences of the needles given to Reset whose first byte was written
    after it. So a needle cut by the Reset, begun before it and ended by
    the bytes written after it, is replaced by the marker, whatever the new
    needles are, and the bytes outside these ranges are passed through. *)
Theorem Reset_continuity (sb : list byte) (needles needles' : list (list byte))
    (chunks1 chunks2 : list (list byte)) :
  (∀ r : Redactor,
     buf (Reset r needles') = buf r
     ∧ completedMatches (Reset r needles') = completedMatches r
     ∧ partialMatches (Reset r needles') = partialMatches r
     ∧ nextMatches (Reset r needles') = nextMatches r
     ∧ dst (Reset r needles') = dst r
     ∧ subst (Reset r needles') = subst r)
  ∧ ∃ rs,
      output sb needles
        ((OpWrite <$> chunks1)
           ++ OpReset needles' :: (OpWrite <$> chunks2) ++ [OpFlush])
      = Some (redact sb (concat chunks1 ++ concat chunks2) rs)
      ∧ (∀ x, x ∈ rs
              ↔ (occurrence needles (concat chunks1 ++ concat chunks2) x
                 ∧ from x < len (concat chunks1))
                ∨ (occurrence needles' (concat chunks1 ++ concat chunks2) x
                   ∧ len (concat chunks1) ≤ from x))
      ∧ (∀ n u n1 n2 v,
           n ∈ needles → n = n1 ++ n2 → n1 ≠ [] →
           concat chunks1 = u ++ n1 → concat chunks2 = n2 ++ v →
           mkRange (len u) (len u + len n) ∈ rs).
Proof.
  split; [intros r; apply Reset_frame|].
  exists (found (traceOf needles
                   ((OpWrite <$> chunks1)
                      ++ OpReset needles' :: (OpWrite <$> chunks2)))).
  split; [|split; [apply found_exact_reset|]].
  - replace ((OpWrite <$> chunks1)
               ++ OpReset needles' :: (OpWrite <$> chunks2) ++ [OpFlush])
      with (((OpWrite <$> chunks1)
               ++ OpReset needles' :: (OpWrite <$> chunks2)) ++ [OpFlush])
      by by rewrite <- app_assoc.
    rewrite output_redact, stream_traceOf. do 2 f_equal.
    unfold written. rewrite fmap_app, concat_app, fmap_cons. simpl.
    f_equal; apply written_chunks.
  - intros n u n1 n2 v Hn Heq Hne H1 H2. apply found_exact_reset. left.
    split.
    + exists n, u, v. split; [done|]. split; [by subst n; destruct n1|].
      split; [|done]. rewrite H1, H2, Heq. by rewrite <- !app_assoc.
    + simpl. rewrite H1, len_app. destruct n1; [done|].
      unfold len. simpl. lia.
Qed.

(** The scenario of the specification: the needle "sekret" is cut by a
    Reset to other needles and is redacted all the same. *)
Example reset_scenario :
  output REDACTED [bytes "sekret"]
    [OpWrite (bytes "the sek"); OpReset [bytes "other"];
     OpWrite (bytes "ret is safe"); OpFlush]
  = Some (bytes "the [REDACTED] is safe").
Proof. vm_compute. reflexivity. Qed.

(** * Further properties of the redactor *)

(** ** The needle index *)

(** X1: after Reset the bucket of a byte lists, in the order given, exactly
    the needles that start with this byte: the old index is gone and an
    empty needle is in no bucket. *)
Theorem Reset_buckets (r : Redactor) (needles : list (list byte)) (c : byte) :
  needlesByFirstByte (Reset r needles) c
  = filter (λ s, head s = Some c) needles.
Proof. unfold Reset. simpl. by rewrite fold_addNeedle_bucket. Qed.

(** ** More on ranges and on the merger *)

(** X2: two ranges that are not empty overlap exactly when they share a
    position. *)
Theorem overlap_shared_position (r s : subrange) :
  nonEmpty r → nonEmpty s →
  (overlap r s = true ↔ ∃ p, contains r p = true ∧ contains s p = true).
Proof.
  unfold nonEmpty, overlap, contains. intros Hr Hs. split.
  - intros Ho. exists (Z.max (from r) (from s)). zcases.
  - intros (p & Hp & Hq). zcases.
Qed.

Lemma overlap_shared_position_witness :
  overlap (mkRange 2 8) (mkRange 4 10) = true
  ↔ ∃ p, contains (mkRange 2 8) p = true ∧ contains (mkRange 4 10) p = true.
Proof.
  apply (overlap_shared_position (mkRange 2 8) (mkRange 4 10)); reflexivity.
Defined.

(** X3: the union of two ranges that overlap holds the positions of the
    one and of the other, and no more; it does not depend on the order of
    the two. *)
Theorem union_of_overlapping (r s : subrange) (p : Z) :
  overlap r s = true →
  contains (union r s) p = contains r p || contains s p
  ∧ union r s = union s r.
Proof.
  unfold overlap, union, contains. intros H. split.
  - zcases.
  - destruct r as [fr tr], s as [fs ts]. simpl in *. zcases; f_equal; lia.
Qed.

Lemma union_of_overlapping_witness :
  contains (union (mkRange 2 8) (mkRange 4 10)) 9
  = contains (mkRange 2 8) 9 || contains (mkRange 4 10) 9
  ∧ union (mkRange 2 8) (mkRange 4 10) = union (mkRange 4 10) (mkRange 2 8).
Proof.
  apply (union_of_overlapping (mkRange 2 8) (mkRange 4 10) 9). reflexivity.
Defined.

Lemma mergeInto_length (revs : list subrange) (cur : subrange)
    (acc : list subrange) :
  (length acc < length (mergeInto revs cur acc)
   ≤ length revs + 1 + length acc)%nat.
Proof.
  revert cur acc. induction revs as [|x revs IH]; intros cur acc; simpl.
  - lia.
  - destruct (overlap cur x).
    + specialize (IH (union cur x) acc). lia.
    + specialize (IH x (cur :: acc)). simpl in IH. lia.
Qed.

(** X4: on any list whatever, sorted or not, mergeOverlaps stays inside the
    array, returns no more ranges than it was given, at least one when it
    was given one, and covers the same positions. *)
Theorem mergeOverlaps_any_list (rs : list subrange) :
  ∃ out,
    mergeOverlaps rs = Some out
    ∧ (length out ≤ length rs)%nat
    ∧ (out = [] ↔ rs = [])
    ∧ sameCover rs out.
Proof.
  exists (merged rs). split; [apply mergeOverlaps_merged|].
  split; [|split].
  - unfold merged. rewrite <- (length_reverse rs).
    destruct (reverse rs) as [|lst revs]; [done|].
    pose proof (mergeInto_length revs lst []). simpl in *. lia.
  - unfold merged. split.
    + intros Ho. destruct (reverse rs) as [|lst revs] eqn:Hr.
      * apply (f_equal reverse) in Hr. by rewrite reverse_involutive in Hr.
      * pose proof (mergeInto_length revs lst []) as Hl. rewrite Ho in Hl.
        simpl in Hl. lia.
    + by intros ->.
  - intros p. by rewrite covered_merged.
Qed.

Lemma chained_snoc (pre : list subrange) (x : subrange) :
  chained (pre ++ [x]) →
  chained pre ∧ ∀ y, last pre = Some y → to y ≤ from x.
Proof.
  induction pre as [|r pre IH]; [done|].
  intros [Hh Ht]. fold chained in Ht. apply IH in Ht as [Hs Hl].
  split.
  - split; [|done]. destruct pre; [done|]. done.
  - intros y Hy. destruct pre as [|s pre]; simpl in *.
    + by simplify_eq.
    + by apply Hl.
Qed.

Lemma mergeInto_chain (pre : list subrange) (cur : subrange)
    (acc : list subrange) :
  chained (pre ++ [cur]) → Forall nonEmpty (pre ++ [cur]) →
  mergeInto (reverse pre) cur acc = pre ++ cur :: acc.
Proof.
  revert cur acc. induction pre as [|x pre IH] using rev_ind;
    intros cur acc Hc Hn; [done|].
  rewrite reverse_snoc. simpl.
  apply chained_snoc in Hc as [Hc Hl].
  apply Forall_app in Hn as [Hn Hcur]. rewrite Forall_singleton in Hcur.
  specialize (Hl x (last_snoc _ _)).
  assert (nonEmpty x) as Hx.
  { apply Forall_app in Hn as [_ Hx]. by rewrite Forall_singleton in Hx. }
  assert (overlap cur x = false) as ->.
  { unfold nonEmpty, overlap, contains in *. zcases. }
  rewrite IH by done. by rewrite <- app_assoc.
Qed.

Lemma merged_chain (l : list subrange) :
  chained l → Forall nonEmpty l → merged l = l.
Proof.
  intros Hc Hl. unfold merged.
  destruct l as [|lst pre _] using rev_ind; [done|].
  rewrite reverse_snoc. by apply mergeInto_chain.
Qed.

(** X5: a chain of ranges that are not empty, each ending at or before the
    start of the next, comes back from mergeOverlaps as it is. *)
Theorem mergeOverlaps_fixed (rs : list subrange) :
  chained rs → Forall nonEmpty rs → mergeOverlaps rs = Some rs.
Proof.
  intros Hc Hn. rewrite mergeOverlaps_merged. f_equal. by apply merged_chain.
Qed.

Lemma mergeOverlaps_fixed_witness :
  mergeOverlaps [mkRange 2 8; mkRange 8 9; mkRange 10 12]
  = Some [mkRange 2 8; mkRange 8 9; mkRange 10 12].
Proof.
  apply (mergeOverlaps_fixed [mkRange 2 8; mkRange 8 9; mkRange 10 12]).
  - simpl. lia.
  - repeat constructor.
Defined.

(** X6: on ranges that are not empty and come ordered by their end, merging
    what mergeOverlaps returned changes nothing. *)
Theorem mergeOverlaps_idempotent (rs : list subrange) :
  Forall nonEmpty rs → sortedByTo rs →
  ∃ out, mergeOverlaps rs = Some out ∧ mergeOverlaps out = Some out.
Proof.
  intros Hn Hs. exists (merged rs). split; [apply mergeOverlaps_merged|].
  rewrite mergeOverlaps_merged. f_equal.
  destruct (merged_chained rs Hn Hs). by apply merged_chain.
Qed.

Lemma mergeOverlaps_idempotent_witness :
  ∃ out,
    mergeOverlaps [mkRange 2 8; mkRange 4 10; mkRange 10 12] = Some out
    ∧ mergeOverlaps out = Some out.
Proof.
  apply (mergeOverlaps_idempotent [mkRange 2 8; mkRange 4 10; mkRange 10 12]).
  - repeat constructor.
  - simpl. lia.
Defined.

(** ** More on the redacted stream *)

(** The redacted stream depends on the ranges only through the set they
    make. *)
Lemma redact_same_ranges (sb w : list byte) (rs rs' : list subrange) :
  (∀ x, x ∈ rs ↔ x ∈ rs') → redact sb w rs = redact sb w rs'.
Proof.
  intros Hrs. unfold redact.
  transitivity (pieces sb w rs' (0 + 0) (len w + 0));
    [|by rewrite !Z.add_0_r].
  apply pieces_ext. intros p _. rewrite Z.add_0_r. unfold piece.
  assert (∀ f : subrange → bool, existsb f rs = existsb f rs') as Hex.
  { intros f. apply eq_true_iff_eq. rewrite !existsb_exists.
    split; intros (x & Hx & Hf); exists x; (split; [|done]);
      apply list_elem_of_In; apply Hrs; by apply list_elem_of_In. }
  unfold covered, joined. by rewrite !Hex.
Qed.

(** X7: in front of a sink that accepts every write, the output after the
    final Flush is the stream redacted by exactly the occurrences of the
    registered needles that are not empty: every occurrence is covered, and
    nothing else is. *)
Theorem redaction_exact (sb : list byte) (needles : list (list byte))
    (chunks : list (list byte)) :
  ∃ rs,
    output sb needles ((OpWrite <$> chunks) ++ [OpFlush])
    = Some (redact sb (concat chunks) rs)
    ∧ ∀ x, x ∈ rs ↔ occurrence needles (concat chunks) x.
Proof.
  exists (found (traceOf needles (OpWrite <$> chunks))). split.
  - rewrite output_redact. by rewrite stream_traceOf, written_chunks.
  - apply found_exact.
Qed.

Lemma redact_nothing (sb w : list byte) : redact sb w [] = w.
Proof.
  unfold redact. rewrite pieces_passthrough; [|done|done|done].
  rewrite Z.sub_0_r. simpl. apply take_ge. unfold len. lia.
Qed.

(** X8: a stream in which no registered needle occurs reaches the sink
    unchanged, however it is cut into chunks. *)
Theorem clean_stream_unchanged (sb : list byte) (needles : list (list byte))
    (chunks : list (list byte)) :
  (∀ n, n ∈ needles → n ≠ [] → ¬ occursIn n (concat chunks)) →
  output sb needles ((OpWrite <$> chunks) ++ [OpFlush])
  = Some (concat chunks).
Proof.
  intros Hclean. rewrite output_redact.
  rewrite stream_traceOf, written_chunks. f_equal.
  transitivity (redact sb (concat chunks) []); [|apply redact_nothing].
  apply redact_same_ranges. intros x. rewrite found_exact. split.
  - intros (n & u & v & Hn & Hne & Hw & _). exfalso.
    apply (Hclean n Hn Hne). by exists u, v.
  - intros Hx. by apply elem_of_nil in Hx.
Qed.

Lemma clean_stream_unchanged_witness :
  output REDACTED [bytes "sekret"] ((OpWrite <$> [bytes "h"; bytes "i"]) ++ [OpFlush])
  = Some (concat [bytes "h"; bytes "i"]).
Proof.
  apply (clean_stream_unchanged REDACTED [bytes "sekret"] [bytes "h"; bytes "i"]).
  intros n Hn _ (u & v & Heq). apply list_elem_of_singleton in Hn. subst n.
  apply (f_equal length) in Heq. rewrite !length_app in Heq. simpl in Heq. lia.
Defined.

(** X9: the output depends on the needles only through the set they make:
    their order, and a needle given twice, change nothing. *)
Theorem needle_order_irrelevant (sb : list byte)
    (needles needles' : list (list byte)) (chunks : list (list byte)) :
  (∀ n, n ∈ needles ↔ n ∈ needles') →
  output sb needles ((OpWrite <$> chunks) ++ [OpFlush])
  = output sb needles' ((OpWrite <$> chunks) ++ [OpFlush]).
Proof.
  intros Hsame. rewrite !output_redact.
  rewrite !stream_traceOf, !written_chunks. f_equal.
  apply redact_same_ranges. intros x. rewrite !found_exact.
  unfold occurrence. split; intros (n & u & v & Hn & Hrest);
    exists n, u, v; (split; [by apply Hsame|done]).
Qed.

Lemma needle_order_irrelevant_witness :
  output REDACTED [bytes "abc"; bytes "bcd"]
    ((OpWrite <$> [bytes "xab"; bytes "cdx"]) ++ [OpFlush])
  = output REDACTED [bytes "bcd"; bytes "abc"; bytes "bcd"]
      ((OpWrite <$> [bytes "xab"; bytes "cdx"]) ++ [OpFlush]).
Proof.
  apply (needle_order_irrelevant REDACTED [bytes "abc"; bytes "bcd"]
           [bytes "bcd"; bytes "abc"; bytes "bcd"] [bytes "xab"; bytes "cdx"]).
  intros n. rewrite !elem_of_cons, !elem_of_nil. tauto.
Defined.

(** ** A flushed redactor *)

Lemma run_app (r : Redactor) (ops1 ops2 : list op) :
  run r (ops1 ++ ops2) = r' ← run r ops1; run r' ops2.
Proof.
  revert r. induction ops1 as [|o ops1 IH]; intros r; simpl; [done|].
  destruct (call r o); simpl; [apply IH|done].
Qed.

(** [tracks_run], with the index the calls leave. *)
Lemma tracks_run_index (out0 : list byte) (ops : list op) (t : Trace)
    (r : Redactor) (base : Z) :
  tracks out0 t r base →
  ∃ r' base',
    run r ops = Some r'
    ∧ subst r' = subst r
    ∧ needlesByFirstByte r' = (fold_left observe ops (t, needlesByFirstByte r)).2
    ∧ tracks out0 (fold_left observe ops (t, needlesByFirstByte r)).1 r' base'.
Proof.
  revert t r base. induction ops as [|o ops IH]; intros t r base Ht.
  - exists r, base. done.
  - destruct (tracks_call _ _ _ _ o Ht) as (r1 & base1 & Hc & Hsb & Hix & Ht1 & _).
    destruct (IH _ _ _ Ht1) as (r' & base' & Hr & Hsb' & Hix' & Ht').
    exists r', base'. simpl. rewrite Hc. simpl. split; [done|].
    split; [congruence|]. rewrite Hix in Ht', Hix'.
    by destruct (observe (t, needlesByFirstByte r) o).
Qed.

(** Once the buffer starts at the end of the stream and no partial match is
    alive, the redactor holds nothing. *)
Lemma tracks_drained (out0 : list byte) (t : Trace) (r : Redactor) :
  tracks out0 t r (len (stream t)) → pending t = [] →
  r = mkRedactor (subst r) (needlesByFirstByte r)
        (mkSink (received (dst r)) []) [] [] [] [].
Proof.
  intros [_ Hbuf Hpart Hnext Hscript _ _ Hpend _ _ _ _ _ _] Hp.
  assert (buf r = []) as Hb.
  { rewrite Hbuf. unfold len. rewrite Nat2Z.id. apply drop_all. }
  assert (completedMatches r = []) as Hc.
  { rewrite Hb in Hpend. destruct (completedMatches r) as [|m ms]; [done|].
    apply Forall_cons in Hpend as [[_ ?] _]. unfold len in *. simpl in *. lia. }
  destruct r as [sb idx [rc sc] bf ps nx cm]. clear Hbuf. simpl in *. congruence.
Qed.

(** A drained redactor follows the stream written from now on as a fresh one
    does, in front of what the sink holds. *)
Lemma tracks_restart (out0 : list byte) (t : Trace) (r : Redactor) :
  tracks out0 t r (len (stream t)) → pending t = [] →
  tracks (received (dst r)) (mkTrace [] [] []) r 0.
Proof.
  intros Ht Hp. pose proof (tracks_drained _ _ _ Ht Hp) as Hr.
  destruct Ht as [_ _ _ _ _ _ _ _ _ _ _ Hidx _ _]. rewrite Hr.
  split; simpl; try done.
  - by rewrite pieces_nil, app_nil_r.
  - intros s p Hs. by apply elem_of_nil in Hs.
  - intros s Hs. by apply elem_of_nil in Hs.
Qed.

(** X10: in front of a sink that accepts every write, whatever calls came
    before, a Flush leaves the redactor holding nothing: no buffered byte,
    no partial match and no pending range; only the marker, the index and
    the sink remain. *)
Theorem Flush_drains (sb : list byte) (needles : list (list byte))
    (ops : list op) :
  ∃ idx out,
    run (New quiet sb needles) (ops ++ [OpFlush])
    = Some (mkRedactor sb idx (mkSink out []) [] [] [] []).
Proof.
  destruct (tracks_run [] ops _ _ _ (tracks_New sb needles))
    as (r1 & base1 & Hr & Hsb & Ht).
  destruct (tracks_Flush _ _ _ _ Ht) as (r' & Hf & _ & Hsb' & Ht').
  exists (needlesByFirstByte r'), (received (dst r')).
  rewrite run_app, Hr. simpl. rewrite Hf. simpl. f_equal.
  rewrite (tracks_drained _ _ _ Ht' eq_refl) at 1. rewrite Hsb', Hsb. done.
Qed.

(** X11: a Flush between two runs of calls separates two streams: what the
    sink holds in the end is the output of the Write calls before it
    followed by the output of the calls after it, each redacted on its
    own. *)
Theorem Flush_separates (sb : list byte) (needles : list (list byte))
    (chunks : list (list byte)) (ops : list op) :
  ∃ out1 out2,
    output sb needles ((OpWrite <$> chunks) ++ [OpFlush]) = Some out1
    ∧ output sb needles (ops ++ [OpFlush]) = Some out2
    ∧ output sb needles
        (((OpWrite <$> chunks) ++ [OpFlush]) ++ (ops ++ [OpFlush]))
      = Some (out1 ++ out2).
Proof.
  eexists _, _. split; [apply output_redact|]. split; [apply output_redact|].
  unfold output.
  destruct (tracks_run_index [] (OpWrite <$> chunks) _ _ _ (tracks_New sb needles))
    as (r1 & base1 & Hr1 & Hsb1 & Hix1 & Ht1).
  rewrite observe_chunks in Hix1, Ht1. simpl in Hix1, Ht1.
  destruct (tracks_Flush _ _ _ _ Ht1) as (r2 & Hf2 & Hix2 & Hsb2 & Ht2).
  pose proof (tracks_restart _ _ _ Ht2 eq_refl) as Ht2'.
  destruct (tracks_run_index _ ops _ _ _ Ht2')
    as (r3 & base3 & Hr3 & Hsb3 & Hix3 & Ht3).
  destruct (tracks_Flush _ _ _ _ Ht3) as (r4 & Hf4 & Hix4 & Hsb4 & Ht4).
  rewrite run_app, run_app, Hr1. simpl. rewrite Hf2. simpl.
  rewrite run_app, Hr3. simpl. rewrite Hf4. simpl. f_equal.
  destruct Ht4 as [_ _ _ _ _ Hrc _ _ _ _ _ _ _ _]. rewrite Hrc.
  destruct Ht2 as [_ _ _ _ _ Hrc2 _ _ _ _ _ _ _ _]. rewrite Hrc2. simpl.
  unfold redact, traceOf. rewrite observe_chunks. simpl.
  rewrite Hix2, Hix1, Hsb4, Hsb3, Hsb2, Hsb1. done.
Qed.

(** ** Sinks that fail *)

(** The loop of flushUpTo sees the sink only through the outcome of its
    writes: in front of any sink it stops at an error, or ends where it ends
    in front of a sink that accepts every write. *)
Lemma flushLoop_any (sb bf : list byte) (limit : Z) (ms : list subrange)
    (ri bufidx dn : Z) (q d q' : Sink) (x : Z * Z) :
  script q = [] →
  flushLoop sb bf limit ms ri bufidx dn q = Some (q', inr x) →
  script q' = []
  ∧ ∃ d', (∃ e, flushLoop sb bf limit ms ri bufidx dn d = Some (d', inl e))
          ∨ flushLoop sb bf limit ms ri bufidx dn d = Some (d', inr x).
Proof.
  revert ri bufidx dn q d.
  induction ms as [|m ms IH]; intros ri bufidx dn q d Hq H; cbn [flushLoop] in *.
  - simplify_eq. split; [done|]. exists d. by right.
  - case_bool_decide.
    { simplify_eq. split; [done|]. exists d. by right. }
    case_bool_decide; [|case_bool_decide].
    + destruct (slice bf bufidx (from m)) as [p|]; [|done].
      cbn [mbind option_bind] in *.
      rewrite sink_Write_quiet in H by done.
      rewrite sink_Write_quiet in H by done.
      destruct (sink_Write d p) as [d1 [e|]]; [split|].
      * eapply proj1, (IH _ _ _ _ d); [|exact H]. done.
      * exists d1. left. by exists e.
      * destruct (sink_Write d1 sb) as [d2 [e|]]; [split|].
        -- eapply proj1, (IH _ _ _ _ d); [|exact H]. done.
        -- exists d2. left. by exists e.
        -- by apply (IH _ _ _ _ d2) in H.
    + rewrite sink_Write_quiet in H by done.
      destruct (sink_Write d sb) as [d2 [e|]]; [split|].
      * eapply proj1, (IH _ _ _ _ d); [|exact H]. done.
      * exists d2. left. by exists e.
      * by apply (IH _ _ _ _ d2) in H.
    + by apply (IH _ _ _ _ d) in H.
Qed.

(** The same for flushUpTo: in front of any sink it returns an error and
    keeps its state, or leaves what it leaves in front of a sink that
    accepts every write. *)
Lemma flushUpTo_any (r : Redactor) (q : Sink) (limit : Z) (rq : Redactor) :
  script q = [] →
  flushUpTo (set_dst r q) limit = Some (rq, None) →
  ∃ d', (∃ e, flushUpTo r limit = Some (set_dst r d', Some e))
        ∨ flushUpTo r limit = Some (set_dst rq d', None).
Proof.
  intros Hq. unfold flushUpTo. cbn [set_dst buf completedMatches subst dst].
  case_bool_decide.
  { intros [= <-]. exists (dst r). right. by destruct r. }
  destruct (flushLoop _ _ _ _ _ _ _ q) as [[q1 [e|[bufidx dn]]]|] eqn:Hl;
    cbn [mbind option_bind]; [done| |done].
  destruct (flushLoop_any _ _ _ _ _ _ _ q (dst r) _ _ Hq Hl)
    as [Hq1 (d1 & [(e & ->)| ->])]; cbn [mbind option_bind].
  { intros _. exists d1. left. by exists e. }
  case_bool_decide.
  - destruct (slice (buf r) bufidx limit) as [p|]; cbn [mbind option_bind];
      [|done].
    rewrite sink_Write_quiet by done.
    destruct (sink_Write d1 p) as [d2 [e|]].
    { intros _. exists d2. left. by exists e. }
    case_bool_decide.
    + intros [= <-]. exists d2. by right.
    + destruct (slice_from (buf r) limit) as [b|]; cbn [mbind option_bind];
        [|done].
      destruct (slice_from (completedMatches r) (dn + 1)) as [rest|];
        cbn [mbind option_bind]; [|done].
      intros [= <-]. exists d2. by right.
  - cbn [mbind option_bind]. case_bool_decide.
    + intros [= <-]. exists d1. by right.
    + destruct (slice_from (buf r) bufidx) as [b|]; cbn [mbind option_bind];
        [|done].
      destruct (slice_from (completedMatches r) (dn + 1)) as [rest|];
        cbn [mbind option_bind]; [|done].
      intros [= <-]. exists d1. by right.
Qed.

Lemma wellFormed_set_dst (r : Redactor) (d : Sink) :
  wellFormed r → wellFormed (set_dst r d).
Proof. done. Qed.

(** flushUpTo never panics on a well-formed state, whatever the sink does,
    and leaves a well-formed state. *)
Lemma flushUpTo_wellFormed (r : Redactor) (limit : Z) :
  wellFormed r → limit ≤ len (buf r) →
  ∃ r' e, flushUpTo r limit = Some (r', e) ∧ wellFormed r'
          ∧ partialMatches r' = partialMatches r.
Proof.
  intros (Hnx & Hix & Hpm & Hch & Hpd) Hlim.
  destruct (flushUpTo_quiet (set_dst r quiet) limit)
    as (c & rq & Hf & _ & _ & _ & _ & Hix' & Hpm' & Hnx' & _ & _ & Hch' & Hpd' & _);
    try done.
  destruct (flushUpTo_any r quiet limit rq eq_refl Hf)
    as (d' & [(e & ->)| ->]).
  - exists (set_dst r d'), (Some e). done.
  - exists (set_dst rq d'), None. split; [done|]. split; [|done].
    repeat split; simpl; try done.
    + by rewrite Hnx'.
    + by rewrite Hix'.
    + by rewrite Hpm'.
Qed.

(** The first three steps of Write never panic on a well-formed state. *)
Lemma absorb_wellFormed (r : Redactor) (b : list byte) :
  wellFormed r → ∃ r1, absorb r b = Some r1 ∧ wellFormed r1.
Proof.
  intros (Hnx & Hix & Hpm & Hch & Hpd).
  unfold absorb. rewrite scan_spec by done. cbn [mbind option_bind].
  cbn [completedMatches set_buf needlesByFirstByte partialMatches].
  rewrite mergeOverlaps_merged. cbn [mbind option_bind].
  eexists. split; [done|].
  set (X := (scanned (needlesByFirstByte r) (0 + len (buf r)) b
               (partialMatches r)).2).
  assert (∀ x, x ∈ X →
            from x < to x ∧ len (buf r) < to x ≤ len (buf r) + len b) as HX.
  { intros x Hx. apply scanned_ranges in Hx; [|done..]. lia. }
  pose proof (Zle_0_nat (length b)) as Hlb. fold (len b) in Hlb.
  pose proof (Zle_0_nat (length (buf r))) as Hlr. fold (len (buf r)) in Hlr.
  assert (Forall (pendingRange (len (buf r ++ b))) (completedMatches r ++ X))
    as Hpd'.
  { rewrite len_app. apply Forall_app. split.
    - eapply Forall_impl; [exact Hpd|]. unfold pendingRange. intros m ?. lia.
    - apply Forall_forall. intros x Hx. destruct (HX x Hx).
      unfold pendingRange. lia. }
  destruct (merged_chained (completedMatches r ++ X)) as [Hch' Hne'].
  { by apply (pendingRange_nonEmpty (len (buf r ++ b))). }
  { apply (sortedByTo_app _ _ (len (buf r))).
    - apply chained_sortedByTo; [done|].
      by apply (pendingRange_nonEmpty (len (buf r))).
    - by apply scanned_sorted.
    - eapply Forall_impl; [exact Hpd|]. unfold pendingRange. intros m ?. lia.
    - apply Forall_forall. intros x Hx. destruct (HX x Hx). lia. }
  repeat split; simpl; try done.
  - by apply scanned_valid.
  - apply Forall_forall. intros m Hm.
    pose proof (merged_to (λ z, 0 < z ≤ len (buf r ++ b)) _
                  ltac:(eapply Forall_impl; [exact Hpd'|];
                        by intros ? [_ ?])) as Hto.
    rewrite Forall_forall in Hne', Hto. split; [by apply Hne'|by apply Hto].
Qed.

Lemma Write_wellFormed (r : Redactor) (b : list byte) :
  wellFormed r → ∃ x, Write r b = Some x ∧ wellFormed x.1.1.
Proof.
  intros Hr. unfold Write. case_bool_decide; [by eexists|].
  destruct (absorb_wellFormed r b Hr) as (r1 & -> & Hr1).
  cbn [mbind option_bind].
  destruct (flushUpTo_wellFormed r1 (flushLimit r1) Hr1 (flushLimit_le r1))
    as (r' & e & -> & Hr' & _).
  cbn [mbind option_bind]. destruct e; by eexists.
Qed.

Lemma Flush_wellFormed (r : Redactor) :
  wellFormed r → ∃ x, Flush r = Some x ∧ wellFormed x.1.
Proof.
  intros (Hnx & Hix & Hpm & Hch & Hpd). unfold Flush.
  destruct (flushUpTo_wellFormed (set_partialMatches r [])
              (len (buf (set_partialMatches r []))))
    as (r' & e & -> & Hr' & _); [by repeat split|done|].
  by eexists.
Qed.

Lemma Reset_wellFormed (r : Redactor) (needles : list (list byte)) :
  wellFormed r → wellFormed (Reset r needles).
Proof.
  intros (Hnx & Hix & Hpm & Hch & Hpd). repeat split; try done.
  apply addNeedle_valid. intros c s Hs. by apply elem_of_nil in Hs.
Qed.

Lemma New_wellFormed (d : Sink) (sb : list byte) (needles : list (list byte)) :
  wellFormed (New d sb needles).
Proof.
  apply Reset_wellFormed. repeat split; try done.
  intros c s Hs. by apply elem_of_nil in Hs.
Qed.

(** X12: no sequence of calls makes the redactor panic, whatever the sink
    does: in front of a sink that fails at any of its writes, after taking
    any part of the bytes, and with the calls going on after an error,
    every call returns and leaves a well-formed state. *)
Theorem never_panics (d : Sink) (sb : list byte) (needles : list (list byte))
    (ops : list op) :
  ∃ r, run (New d sb needles) ops = Some r ∧ wellFormed r.
Proof.
  pose proof (New_wellFormed d sb needles) as Hr. revert Hr.
  generalize (New d sb needles).
  induction ops as [|o ops IH]; intros r Hr; [by exists r|].
  simpl. destruct o as [b|ns|]; simpl.
  - destruct (Write_wellFormed r b Hr) as (x & -> & Hx). simpl. by apply IH.
  - by apply IH, Reset_wellFormed.
  - destruct (Flush_wellFormed r Hr) as (x & -> & Hx). simpl. by apply IH.
Qed.

Lemma flushUpTo_error (r r' : Redactor) (limit : Z) (e : error) :
  flushUpTo r limit = Some (r', Some e) → r' = set_dst r (dst r').
Proof.
  unfold flushUpTo. intros H.
  repeat (case_bool_decide || case_match || simplify_option_eq); done.
Qed.

(** X13: a Write that returns an error of the sink leaves the whole chunk
    in the buffer, behind the bytes held before, with the matches found in
    it: nothing is dropped, whatever part the sink took and whatever count
    is returned. *)
Theorem Write_error_keeps_chunk (r r' : Redactor) (b : list byte) (n : Z)
    (e : error) :
  Write r b = Some (r', n, Some e) →
  ∃ r1, absorb r b = Some r1
        ∧ r' = set_dst r1 (dst r')
        ∧ buf r' = buf r ++ b
        ∧ n = flushLimit r' - len (buf r).
Proof.
  unfold Write. intros H. case_bool_decide; [by simplify_eq|].
  destruct (absorb r b) as [r1|] eqn:Ha; simpl in H; [|done].
  destruct (flushUpTo r1 _) as [[r2 [e'|]]|] eqn:Hf; simpl in H; simplify_eq.
  apply flushUpTo_error in Hf. exists r1. split; [done|]. split; [done|].
  rewrite Hf. split; [simpl; by apply absorb_buf|done].
Qed.

Lemma Write_error_keeps_chunk_witness :
  ∃ r1, absorb (New faulty REDACTED []) (bytes "hello") = Some r1
        ∧ heldFaulted = set_dst r1 (dst heldFaulted)
        ∧ buf heldFaulted = buf (New faulty REDACTED []) ++ bytes "hello"
        ∧ 5 = flushLimit heldFaulted - len (buf (New faulty REDACTED [])).
Proof.
  apply (Write_error_keeps_chunk (New faulty REDACTED []) heldFaulted
           (bytes "hello") 5 7%nat).
  reflexivity.
Defined.

(** X14: a Flush that failed is made again in full: when the sink accepts
    every write from then on, the next Flush succeeds and hands it the
    whole buffer in redacted form, from its first byte, after what the sink
    took during the failed call. *)
Theorem Flush_retry_resends (r r1 : Redactor) (e : error) :
  wellFormed r →
  Flush r = Some (r1, Some e) →
  script (dst r1) = [] →
  ∃ r2, Flush r1 = Some (r2, None)
        ∧ buf r2 = [] ∧ completedMatches r2 = []
        ∧ received (dst r2)
          = received (dst r1)
              ++ redact (subst r) (buf r) (completedMatches r).
Proof.
  intros (Hnx & Hix & Hpm & Hch & Hpd) Hf Hs. unfold Flush in *.
  apply flushUpTo_error in Hf. cbn [buf set_partialMatches] in Hf.
  destruct (flushUpTo_quiet (set_partialMatches r1 [])
              (len (buf (set_partialMatches r1 []))))
    as (c & r2 & Hf2 & Hc & Hlc & Hbuf & Hsb & _ & _ & _ & _ & Hrc & _ & Hpd2 & _).
  - done.
  - by rewrite Hf.
  - by rewrite Hf.
  - done.
  - exists r2. split; [done|].
    assert (c = len (buf r)) as -> by (rewrite Hf in Hc, Hlc; simpl in *; lia).
    assert (buf r2 = []) as Hb2.
    { rewrite Hbuf, Hf. simpl. unfold len. rewrite Nat2Z.id. apply drop_all. }
    split; [done|]. split.
    + rewrite Hb2 in Hpd2. destruct (completedMatches r2) as [|m ms]; [done|].
      apply Forall_cons in Hpd2 as [[_ ?] _]. unfold len in *. simpl in *. lia.
    + rewrite Hrc, Hf. done.
Qed.

Lemma Flush_retry_resends_witness :
  ∃ r2, Flush heldFaulted = Some (r2, None)
        ∧ buf r2 = [] ∧ completedMatches r2 = []
        ∧ received (dst r2)
          = received (dst heldFaulted)
              ++ redact (subst heldFaulty) (buf heldFaulty)
                   (completedMatches heldFaulty).
Proof.
  apply (Flush_retry_resends heldFaulty heldFaulted 7%nat).
  - repeat split; try done. intros c s Hs. by apply elem_of_nil in Hs.
  - reflexivity.
  - reflexivity.
Defined.

(** ** The values to redact *)

Section ValuesFacts.

Variable path_Match : string → string → option bool.




End ValuesFacts.

(** ** Mux *)

Lemma omap_ext_in {A B} (f g : A → option B) (l : list A) :
  (∀ x, x ∈ l → f x = g x) → omap f l = omap g l.
Proof.
  induction l as [|a l IH]; intros H; [done|]. csimpl.
  rewrite (H a) by apply list_elem_of_here.
  rewrite IH; [done|]. intros x Hx. apply H. by apply list_elem_of_further.
Qed.

Lemma Mux_Flush_loop_spec (h : store) (mux : Mux) (errs : list error) :
  NoDup mux →
  Forall (λ p, ∃ r, h !! p = Some r ∧ wellFormed r) mux →
  ∃ h', Mux_Flush_loop h mux errs = Some (h', errs ++ omap (flushError h) mux)
        ∧ (∀ q, q ∉ mux → h' !! q = h !! q)
        ∧ (∀ p r, p ∈ mux → h !! p = Some r →
                  ∃ x, Flush r = Some x ∧ h' !! p = Some x.1).
Proof.
  revert h errs. induction mux as [|p mux IH]; intros h errs Hnd Hall.
  - exists h. simpl. rewrite app_nil_r. split; [done|]. split; [done|].
    intros p r Hp. by apply elem_of_nil in Hp.
  - apply NoDup_cons in Hnd as [Hp Hnd].
    apply Forall_cons in Hall as [(r & Hr & Hwf) Hall].
    destruct (Flush_wellFormed r Hwf) as (x & Hx & Hwf').
    cbn [Mux_Flush_loop]. rewrite Hr. cbn [mbind option_bind].
    rewrite Hx. cbn [mbind option_bind].
    destruct (IH (<[p := x.1]> h)
                (match x.2 with Some err => errs ++ [err] | None => errs end)
                Hnd) as (h' & Hl & Hframe & Hmem).
    { apply Forall_forall. intros q Hq. rewrite Forall_forall in Hall.
      destruct (Hall q Hq) as (rq & Hrq & Hwq). exists rq.
      rewrite lookup_insert_ne; [done|]. intros ->. done. }
    exists h'. split; [|split].
    + rewrite Hl. do 2 f_equal. csimpl. unfold flushError at 2.
      rewrite Hr. cbn [mbind option_bind]. rewrite Hx. cbn [mbind option_bind].
      rewrite (omap_ext_in (flushError (<[p:=x.1]> h)) (flushError h)).
      * destruct x.2; [by rewrite <- app_assoc|done].
      * intros q Hq. unfold flushError. rewrite lookup_insert_ne; [done|].
        intros ->. done.
    + intros q Hq. apply not_elem_of_cons in Hq as [Hne Hq].
      rewrite Hframe by done. by rewrite lookup_insert_ne.
    + intros q rq Hq Hrq. apply elem_of_cons in Hq as [->|Hq].
      * exists x. rewrite Hframe by done. rewrite lookup_insert_eq.
        split; [congruence|done].
      * apply Hmem; [done|]. rewrite lookup_insert_ne; [done|].
        intros ->. done.
Qed.

(** X16: Mux.Flush flushes every redactor of the mux, also after one of
    them failed: for a mux of distinct well-formed redactors it never
    panics, leaves each redactor as Flush alone leaves it, leaves the
    redactors outside the mux alone, and returns the errors of the
    redactors that failed, in the order of the mux, or nil when none
    failed. *)
Theorem Mux_Flush_all (h : store) (mux : Mux) :
  NoDup mux →
  Forall (λ p, ∃ r, h !! p = Some r ∧ wellFormed r) mux →
  ∃ h',
    Mux_Flush h mux
    = Some (h', if bool_decide (omap (flushError h) mux = []) then None
                else Some (omap (flushError h) mux))
    ∧ (∀ q, q ∉ mux → h' !! q = h !! q)
    ∧ (∀ p r, p ∈ mux → h !! p = Some r →
              ∃ x, Flush r = Some x ∧ h' !! p = Some x.1).
Proof.
  intros Hnd Hall.
  destruct (Mux_Flush_loop_spec h mux [] Hnd Hall) as (h' & Hl & Hframe & Hmem).
  exists h'. split; [|done]. unfold Mux_Flush. rewrite Hl. simpl. do 2 f_equal.
  destruct (omap (flushError h) mux); [done|].
  rewrite bool_decide_true, bool_decide_false; [done|done|].
  unfold len. simpl. lia.
Qed.

Lemma Mux_Flush_all_witness :
  ∃ h',
    Mux_Flush {[ 1%nat := heldFaulty; 2%nat := heldQuiet ]} [1%nat; 2%nat]
    = Some (h',
            if bool_decide
                 (omap (flushError {[ 1%nat := heldFaulty; 2%nat := heldQuiet ]})
                    [1%nat; 2%nat] = [])
            then None
            else Some (omap (flushError
                               {[ 1%nat := heldFaulty; 2%nat := heldQuiet ]})
                         [1%nat; 2%nat]))
    ∧ (∀ q, q ∉ [1%nat; 2%nat] →
            h' !! q
            = ({[ 1%nat := heldFaulty; 2%nat := heldQuiet ]} : store) !! q)
    ∧ (∀ p r, p ∈ [1%nat; 2%nat] →
              ({[ 1%nat := heldFaulty; 2%nat := heldQuiet ]} : store) !! p
              = Some r →
              ∃ x, Flush r = Some x ∧ h' !! p = Some x.1).
Proof.
  apply (Mux_Flush_all {[ 1%nat := heldFaulty; 2%nat := heldQuiet ]}
           [1%nat; 2%nat]).
  - apply NoDup_cons. split; [|apply NoDup_singleton].
    intros H. apply list_elem_of_singleton in H. lia.
  - assert (∀ d, wellFormed (mkRedactor REDACTED (λ _, []) d (bytes "hello")
                               [] [] [])) as Hwf.
    { intros d. repeat split; try done. intros c s Hs.
      by apply elem_of_nil in Hs. }
    repeat constructor.
    + exists heldFaulty. split; [done|apply Hwf].
    + exists heldQuiet. split; [done|apply Hwf].
Defined.

(** X17: Mux.Reset gives every redactor of the mux the index of the new
    needles and nothing else: when every pointer of the mux is held by the
    store it never panics, a redactor listed in the mux, once or several
    times, is left as one Reset leaves it, and a redactor outside the mux
    is left alone. *)
Theorem Mux_Reset_all (h : store) (mux : Mux) (needles : list (list byte)) :
  Forall (λ p, is_Some (h !! p)) mux →
  ∃ h', Mux_Reset h mux needles = Some h'
        ∧ ∀ p, h' !! p
               = if bool_decide (p ∈ mux)
                 then (λ r, Reset r needles) <$> h !! p
                 else h !! p.
Proof.
  revert h. induction mux as [|p mux IH]; intros h Hall.
  - exists h. split; [done|]. intros p. rewrite bool_decide_false; [done|].
    by intros ?%elem_of_nil.
  - apply Forall_cons in Hall as [[r Hr] Hall].
    cbn [Mux_Reset]. rewrite Hr. cbn [mbind option_bind].
    destruct (IH (<[p := Reset r needles]> h)) as (h' & -> & Hh').
    { eapply Forall_impl; [exact Hall|]. intros q Hq.
      by apply lookup_insert_is_Some'; right. }
    exists h'. split; [done|]. intros q. rewrite Hh'.
    destruct (decide (q = p)) as [->|Hne].
    + rewrite lookup_insert_eq, Hr.
      rewrite (bool_decide_true (p ∈ p :: mux)) by apply list_elem_of_here.
      by case_bool_decide.
    + rewrite lookup_insert_ne by done.
      case_bool_decide as Hq.
      * rewrite bool_decide_true; [done|]. by apply list_elem_of_further.
      * rewrite bool_decide_false; [done|]. intros Hq'.
        by apply elem_of_cons in Hq' as [?|?].
Qed.

Lemma Mux_Reset_all_witness :
  ∃ h', Mux_Reset {[ 1%nat := heldQuiet ]} [1%nat; 1%nat] [bytes "sekret"]
        = Some h'
        ∧ ∀ p, h' !! p
               = if bool_decide (p ∈ [1%nat; 1%nat])
                 then (λ r, Reset r [bytes "sekret"])
                        <$> ({[ 1%nat := heldQuiet ]} : store) !! p
                 else ({[ 1%nat := heldQuiet ]} : store) !! p.
Proof.
  apply (Mux_Reset_all {[ 1%nat := heldQuiet ]} [1%nat; 1%nat] [bytes "sekret"]).
  repeat constructor; by exists heldQuiet.
Defined.

(** * Properties of the deprecated names *)

(** ** The order of the names *)

Lemma ltb_lt (s t : string) :
  String.ltb s t = true ↔ OrderedTypeEx.String_as_OT.lt s t.
Proof.
  unfold String.ltb. rewrite <- OrderedTypeEx.String_as_OT.cmp_lt.
  unfold OrderedTypeEx.String_as_OT.cmp. by destruct (String.compare s t).
Qed.

Lemma ltb_irrefl (s : string) : String.ltb s s = false.
Proof.
  destruct (String.ltb s s) eqn:H; [|done]. apply ltb_lt in H.
  by apply OrderedTypeEx.String_as_OT.lt_not_eq in H.
Qed.

Lemma ltb_trans (s t u : string) :
  String.ltb s t = true → String.ltb t u = true → String.ltb s u = true.
Proof.
  rewrite !ltb_lt. apply OrderedTypeEx.String_as_OT.lt_trans.
Qed.

Lemma ltb_total (s t : string) :
  s ≠ t → String.ltb s t = true ∨ String.ltb t s = true.
Proof.
  intros Hne. unfold String.ltb. rewrite (String.compare_antisym t s).
  destruct (String.compare s t) eqn:Hc; simpl; [|by left|by right].
  by apply String.compare_eq_iff in Hc.
Qed.

Lemma less_irrefl (a : DeprecatedNameError) : less a a = false.
Proof. unfold less. rewrite bool_decide_true by done. apply ltb_irrefl. Qed.

Lemma less_trans (a b c : DeprecatedNameError) :
  less a b = true → less b c = true → less a c = true.
Proof.
  unfold less.
  destruct (decide (old a = old b)) as [Hab|Hab],
           (decide (old b = old c)) as [Hbc|Hbc].
  - rewrite !bool_decide_true by congruence. apply ltb_trans.
  - rewrite (bool_decide_true (old a = old b)) by done.
    rewrite !bool_decide_false by congruence. intros _. by rewrite Hab.
  - rewrite (bool_decide_true (old b = old c)) by done.
    rewrite !bool_decide_false by congruence. intros Hlt _. by rewrite <- Hbc.
  - rewrite (bool_decide_false (old a = old b)) by done.
    rewrite (bool_decide_false (old b = old c)) by done.
    intros H1 H2. pose proof (ltb_trans _ _ _ H1 H2) as H3.
    case_bool_decide as Hac; [|done].
    rewrite Hac in H3. by rewrite ltb_irrefl in H3.
Qed.

Lemma less_total (a b : DeprecatedNameError) :
  a ≠ b → less a b = true ∨ less b a = true.
Proof.
  intros Hne. unfold less. destruct a as [o n], b as [o' n']. simpl.
  destruct (decide (o = o')) as [->|Ho].
  - rewrite !bool_decide_true by done. apply ltb_total. congruence.
  - rewrite !bool_decide_false by done. by apply ltb_total.
Qed.

#[local] Instance atMost_trans : Transitive atMost.
Proof.
  unfold atMost. intros a b c Hab Hbc. destruct (less c a) eqn:Hca; [exfalso|done].
  destruct (decide (a = b)) as [->|Hne]; [congruence|].
  destruct (less_total a b Hne) as [Hlt|Hlt]; [|congruence].
  pose proof (less_trans _ _ _ Hca Hlt). congruence.
Qed.

#[local] Instance atMost_antisym : AntiSymm (=) atMost.
Proof.
  unfold atMost. intros a b Hab Hba. destruct (decide (a = b)) as [|Hne]; [done|].
  destruct (less_total a b Hne); congruence.
Qed.

#[local] Instance atMost_total : Total atMost.
Proof.
  unfold atMost. intros a b. destruct (less b a) eqn:Hba; [|by left]. right.
  destruct (less a b) eqn:Hab; [|done].
  pose proof (less_trans _ _ _ Hab Hba) as H. by rewrite less_irrefl in H.
Qed.

Lemma ascending_strict (l : list DeprecatedNameError) :
  NoDup l → Sorted atMost l →
  StronglySorted (λ a b, less a b = true) l.
Proof.
  intros Hnd Hs. apply (Sorted_StronglySorted _) in Hs.
  induction Hs as [|a l Hs IH Ha]; [constructor|].
  apply NoDup_cons in Hnd as [Hal Hnd]. constructor; [by apply IH|].
  rewrite Forall_forall in Ha. apply Forall_forall. intros b Hb.
  destruct (less_total a b) as [|Hba]; [by intros ->|done|].
  by rewrite (Ha b Hb) in Hba.
Qed.

Lemma byName_perm (l : list DeprecatedNameError) : byName less l ≡ₚ l.
Proof. apply merge_sort_Permutation. Qed.

Lemma byName_sorted (l : list DeprecatedNameError) :
  Sorted atMost (byName less l).
Proof. apply (Sorted_merge_sort _). Qed.

Lemma elements_perm (m : gset DeprecatedNameError) : elements m ≡ₚ elements m.
Proof. done. Qed.

Lemma reverse_elements_perm (m : gset DeprecatedNameError) :
  reverse (elements m) ≡ₚ elements m.
Proof. apply reverse_Permutation. Qed.

Lemma fold_insert_union (l : list DeprecatedNameError)
    (m : gset DeprecatedNameError) :
  fold_left (λ m err, {[ err ]} ∪ m) l m = m ∪ list_to_set l.
Proof.
  revert m. induction l as [|a l IH]; intros m; simpl.
  - by rewrite (right_id_L ∅ (∪)).
  - rewrite IH. apply set_eq. set_solver.
Qed.

(** X18: Append returns an object whose map is never nil and holds the
    errors of the receiver, none when the receiver is nil, together with
    the errors given: an error given twice, or held already, is held once,
    and the result is empty only when nothing was held and nothing given. *)
Theorem Append_members (e : option DeprecatedNameErrors)
    (l : list DeprecatedNameError) :
  errs (Append e l) ≠ None
  ∧ members (Append e l) = default ∅ (members <$> e) ∪ list_to_set l
  ∧ IsEmpty (Some (Append e l)) = IsEmpty e && bool_decide (l = []).
Proof.
  assert (members (Append e l) = default ∅ (members <$> e) ∪ list_to_set l)
    as Hm.
  { unfold Append, members at 1. simpl. rewrite fold_insert_union.
    by destruct e. }
  split; [done|]. split; [done|].
  unfold IsEmpty at 1. rewrite Hm. destruct e as [e|]; simpl.
  - destruct l as [|a l]; simpl.
    + rewrite (right_id_L ∅ (∪)). by rewrite andb_true_r.
    + rewrite andb_false_r. apply bool_decide_false. intros Hs.
      apply size_empty_inv in Hs. set_solver.
  - destruct l as [|a l]; simpl.
    + by rewrite (left_id_L ∅ (∪)).
    + apply bool_decide_false. intros Hs.
      apply size_empty_inv in Hs. set_solver.
Qed.

Section NamesFacts.

Variable sort_Slice :
  (DeprecatedNameError → DeprecatedNameError → bool) →
  list DeprecatedNameError → list DeprecatedNameError.
Variable range : gset DeprecatedNameError → list DeprecatedNameError.
Variable sort_Slice' :
  (DeprecatedNameError → DeprecatedNameError → bool) →
  list DeprecatedNameError → list DeprecatedNameError.
Variable range' : gset DeprecatedNameError → list DeprecatedNameError.
Variable quote : string → string.
Variable goError : Type.
Variable isNil : goError → bool.
Variable errors_As : goError → option (option DeprecatedNameErrors).

(** X19: Errors lists every error of the set once, in strictly ascending
    order of the old name and then of the new name, whatever the order in
    which the range over the map visits them, for any sort that returns a
    permutation of its input in which no element is less than the one
    before it. *)
Theorem Errors_sorted (e : DeprecatedNameErrors) :
  (∀ m, range m ≡ₚ elements m) →
  (∀ l, sort_Slice less l ≡ₚ l) →
  (∀ l, Sorted atMost (sort_Slice less l)) →
  ∃ l, Errors sort_Slice range (Some e) = Some l
       ∧ StronglySorted (λ a b, less a b = true) l
       ∧ NoDup l
       ∧ ∀ x, x ∈ l ↔ x ∈ members e.
Proof.
  intros Hrange Hperm Hsorted. unfold Errors, members.
  destruct (errs e) as [m|]; simpl.
  - assert (sort_Slice less (range m) ≡ₚ elements m) as Hp.
    { by rewrite Hperm. }
    assert (NoDup (sort_Slice less (range m))) as Hnd.
    { rewrite Hp. apply NoDup_elements. }
    eexists. split; [done|]. split; [by apply ascending_strict|].
    split; [done|]. intros x. rewrite Hp. apply elem_of_elements.
  - exists []. split; [done|]. split; [constructor|]. split; [constructor|].
    intros x. split; [by intros ?%elem_of_nil|set_solver].
Qed.

(** X20: Errors does not depend on the order in which the range over the map
    visits the errors, nor on the sort the library uses: any two orders and
    any two sorts that keep the promise of [sort.Slice] give the same
    list. *)
Theorem Errors_deterministic (e : option DeprecatedNameErrors) :
  (∀ m, range m ≡ₚ elements m) → (∀ m, range' m ≡ₚ elements m) →
  (∀ l, sort_Slice less l ≡ₚ l) → (∀ l, sort_Slice' less l ≡ₚ l) →
  (∀ l, Sorted atMost (sort_Slice less l)) →
  (∀ l, Sorted atMost (sort_Slice' less l)) →
  Errors sort_Slice range e = Errors sort_Slice' range' e.
Proof.
  intros Hr Hr' Hp Hp' Hs Hs'. unfold Errors.
  destruct e as [e|]; [|done]. destruct (errs e) as [m|]; [|done]. f_equal.
  apply (Sorted_unique atMost); [done|done|].
  by rewrite Hp, Hp', Hr, Hr'.
Qed.

(** X21: Is compares the sets: for a receiver that is not nil it answers
    false when [errors.As] finds no DeprecatedNameErrors in the target,
    panics when the one found is a nil pointer, and otherwise answers
    whether the two hold the same errors, a nil map counting as an empty
    one. *)
Theorem Is_same_set (e : DeprecatedNameErrors) (target : goError) :
  (∀ m, range m ≡ₚ elements m) →
  DeprecatedNameErrors_Is range goError isNil errors_As (Some e) target
  = match errors_As target with
    | None => Some false
    | Some None => None
    | Some (Some t) => Some (bool_decide (members e = members t))
    end.
Proof.
  intros Hr. unfold DeprecatedNameErrors_Is.
  destruct (errors_As target) as [[t|]|]; [|done|done].
  case_bool_decide as Hsize.
  - rewrite bool_decide_false; [done|]. intros Heq. by rewrite Heq in Hsize.
  - f_equal. apply eq_true_iff_eq.
    rewrite forallb_forall, bool_decide_eq_true. split.
    + intros Hall. apply set_subseteq_size_eq; [|lia].
      intros x Hx. specialize (Hall x). rewrite bool_decide_eq_true in Hall.
      apply Hall. apply list_elem_of_In. rewrite Hr. by apply elem_of_elements.
    + intros Heq x Hx. apply bool_decide_eq_true. rewrite <- Heq.
      apply list_elem_of_In in Hx. rewrite Hr in Hx.
      by apply elem_of_elements in Hx.
Qed.

Lemma string_app_nil_r (s : string) : s +:+ "" = s.
Proof.
  induction s as [|a s IH]; [done|].
  change (String a (s +:+ "") = String a s). by rewrite IH.
Qed.

Lemma writeErrors_concat (n i : Z) (l : list DeprecatedNameError) :
  Z.of_nat (length l) = n - i →
  writeErrors quote n i l
  = String.concat newline (DeprecatedNameError_Error quote <$> l).
Proof.
  revert i. induction l as [|a l IH]; intros i Hl; [done|].
  cbn [writeErrors]. destruct l as [|b l].
  - simpl in Hl. rewrite bool_decide_false by lia.
    cbn [writeErrors fmap list_fmap String.concat].
    by rewrite !string_app_nil_r.
  - rewrite bool_decide_true by (simpl in Hl; lia).
    rewrite IH by (simpl in *; lia). done.
Qed.

(** X22: Error writes the messages of the errors in the order of Errors,
    with one newline between two messages and none after the last; it is
    the empty string for a nil receiver and for an empty set. *)
Theorem Error_lines (e : option DeprecatedNameErrors) :
  (∀ m, range m ≡ₚ elements m) → (∀ l, sort_Slice less l ≡ₚ l) →
  DeprecatedNameErrors_Error sort_Slice range quote e
  = String.concat newline
      (DeprecatedNameError_Error quote
         <$> default [] (Errors sort_Slice range e)).
Proof.
  intros Hr Hp. unfold DeprecatedNameErrors_Error. apply writeErrors_concat.
  destruct e as [e|]; [|done]. unfold Errors, members.
  destruct (errs e) as [m|]; simpl; [|done].
  rewrite Hp, Hr. unfold size, set_size. simpl. lia.
Qed.

End NamesFacts.

Lemma Errors_sorted_witness :
  ∃ l, Errors byName elements
         (Some (Append None [NewDeprecatedNameError "b" "y";
                             NewDeprecatedNameError "a" "x"]))
       = Some l
       ∧ StronglySorted (λ a b, less a b = true) l
       ∧ NoDup l
       ∧ ∀ x, x ∈ l
              ↔ x ∈ members (Append None [NewDeprecatedNameError "b" "y";
                                         NewDeprecatedNameError "a" "x"]).
Proof.
  apply (Errors_sorted byName elements
           (Append None [NewDeprecatedNameError "b" "y";
                         NewDeprecatedNameError "a" "x"])).
  - exact elements_perm.
  - exact byName_perm.
  - exact byName_sorted.
Defined.

Lemma Errors_deterministic_witness :
  Errors byName elements
    (Some (Append None [NewDeprecatedNameError "b" "y";
                        NewDeprecatedNameError "a" "x"]))
  = Errors byName (λ m, reverse (elements m))
      (Some (Append None [NewDeprecatedNameError "b" "y";
                          NewDeprecatedNameError "a" "x"])).
Proof.
  apply (Errors_deterministic byName elements byName
           (λ m, reverse (elements m))).
  - exact elements_perm.
  - exact reverse_elements_perm.
  - exact byName_perm.
  - exact byName_perm.
  - exact byName_sorted.
  - exact byName_sorted.
Defined.

Lemma Is_same_set_witness :
  DeprecatedNameErrors_Is elements unit (λ _, false)
    (λ _, Some (Some (mkDeprecatedNameErrors None)))
    (Some (mkDeprecatedNameErrors (Some ∅))) tt
  = match (λ _ : unit, Some (Some (mkDeprecatedNameErrors None))) tt with
    | None => Some false
    | Some None => None
    | Some (Some t) =>
        Some (bool_decide (members (mkDeprecatedNameErrors (Some ∅))
                           = members t))
    end.
Proof.
  apply (Is_same_set elements unit (λ _, false)
           (λ _, Some (Some (mkDeprecatedNameErrors None)))
           (mkDeprecatedNameErrors (Some ∅)) tt).
  exact elements_perm.
Defined.

Lemma Error_lines_witness :
  DeprecatedNameErrors_Error byName elements id
    (Some (Append None [NewDeprecatedNameError "b" "y";
                        NewDeprecatedNameError "a" "x"]))
  = String.concat newline
      (DeprecatedNameError_Error id
         <$> default []
               (Errors byName elements
                  (Some (Append None [NewDeprecatedNameError "b" "y";
                                      NewDeprecatedNameError "a" "x"])))).
Proof.
  apply (Error_lines byName elements id
           (Some (Append None [NewDeprecatedNameError "b" "y";
                               NewDeprecatedNameError "a" "x"]))).
  - exact elements_perm.
  - exact byName_perm.
Defined.
